(** * A planar-graph face engine: shallow embedding and verification

    The development embeds the TypeScript sources [vec2.ts], [util.ts] and
    [graph.ts] (classes [vec2], [GraphEdge], [GraphHalfEdge], [GraphFace],
    [GraphVertex], [Graph]).

    - A JavaScript [number] is an IEEE-754 binary64 value: Rocq's primitive
      [float], whose operations round exactly as the engine's do.
    - Objects have identity.  A [GraphVertex] is named by a [VertexRef], a
      [GraphEdge] carries the identifier it was allocated with, a half-edge is
      named by its edge and its side, a [GraphFace] by its index in the
      face array.  The mutable fields of these objects live in the heap part
      of the [Graph] record.
    - [Math.atan2], [Math.hypot] and [Math.random] belong to the host; they
      are a parameter ([Host]).  [Math.random] is the sequence of its
      outcomes, indexed by the number of the call. *)

From Stdlib Require Import Floats ZArith List Bool Arith Lia Permutation.
From Stdlib Require Strings.String.
Import String.StringSyntax.
Import ListNotations.

Local Open Scope float_scope.
Delimit Scope string_scope with string.
Set Warnings "-inexact-float".
Set Warnings "-register-all".


(* ================================================================= *)
(** ** JavaScript numbers *)

Definition Number_isFinite (x : float) : bool := is_finite x.

(** [Math.min] and [Math.max] on two arguments: a NaN argument gives NaN,
    and -0 is below +0. *)
Definition Math_min (a b : float) : float :=
  if (is_nan a || is_nan b)%bool then nan
  else if a <? b then a
  else if b <? a then b
  else if (is_zero a && get_sign a)%bool then a else b.

Definition Math_max (a b : float) : float :=
  if (is_nan a || is_nan b)%bool then nan
  else if a <? b then b
  else if b <? a then a
  else if (is_zero a && negb (get_sign a))%bool then a else b.

(** [Math.PI], the binary64 value nearest to pi. *)
Definition Math_PI : float := 0x1.921fb54442d18p+1.

(** The integer a nonnegative or negative integer-valued computation yields,
    as a number. *)
Definition float_of_Z (z : Z) : float :=
  SF2Prim (binary_normalize prec emax z 0 false).

Definition float_of_nat (n : nat) : float := float_of_Z (Z.of_nat n).

(** [Math.floor]: the value is kept when it is NaN, infinite or a zero. *)
Definition Math_floor (x : float) : float :=
  match Prim2SF x with
  | S754_finite s m e =>
      let z := Z.shiftl (if s then Z.neg m else Z.pos m) e in
      if (z =? 0)%Z then 0 else float_of_Z z
  | _ => x
  end.

(** The array index a number denotes when it is used as a property key of an
    array: [x] is an index when it is a nonnegative integer (-0 denotes 0);
    any other number names no element. *)
Definition to_index (x : float) : option Z :=
  match Prim2SF x with
  | S754_zero _ => Some 0%Z
  | S754_finite false m e =>
      if (0 <=? e)%Z then Some (Z.pos m * 2 ^ e)%Z
      else if (Z.pos m mod 2 ^ (- e) =? 0)%Z
           then Some (Z.pos m / 2 ^ (- e))%Z
           else None
  | _ => None
  end.

(** [array[x]]: [undefined] is [None]. *)
Definition js_get {A : Type} (array : list A) (x : float) : option A :=
  match to_index x with
  | Some i =>
      if (i <? Z.of_nat (length array))%Z then nth_error array (Z.to_nat i)
      else None
  | None => None
  end.

(** [array[i] = v] for an index inside the array. *)
Fixpoint js_set {A : Type} (array : list A) (i : nat) (v : A) : list A :=
  match array, i with
  | [], _ => []
  | _ :: rest, O => v :: rest
  | a :: rest, S i' => a :: js_set rest i' v
  end.

(* ================================================================= *)
(** ** The host: [Math.atan2], [Math.hypot], [Math.random] *)

Record Host := mkHost {
  Math_atan2 : float -> float -> float;
  Math_hypot : float -> float -> float;
  (** the outcome of the [k]-th call of [Math.random] *)
  Math_random : nat -> float
}.

(* ================================================================= *)
(** ** vec2.ts *)

Record vec2 := new_vec2 { x : float; y : float }.

Definition vec2_sub (this vec : vec2) : vec2 :=
  new_vec2 (x this - x vec) (y this - y vec).

Definition vec2_add (this vec : vec2) : vec2 :=
  new_vec2 (x this + x vec) (y this + y vec).

Definition vec2_scale (this : vec2) (scalar : float) : vec2 :=
  new_vec2 (x this * scalar) (y this * scalar).

Definition vec2_cross (this vec : vec2) : float :=
  x this * y vec - y this * x vec.

Definition vec2_length (H : Host) (this : vec2) : float :=
  Math_hypot H (x this) (y this).

(* ================================================================= *)
(** ** util.ts *)

(** The two parametric coordinates [lineSegmentIntersect] solves for, and
    the denominator they share. *)
Definition segment_denominator (a0 a1 b0 b1 : vec2) : float :=
  vec2_cross (vec2_sub a1 a0) (vec2_sub b1 b0).

Definition segment_ta (a0 a1 b0 b1 : vec2) : float :=
  vec2_cross (vec2_sub b0 a0) (vec2_sub b1 b0) / segment_denominator a0 a1 b0 b1.

Definition segment_tb (a0 a1 b0 b1 : vec2) : float :=
  vec2_cross (vec2_sub b0 a0) (vec2_sub a1 a0) / segment_denominator a0 a1 b0 b1.

Definition lineSegmentIntersect (a0 a1 b0 b1 : vec2) : bool :=
  let r := vec2_sub a1 a0 in
  let s := vec2_sub b1 b0 in
  let denominator := vec2_cross r s in
  let q := vec2_sub b0 a0 in
  let ta := vec2_cross q s / denominator in
  let tb := vec2_cross q r / denominator in
  Number_isFinite ta && Number_isFinite tb &&
  negb ((ta <? 0) || (1 <? ta) || (tb <? 0) || (1 <? tb)).

Definition rayLineSegmentIntersect (rayOrigin rayDirection v0 v1 : vec2)
  : option vec2 :=
  let segment := vec2_sub v1 v0 in
  let denominator := vec2_cross rayDirection segment in
  let originToSegment := vec2_sub v0 rayOrigin in
  let tRay := vec2_cross originToSegment segment / denominator in
  let tSegment := vec2_cross originToSegment rayDirection / denominator in
  if (negb (Number_isFinite tRay) || negb (Number_isFinite tSegment) ||
      (tRay <? 0) || (tSegment <? 0) || (1 <? tSegment))%bool
  then None
  else Some (new_vec2 (x rayOrigin + x rayDirection * tRay)
                      (y rayOrigin + y rayDirection * tRay)).

(** [shuffle]: the loop runs [i] from [array.length - 1] down to [1]; the
    call of [Math.random] it makes is the [k]-th.  The index [j] is inside
    the array for every outcome of [Math.random], which lies in [0, 1).  A
    [j] outside the array would leave a hole in it, which the destructuring
    loop of [createEdges] turns into a TypeError: that outcome is [None]. *)
Fixpoint shuffle_loop {A : Type} (H : Host) (i k : nat) (array : list A)
  : option (list A * nat) :=
  match i with
  | O => Some (array, k)
  | S i' =>
      let j := Math_floor (Math_random H k * float_of_nat (i + 1)) in
      match js_get array j, nth_error array i, to_index j with
      | Some aj, Some tmp, Some jn =>
          shuffle_loop H i' (S k)
                       (js_set (js_set array i aj) (Z.to_nat jn) tmp)
      | _, _, _ => None
      end
  end.

Definition shuffle {A : Type} (H : Host) (k : nat) (array : list A)
  : option (list A * nat) :=
  shuffle_loop H (length array - 1) k array.

(** [generateFaceColor]: the three numbers the colour string is printed
    from. *)
Record Color := mkColor { hue : float; saturation : float; lightness : float }.

Definition generateFaceColor (H : Host) (k : nat) : Color * nat :=
  (mkColor (Math_floor (Math_random H k * 360))
           (75 + Math_random H (k + 1) * 20)
           (48 + Math_random H (k + 2) * 12),
   (k + 3)%nat).

(* ================================================================= *)
(** ** graph.ts: entities *)

(** A [GraphVertex] object is named by a natural number. *)
Abbreviation VertexRef := nat (only parsing).

(** A [GraphEdge] object: [edgeId] is its identity (two edges created by two
    [new GraphEdge] are different objects even between the same vertices);
    its two vertices are read-only. *)
Record GraphEdge := new_GraphEdge {
  edgeId : nat;
  vertex0 : VertexRef;
  vertex1 : VertexRef
}.

(** A [GraphHalfEdge] object: the constructor of its edge creates one per
    vertex; [origin], [edge] and [twin] never change afterwards. *)
Record GraphHalfEdge := new_GraphHalfEdge {
  edge : GraphEdge;
  fromVertex1 : bool
}.

Definition halfEdgeFromVertex0 (e : GraphEdge) := new_GraphHalfEdge e false.
Definition halfEdgeFromVertex1 (e : GraphEdge) := new_GraphHalfEdge e true.

Definition origin (h : GraphHalfEdge) : VertexRef :=
  if fromVertex1 h then vertex1 (edge h) else vertex0 (edge h).

Definition twin (h : GraphHalfEdge) : GraphHalfEdge :=
  new_GraphHalfEdge (edge h) (negb (fromVertex1 h)).

(** A [GraphFace] object is named by its position in the face array. *)
Abbreviation FaceRef := nat (only parsing).

Record GraphFace := new_GraphFace {
  face_halfEdges : list GraphHalfEdge;
  color : Color
}.

(** [===] on objects. *)
Definition GraphEdge_eq_dec (a b : GraphEdge) : {a = b} + {a <> b}.
Proof. decide equality; apply Nat.eq_dec. Defined.

Definition GraphHalfEdge_eq_dec (a b : GraphHalfEdge) : {a = b} + {a <> b}.
Proof. decide equality; [apply Bool.bool_dec | apply GraphEdge_eq_dec]. Defined.

Arguments GraphEdge_eq_dec : simpl never.
Arguments GraphHalfEdge_eq_dec : simpl never.

Definition same_edge (a b : GraphEdge) : bool :=
  if GraphEdge_eq_dec a b then true else false.

Definition same_halfEdge (a b : GraphHalfEdge) : bool :=
  if GraphHalfEdge_eq_dec a b then true else false.

(** [array.includes(e)] *)
Definition includes {A : Type} (eq_dec : forall a b : A, {a = b} + {a <> b})
  (array : list A) (e : A) : bool :=
  if in_dec eq_dec e array then true else false.

(** [const i = array.indexOf(e); if (i !== -1) array.splice(i, 1)] *)
Fixpoint remove_first {A : Type} (eq_dec : forall a b : A, {a = b} + {a <> b})
  (e : A) (array : list A) : list A :=
  match array with
  | [] => []
  | a :: rest => if eq_dec e a then rest else a :: remove_first eq_dec e rest
  end.

(** The graph object together with the objects it reaches.  [vertices],
    [edges], [faces] and [halfEdges] are the four arrays of the class; the
    other fields are the heap: [pos] and [vertexEdges] are the fields [pos]
    and [edges] of each [GraphVertex], [next] and [face] the fields of each
    [GraphHalfEdge]. *)
Record Graph := mkGraph {
  vertices : list VertexRef;
  edges : list GraphEdge;
  faces : list GraphFace;
  halfEdges : list GraphHalfEdge;
  pos : VertexRef -> vec2;
  vertexEdges : VertexRef -> list GraphEdge;
  next : GraphHalfEdge -> option GraphHalfEdge;
  face : GraphHalfEdge -> option FaceRef
}.

Definition Graph_width : float := 2.
Definition Graph_height : float := 2.
Definition Graph_padding : float := 0.1.

(** The fields of a fresh [Graph]. *)
Definition Graph_empty : Graph :=
  mkGraph [] [] [] [] (fun _ => new_vec2 0 0) (fun _ => []) (fun _ => None)
          (fun _ => None).

(** Assignment to a field of one heap object. *)
Definition update {B : Type} (f : VertexRef -> B) (v : VertexRef) (b : B)
  : VertexRef -> B :=
  fun u => if Nat.eq_dec u v then b else f u.

Definition update_halfEdge {B : Type} (f : GraphHalfEdge -> B)
  (h : GraphHalfEdge) (b : B) : GraphHalfEdge -> B :=
  fun u => if GraphHalfEdge_eq_dec u h then b else f u.

(* ----------------------------------------------------------------- *)
(** *** GraphEdge *)

Definition GraphEdge_length (H : Host) (g : Graph) (this : GraphEdge) : float :=
  vec2_length H (vec2_sub (pos g (vertex1 this)) (pos g (vertex0 this))).

Definition sharesVertexWithEdge (this e : GraphEdge) : bool :=
  (vertex0 this =? vertex0 e)%nat || (vertex0 this =? vertex1 e)%nat ||
  (vertex1 this =? vertex0 e)%nat || (vertex1 this =? vertex1 e)%nat.

(* ----------------------------------------------------------------- *)
(** *** GraphVertex *)

Definition GraphVertex_removeEdge (g : Graph) (this : VertexRef) (e : GraphEdge)
  : Graph :=
  mkGraph (vertices g) (edges g) (faces g) (halfEdges g) (pos g)
          (update (vertexEdges g) this
                  (remove_first GraphEdge_eq_dec e (vertexEdges g this)))
          (next g) (face g).

Definition edgeAngle (H : Host) (g : Graph) (this : VertexRef) (e : GraphEdge)
  : float :=
  let u := if (vertex0 e =? this)%nat then vertex1 e else vertex0 e in
  let direction := vec2_sub (pos g u) (pos g this) in
  Math_atan2 H (y direction) (x direction).

(** [Array.prototype.sort] with a comparator: the sort is stable, the
    comparator's value is read through its sign and a NaN value counts as
    [+0].  For a comparator that orders its arguments consistently every
    stable sort gives the same array; this one inserts each element in
    front of the sorted rest of the array. *)
Fixpoint sort_insert {A : Type} (comparator : A -> A -> float) (a : A)
  (sorted : list A) : list A :=
  match sorted with
  | [] => [a]
  | b :: rest =>
      if 0 <? comparator a b then b :: sort_insert comparator a rest
      else a :: b :: rest
  end.

Fixpoint Array_sort {A : Type} (comparator : A -> A -> float) (array : list A)
  : list A :=
  match array with
  | [] => []
  | a :: rest => sort_insert comparator a (Array_sort comparator rest)
  end.

Definition sortEdgesCCW (H : Host) (g : Graph) (this : VertexRef) : Graph :=
  mkGraph (vertices g) (edges g) (faces g) (halfEdges g) (pos g)
          (update (vertexEdges g) this
                  (Array_sort (fun ea eb => edgeAngle H g this ea - edgeAngle H g this eb)
                              (vertexEdges g this)))
          (next g) (face g).

(* ----------------------------------------------------------------- *)
(** *** GraphFace *)

Definition pointIsInside (g : Graph) (this : GraphFace) (point : vec2) : bool :=
  let rayDirection := new_vec2 1 0 in
  let intersections :=
    fold_left
      (fun (intersections : nat) (halfEdge : GraphHalfEdge) =>
         let e := edge halfEdge in
         match rayLineSegmentIntersect point rayDirection
                 (pos g (vertex0 e)) (pos g (vertex1 e)) with
         | Some _ => S intersections
         | None => intersections
         end)
      (face_halfEdges this) 0%nat in
  (intersections mod 2 =? 1)%nat.

(** The half-edges of the face object [this]; an index outside the face
    array names no face. *)
Definition halfEdges_of (g : Graph) (this : FaceRef) : list GraphHalfEdge :=
  match nth_error (faces g) this with
  | Some f => face_halfEdges f
  | None => []
  end.

(** [neighbors.add(neighbor)] on a [Set]: insertion order, no repetition. *)
Definition Set_add (s : list FaceRef) (f : FaceRef) : list FaceRef :=
  if in_dec Nat.eq_dec f s then s else s ++ [f].

Definition neighboringFaces (g : Graph) (this : FaceRef) : list FaceRef :=
  fold_left
    (fun neighbors halfEdge =>
       match face g halfEdge with
       | Some owner =>
           if (owner =? this)%nat then
             match face g (twin halfEdge) with
             | Some neighbor =>
                 if (neighbor =? this)%nat then neighbors
                 else Set_add neighbors neighbor
             | None => neighbors
             end
           else neighbors
       | None => neighbors
       end)
    (halfEdges_of g this) [].

(** One round of the [while] loop of [shellLayers]: the next frontier. *)
Definition nextFrontier_of (g : Graph) (visited frontier : list FaceRef)
  : list FaceRef :=
  fold_left
    (fun nextFrontier f =>
       fold_left
         (fun nextFrontier neighbor =>
            if includes Nat.eq_dec visited neighbor then nextFrontier
            else if includes Nat.eq_dec nextFrontier neighbor then nextFrontier
            else nextFrontier ++ [neighbor])
         (neighboringFaces g f) nextFrontier)
    frontier [].

(** The [while (frontier.length)] loop; [fuel] bounds the number of rounds
    and [None] is its exhaustion. *)
Fixpoint shellLayers_loop (fuel : nat) (g : Graph)
  (layers : list (list FaceRef)) (visited frontier : list FaceRef)
  : option (list (list FaceRef)) :=
  match frontier with
  | [] => Some layers
  | _ :: _ =>
      match fuel with
      | O => None
      | S fuel' =>
          let layers := layers ++ [frontier] in
          let visited := visited ++ frontier in
          shellLayers_loop fuel' g layers visited
                           (nextFrontier_of g visited frontier)
      end
  end.

(** [shellLayers]: every round visits a face not visited before, so one
    round more than there are faces is enough (lemma
    [shellLayers_loop_spec]). *)
Definition shellLayers (g : Graph) (this : FaceRef) : list (list FaceRef) :=
  match shellLayers_loop (S (length (faces g))) g [] [] [this] with
  | Some layers => layers
  | None => []
  end.

(* ----------------------------------------------------------------- *)
(** *** Graph: edges in and out *)

Definition registerEdge (g : Graph) (e : GraphEdge) : Graph :=
  let vertexEdges1 :=
    update (vertexEdges g) (vertex0 e) (vertexEdges g (vertex0 e) ++ [e]) in
  let vertexEdges2 :=
    update vertexEdges1 (vertex1 e) (vertexEdges1 (vertex1 e) ++ [e]) in
  mkGraph (vertices g)
          (edges g ++ [e])
          (faces g)
          (halfEdges g ++ [halfEdgeFromVertex0 e; halfEdgeFromVertex1 e])
          (pos g) vertexEdges2 (next g) (face g).

Definition removeHalfEdge (g : Graph) (h : GraphHalfEdge) : Graph :=
  mkGraph (vertices g) (edges g) (faces g)
          (remove_first GraphHalfEdge_eq_dec h (halfEdges g))
          (pos g) (vertexEdges g) (next g) (face g).

Definition Graph_removeEdge (g : Graph) (e : GraphEdge) : Graph :=
  let g1 :=
    mkGraph (vertices g) (remove_first GraphEdge_eq_dec e (edges g)) (faces g)
            (halfEdges g) (pos g) (vertexEdges g) (next g) (face g) in
  let g2 := removeHalfEdge g1 (halfEdgeFromVertex0 e) in
  let g3 := removeHalfEdge g2 (halfEdgeFromVertex1 e) in
  let g4 := GraphVertex_removeEdge g3 (vertex0 e) e in
  GraphVertex_removeEdge g4 (vertex1 e) e.

(* ----------------------------------------------------------------- *)
(** *** Graph: randomized generation *)

(** [addRandomVertices]: the new vertex object is named by its position in
    the vertex array; the two calls of [Math.random] are the [k]-th and the
    next one. *)
Fixpoint addRandomVertices (H : Host) (vertexCount : nat) (k : nat) (g : Graph)
  : Graph * nat :=
  match vertexCount with
  | O => (g, k)
  | S vertexCount' =>
      let v := length (vertices g) in
      let p :=
        new_vec2
          (-1 + Graph_padding
           + (Graph_width - 2 * Graph_padding) * Math_random H k)
          (-1 + Graph_padding
           + (Graph_height - 2 * Graph_padding) * Math_random H (S k)) in
      addRandomVertices H vertexCount' (S (S k))
        (mkGraph (vertices g ++ [v]) (edges g) (faces g) (halfEdges g)
                 (update (pos g) v p) (update (vertexEdges g) v [])
                 (next g) (face g))
  end.

(** The pairs [[vertices[i], vertices[j]]] with [i < j], in the order of the
    two nested loops. *)
Fixpoint vertexPairs_of (vs : list VertexRef) : list (VertexRef * VertexRef) :=
  match vs with
  | [] => []
  | v :: rest => map (fun u => (v, u)) rest ++ vertexPairs_of rest
  end.

(** The inner loop of [createEdges] over the edges admitted so far. *)
Definition intersectsExisting (g : Graph) (candidateEdge : GraphEdge) : bool :=
  existsb
    (fun existingEdge =>
       if sharesVertexWithEdge existingEdge candidateEdge then false
       else lineSegmentIntersect
              (pos g (vertex0 candidateEdge)) (pos g (vertex1 candidateEdge))
              (pos g (vertex0 existingEdge)) (pos g (vertex1 existingEdge)))
    (edges g).

(** The outer loop of [createEdges]: [id] is the identity the next
    [new GraphEdge] gets. *)
Fixpoint admitEdges (g : Graph) (id : nat)
  (vertexPairs : list (VertexRef * VertexRef)) : Graph :=
  match vertexPairs with
  | [] => g
  | (v0, v1) :: rest =>
      let candidateEdge := new_GraphEdge id v0 v1 in
      if intersectsExisting g candidateEdge then admitEdges g (S id) rest
      else admitEdges (registerEdge g candidateEdge) (S id) rest
  end.

Definition createEdges (H : Host) (k : nat) (g : Graph) : option (Graph * nat) :=
  match shuffle H k (vertexPairs_of (vertices g)) with
  | Some (vertexPairs, k') => Some (admitEdges g 0 vertexPairs, k')
  | None => None
  end.

(** The body of the inner [for] loop of [removeSmallAngles], at the vertex
    [v] whose edge array was copied to [copied] when the loop started. *)
Definition removeSmallAngles_step (H : Host) (threshold : float)
  (v : VertexRef) (copied : list GraphEdge) (state : Graph * bool) (i : nat)
  : Graph * bool :=
  let (g, removedEdge) := state in
  match nth_error copied i, nth_error copied ((i + 1) mod length copied) with
  | Some edgeA, Some edgeB =>
      if (negb (includes GraphEdge_eq_dec (vertexEdges g v) edgeA) ||
          negb (includes GraphEdge_eq_dec (vertexEdges g v) edgeB))%bool
      then state
      else if same_edge edgeA edgeB then state
      else
        let angleA := edgeAngle H g v edgeA in
        let angleB := edgeAngle H g v edgeB in
        let angleDelta := angleB - angleA in
        let angleDelta :=
          if angleDelta <=? 0 then angleDelta + 2 * Math_PI else angleDelta in
        if threshold <=? angleDelta then state
        else
          let edgeToRemove :=
            if GraphEdge_length H g edgeB <=? GraphEdge_length H g edgeA
            then edgeA else edgeB in
          (Graph_removeEdge g edgeToRemove, true)
  | _, _ => state
  end.

Definition removeSmallAngles_vertex (H : Host) (threshold : float)
  (state : Graph * bool) (v : VertexRef) : Graph * bool :=
  let copied := vertexEdges (fst state) v in
  if (length copied <? 2)%nat then state
  else fold_left (removeSmallAngles_step H threshold v copied)
                 (seq 0 (length copied)) state.

Definition removeSmallAngles (H : Host) (threshold : float) (g : Graph)
  : Graph * bool :=
  fold_left (removeSmallAngles_vertex H threshold) (vertices g) (g, false).

(** The first loop of [removeSparseVertices]. *)
Definition collectSparse (state : Graph * list VertexRef) (v : VertexRef)
  : Graph * list VertexRef :=
  let (g, verticesToRemove) := state in
  match vertexEdges g v with
  | [] => (g, verticesToRemove ++ [v])
  | [e] => (Graph_removeEdge g e, verticesToRemove ++ [v])
  | _ => state
  end.

(** The second loop of [removeSparseVertices]. *)
Definition dropVertex (g : Graph) (v : VertexRef) : Graph :=
  let g' := fold_left Graph_removeEdge (vertexEdges g v) g in
  mkGraph (remove_first Nat.eq_dec v (vertices g')) (edges g') (faces g')
          (halfEdges g') (pos g') (vertexEdges g') (next g') (face g').

Definition removeSparseVertices (g : Graph) : Graph * bool :=
  let (g1, verticesToRemove) := fold_left collectSparse (vertices g) (g, []) in
  match verticesToRemove with
  | [] => (g1, false)
  | _ :: _ => (fold_left dropVertex verticesToRemove g1, true)
  end.

(** [while (true) { if (!pass()) break; }]: [fuel] bounds the number of
    passes. *)
Fixpoint repeat_pass (pass : Graph -> Graph * bool) (fuel : nat) (g : Graph)
  : Graph :=
  match fuel with
  | O => g
  | S fuel' =>
      let (g', again) := pass g in
      if again then repeat_pass pass fuel' g' else g'
  end.

(** [generateRandomGraph].  A pass of [removeSmallAngles] that returns
    [true] has removed an edge and a pass of [removeSparseVertices] that
    returns [true] has removed a vertex, so the two loops stop within the
    bounds given here. *)
Definition generateRandomGraph (H : Host) (vertexCount : nat) (g : Graph)
  : option (Graph * nat) :=
  let (g1, k1) := addRandomVertices H vertexCount 0 g in
  match createEdges H k1 g1 with
  | None => None
  | Some (g2, k2) =>
      let g3 := fold_left (sortEdgesCCW H) (vertices g2) g2 in
      let g4 :=
        repeat_pass (removeSmallAngles H (Math_PI / 6))
                    (S (length (edges g3))) g3 in
      let g5 :=
        repeat_pass removeSparseVertices (S (length (vertices g4))) g4 in
      Some (g5, k2)
  end.

(* ----------------------------------------------------------------- *)
(** *** Graph: deserialization and normalization *)

Record GraphSerialized := mkGraphSerialized {
  data_vertices : list (float * float);
  data_edges : list (float * float)
}.

(** [for (const vertex of this.vertices) vertex.pos = f(vertex.pos)] *)
Definition map_positions (f : vec2 -> vec2) (g : Graph) : Graph :=
  mkGraph (vertices g) (edges g) (faces g) (halfEdges g)
          (fold_left (fun p v => update p v (f (p v))) (vertices g) (pos g))
          (vertexEdges g) (next g) (face g).

(** The first loop of [normalizeVerticesToGraphSpace]: the corners [min]
    and [max] of the bounding box. *)
Definition boundingBox (g : Graph) : vec2 * vec2 :=
  fold_left
    (fun '(min, max) v =>
       let p := pos g v in
       (new_vec2 (Math_min (x min) (x p)) (Math_min (y min) (y p)),
        new_vec2 (Math_max (x max) (x p)) (Math_max (y max) (y p))))
    (vertices g)
    (new_vec2 infinity infinity, new_vec2 neg_infinity neg_infinity).

(** [normalizeVerticesToGraphSpace] once the bounding box is known. *)
Definition normalizeWith (min max : vec2) (g : Graph) : Graph :=
  let width := x max - x min in
  let height := y max - y min in
  if ((width =? 0) && (height =? 0))%bool
  then map_positions (fun _ => new_vec2 0 0) g
  else
    let center := vec2_scale (vec2_add min max) 0.5 in
    let availableWidth := Math_max (Graph_width - 2 * Graph_padding) 0 in
    let availableHeight := Math_max (Graph_height - 2 * Graph_padding) 0 in
    let scale :=
      new_vec2 (if 0 <? width then availableWidth / width else infinity)
               (if 0 <? height then availableHeight / height else infinity) in
    let uniformScale := Math_min (x scale) (y scale) in
    if (negb (Number_isFinite uniformScale) || (uniformScale <=? 0))%bool
    then map_positions (fun _ => new_vec2 0 0) g
    else map_positions
           (fun p => vec2_scale (vec2_sub p center) uniformScale) g.

Definition normalizeVerticesToGraphSpace (g : Graph) : Graph :=
  match vertices g with
  | [] => g
  | _ :: _ => let (min, max) := boundingBox g in normalizeWith min max g
  end.

(** [this.vertices.push(...vertexInstances)]: a new vertex object is named
    by its position in the vertex array. *)
Fixpoint pushVertices (positions : list (float * float)) (g : Graph) : Graph :=
  match positions with
  | [] => g
  | (px, py) :: rest =>
      let v := length (vertices g) in
      pushVertices rest
        (mkGraph (vertices g ++ [v]) (edges g) (faces g) (halfEdges g)
                 (update (pos g) v (new_vec2 px py))
                 (update (vertexEdges g) v []) (next g) (face g))
  end.

(** The loop of [loadFromSerialized] over [data.edges]: [id] is the
    identity the next [new GraphEdge] gets. *)
Fixpoint loadEdges (g : Graph) (id : nat) (entries : list (float * float))
  : Graph :=
  match entries with
  | [] => g
  | (index0, index1) :: rest =>
      match js_get (vertices g) index0, js_get (vertices g) index1 with
      | Some v0, Some v1 =>
          loadEdges (registerEdge g (new_GraphEdge id v0 v1)) (S id) rest
      | _, _ => loadEdges g id rest
      end
  end.

Definition loadFromSerialized (H : Host) (data : GraphSerialized) (g : Graph)
  : Graph :=
  let g1 := pushVertices (data_vertices data) g in
  let g2 := normalizeVerticesToGraphSpace g1 in
  let g3 := loadEdges g2 0 (data_edges data) in
  fold_left (sortEdgesCCW H) (vertices g3) g3.

(* ----------------------------------------------------------------- *)
(** *** Graph: half-edge linking and face extraction *)

Definition outgoing_of (g : Graph) (v : VertexRef) : list GraphHalfEdge :=
  map (fun e => if (vertex0 e =? v)%nat then halfEdgeFromVertex0 e
                else halfEdgeFromVertex1 e)
      (vertexEdges g v).

Definition set_next (g : Graph) (h : GraphHalfEdge) (n : GraphHalfEdge) : Graph :=
  mkGraph (vertices g) (edges g) (faces g) (halfEdges g) (pos g)
          (vertexEdges g) (update_halfEdge (next g) h (Some n)) (face g).

(** The body of the inner loop of [linkHalfEdgesAroundVertices].  The index
    [(i - 1 + degree) % degree] is computed on natural numbers as
    [(i + degree - 1) mod degree]. *)
Definition linkStep (outgoing : list GraphHalfEdge) (degree : nat) (g : Graph)
  (i : nat) : Graph :=
  match nth_error outgoing i,
        nth_error outgoing ((i + degree - 1) mod degree) with
  | Some current, Some prev => set_next g (twin current) prev
  | _, _ => g
  end.

Definition linkVertex (g : Graph) (v : VertexRef) : Graph :=
  let outgoing := outgoing_of g v in
  let degree := length outgoing in
  if (degree <? 2)%nat then g
  else fold_left (linkStep outgoing degree) (seq 0 degree) g.

Definition linkHalfEdgesAroundVertices (g : Graph) : Graph :=
  fold_left linkVertex (vertices g) g.

(** The loop of [computeFaceArea]; a half-edge without [next] makes it
    return 0 at once. *)
Fixpoint computeFaceArea_loop (g : Graph) (hs : list GraphHalfEdge)
  (area : float) : float :=
  match hs with
  | [] => area / 2
  | h :: rest =>
      match next g h with
      | None => 0
      | Some n =>
          computeFaceArea_loop g rest
            (area + vec2_cross (pos g (origin h)) (pos g (origin n)))
      end
  end.

Definition computeFaceArea (g : Graph) (hs : list GraphHalfEdge) : float :=
  computeFaceArea_loop g hs 0.

(** The [while (current)] loop of [buildFaces], started at [halfEdge]:
    the half-edges collected and [isClosed].  [fuel] bounds the number of
    rounds and [None] is its exhaustion. *)
Fixpoint traverse (fuel : nat) (g : Graph) (halfEdge : GraphHalfEdge)
  (current : option GraphHalfEdge) (halfEdgesInFace : list GraphHalfEdge)
  : option (list GraphHalfEdge * bool) :=
  match current with
  | None => Some (halfEdgesInFace, false)
  | Some c =>
      match fuel with
      | O => None
      | S fuel' =>
          if includes GraphHalfEdge_eq_dec halfEdgesInFace c
          then Some (halfEdgesInFace, same_halfEdge c halfEdge)
          else
            match face g c with
            | Some _ => Some (halfEdgesInFace, false)
            | None =>
                let halfEdgesInFace := halfEdgesInFace ++ [c] in
                match next g c with
                | Some n =>
                    if same_halfEdge n halfEdge
                    then Some (halfEdgesInFace, true)
                    else traverse fuel' g halfEdge (Some n) halfEdgesInFace
                | None => Some (halfEdgesInFace, false)
                end
            end
      end
  end.

Definition stamp (g : Graph) (hs : list GraphHalfEdge) (f : FaceRef) : Graph :=
  mkGraph (vertices g) (edges g) (faces g) (halfEdges g) (pos g)
          (vertexEdges g) (next g)
          (fold_left (fun m h => update_halfEdge m h (Some f)) hs (face g)).

(** The body of the [for] loop of [buildFaces]: the state is the graph (its
    [face] fields), the local array [faces] and the number of the next call
    of [Math.random]. *)
Definition buildFace (H : Host) (state : Graph * list GraphFace * nat)
  (halfEdge : GraphHalfEdge) : Graph * list GraphFace * nat :=
  let '(g, faces, k) := state in
  match face g halfEdge with
  | Some _ => state
  | None =>
      match traverse (S (length (halfEdges g))) g halfEdge (Some halfEdge) [] with
      | Some (halfEdgesInFace, true) =>
          let area := computeFaceArea g halfEdgesInFace in
          if area <=? 0 then state
          else
            let (c, k') := generateFaceColor H k in
            (stamp g halfEdgesInFace (length faces),
             faces ++ [new_GraphFace halfEdgesInFace c], k')
      | _ => state
      end
  end.

Definition buildFaces (H : Host) (k : nat) (g : Graph) : Graph * nat :=
  let g1 := linkHalfEdgesAroundVertices g in
  let '(g2, faces, k') := fold_left (buildFace H) (halfEdges g1) (g1, [], k) in
  (mkGraph (vertices g2) (edges g2) faces (halfEdges g2) (pos g2)
           (vertexEdges g2) (next g2) (face g2), k').

(* ----------------------------------------------------------------- *)
(** *** Graph: construction and serialization *)

Definition Graph_fromSerialized (H : Host) (data : GraphSerialized) : Graph :=
  fst (buildFaces H 0 (loadFromSerialized H data Graph_empty)).

Definition Graph_randomizedWithVertexCount (H : Host) (vertexCount : nat)
  : option Graph :=
  match generateRandomGraph H vertexCount Graph_empty with
  | Some (g, k) => Some (fst (buildFaces H k g))
  | None => None
  end.

(** [vertexIndices.get(v)] after the [forEach] that fills the map: the last
    position of [v] in the vertex array. *)
Fixpoint vertexIndices_get (vs : list VertexRef) (i : nat) (v : VertexRef)
  : option nat :=
  match vs with
  | [] => None
  | u :: rest =>
      match vertexIndices_get rest (S i) v with
      | Some j => Some j
      | None => if Nat.eq_dec u v then Some i else None
      end
  end.

Definition serialize (g : Graph) : GraphSerialized :=
  mkGraphSerialized
    (map (fun v => (x (pos g v), y (pos g v))) (vertices g))
    (flat_map
       (fun e =>
          match vertexIndices_get (vertices g) 0 (vertex0 e),
                vertexIndices_get (vertices g) 0 (vertex1 e) with
          | Some index0, Some index1 =>
              [(float_of_nat index0, float_of_nat index1)]
          | _, _ => []
          end)
       (edges g)).

(* ================================================================= *)
(** ** A reference host

    ECMAScript fixes [Math.atan2] and [Math.hypot] on zeros, infinities and
    NaN and leaves them implementation-approximated elsewhere.  The host
    below follows the fixed cases and approximates the others (argument
    halving and the arctangent series; a scaled square root); it is what the
    concrete runs of this development execute on.  The theorems that are not
    runs hold for every host. *)

Definition atan_series (t : float) : float :=
  let t2 := t * t in
  t * (1 - t2 * (1 / 3 - t2 * (1 / 5 - t2 * (1 / 7 - t2 * (1 / 9 - t2 *
      (1 / 11 - t2 * (1 / 13 - t2 * (1 / 15 - t2 * (1 / 17 - t2 *
      (1 / 19 - t2 / 21)))))))))).

Definition atan_halve (t : float) : float := t / (1 + sqrt (1 + t * t)).

(** arctangent of [t] for [0 <= t]. *)
Definition atan_nonneg (t : float) : float :=
  if t <=? 1 then 4 * atan_series (atan_halve (atan_halve t))
  else Math_PI / 2 - 4 * atan_series (atan_halve (atan_halve (1 / t))).

Definition with_sign_of (s v : float) : float := if get_sign s then - v else v.

Definition ref_atan2 (py px : float) : float :=
  if (is_nan py || is_nan px)%bool then nan
  else if is_zero py then
    if get_sign px then with_sign_of py Math_PI else py
  else if is_zero px then with_sign_of py (Math_PI / 2)
  else if is_infinity py then
    if is_infinity px then
      with_sign_of py (if get_sign px then 3 * Math_PI / 4 else Math_PI / 4)
    else with_sign_of py (Math_PI / 2)
  else if is_infinity px then
    with_sign_of py (if get_sign px then Math_PI else 0)
  else
    let a := atan_nonneg (abs py / abs px) in
    with_sign_of py (if get_sign px then Math_PI - a else a).

Definition ref_hypot (px py : float) : float :=
  if (is_infinity px || is_infinity py)%bool then infinity
  else if (is_nan px || is_nan py)%bool then nan
  else
    let m := Math_max (abs px) (abs py) in
    if is_zero m then 0
    else m * sqrt ((px / m) * (px / m) + (py / m) * (py / m)).

(** The host whose [Math.random] returns the numbers of [outcomes] in turn
    (and 0 afterwards). *)
Definition ref_host (outcomes : list float) : Host :=
  mkHost ref_atan2 ref_hypot (fun k => nth k outcomes 0).

(* ================================================================= *)
(** ** Concrete data used by the runs below *)

(** The unit square as a test builds it: four vertex objects, four edge
    objects, and a face holding one half-edge of each edge. *)
Definition square_pos (v : VertexRef) : vec2 :=
  match v with
  | 0%nat => new_vec2 0 0
  | 1%nat => new_vec2 1 0
  | 2%nat => new_vec2 1 1
  | _ => new_vec2 0 1
  end.

Definition square_edges : list GraphEdge :=
  [new_GraphEdge 0 0 1; new_GraphEdge 1 1 2; new_GraphEdge 2 2 3;
   new_GraphEdge 3 3 0]%nat.

Definition square_graph : Graph :=
  mkGraph [0; 1; 2; 3]%nat square_edges []
          (flat_map (fun e => [halfEdgeFromVertex0 e; halfEdgeFromVertex1 e])
                    square_edges)
          square_pos (fun _ => []) (fun _ => None) (fun _ => None).

Definition square_face : GraphFace :=
  new_GraphFace (map halfEdgeFromVertex0 square_edges) (mkColor 0 75 48).

(** A vertex lies on a point; a half-edge lies on the segment between two
    points when its edge joins them, in either direction. *)
Definition lies_on (g : Graph) (h : GraphHalfEdge) (p q : vec2) : Prop :=
  (pos g (vertex0 (edge h)) = p /\ pos g (vertex1 (edge h)) = q) \/
  (pos g (vertex0 (edge h)) = q /\ pos g (vertex1 (edge h)) = p).

(** Serialized inputs. *)
Definition one_vertex_bad_edge : GraphSerialized :=
  mkGraphSerialized [(0, 0)] [(0, 5)].

Definition two_vertices : GraphSerialized :=
  mkGraphSerialized [(0, 0); (1, 3)] [].

Definition grid_2x2 : GraphSerialized :=
  mkGraphSerialized
    [(0, 0); (1, 0); (2, 0); (0, 1); (1, 1); (2, 1); (0, 2); (1, 2); (2, 2)]
    [(0, 1); (1, 2); (3, 4); (4, 5); (6, 7); (7, 8);
     (0, 3); (3, 6); (1, 4); (4, 7); (2, 5); (5, 8)].

Definition huge_triangle : GraphSerialized :=
  mkGraphSerialized [(1.7e308, 0); (1.6e308, 0); (1.65e308, 1)]
                    [(0, 1); (1, 2); (2, 0)].

(** Hosts with fixed outcomes of [Math.random]: three vertices on one
    horizontal line, and three vertices at the corners of a right
    triangle. *)
Definition host_collinear : Host := ref_host [0; 0; 0.25; 0; 0.5; 0; 0; 0].
Definition host_triangle : Host := ref_host [0; 0; 0.5; 0; 0; 0.5; 0; 0].

(** The exact value of a finite number, as a fraction, for stating what
    holds of the points themselves rather than of rounded results. *)
Definition exact_value (v : float) : option (Z * Z) :=
  match Prim2SF v with
  | S754_zero _ => Some (0, 1)%Z
  | S754_finite s m e =>
      let n := if s then Z.neg m else Z.pos m in
      if (0 <=? e)%Z then Some (n * 2 ^ e, 1)%Z else Some (n, 2 ^ (- e))%Z
  | _ => None
  end.

(** Exact cross product of [q - p] and [r - p] is zero: the three points are
    on one line.  Fractions are compared by cross-multiplication. *)
Definition frac_sub (a b : Z * Z) : Z * Z :=
  (fst a * snd b - fst b * snd a, snd a * snd b)%Z.
Definition frac_mul (a b : Z * Z) : Z * Z := (fst a * fst b, snd a * snd b)%Z.
Definition frac_eqb (a b : Z * Z) : bool := (fst a * snd b =? fst b * snd a)%Z.
Definition frac_ltb (a b : Z * Z) : bool := (fst a * snd b <? fst b * snd a)%Z.

Definition collinear_exact (p q r : vec2) : bool :=
  match exact_value (x p), exact_value (y p), exact_value (x q), exact_value (y q),
        exact_value (x r), exact_value (y r) with
  | Some px, Some py, Some qx, Some qy, Some rx, Some ry =>
      frac_eqb (frac_mul (frac_sub qx px) (frac_sub ry py))
               (frac_mul (frac_sub qy py) (frac_sub rx px))
  | _, _, _, _, _, _ => false
  end.

(** [p] lies strictly between [q] and [r] on the horizontal axis. *)
Definition between_x_exact (p q r : vec2) : bool :=
  match exact_value (x p), exact_value (x q), exact_value (x r) with
  | Some px, Some qx, Some rx => frac_ltb qx px && frac_ltb px rx
  | _, _, _ => false
  end.

(** Two segments on one line that share more than a point. *)
Definition seg_a0 : vec2 := new_vec2 (-1) (-3).
Definition seg_a1 : vec2 := new_vec2 0x1p-53 0x1.8p-52.
Definition seg_b0 : vec2 := new_vec2 (-2) (-6).
Definition seg_b1 : vec2 := new_vec2 0 0.

(* ================================================================= *)
(** ** Notions the statements use *)

(** The ray cast from [point] along +x meets the edge of the half-edge
    [h]. *)
Definition hits (g : Graph) (point : vec2) (h : GraphHalfEdge) : bool :=
  match rayLineSegmentIntersect point (new_vec2 1 0)
          (pos g (vertex0 (edge h))) (pos g (vertex1 (edge h))) with
  | Some _ => true
  | None => false
  end.


(** [g'] has the arrays [vertices], [edges], [halfEdges] and the vertex
    positions of [g]. *)
Definition same_frame (g g' : Graph) : Prop :=
  vertices g' = vertices g /\ edges g' = edges g /\
  halfEdges g' = halfEdges g /\ pos g' = pos g.

(** The number [i] names one of the [n] vertices of a serialized graph. *)
Definition names_vertex (n : nat) (i : float) : bool :=
  match to_index i with
  | Some z => (z <? Z.of_nat n)%Z
  | None => false
  end.

Definition entry_valid (n : nat) (entry : float * float) : bool :=
  names_vertex n (fst entry) && names_vertex n (snd entry).

(** The edge objects [loadFromSerialized] creates from the entries, over the
    vertex array [vs]. *)
Fixpoint loaded (vs : list VertexRef) (id : nat) (entries : list (float * float))
  : list GraphEdge :=
  match entries with
  | [] => []
  | (index0, index1) :: rest =>
      match js_get vs index0, js_get vs index1 with
      | Some v0, Some v1 => new_GraphEdge id v0 v1 :: loaded vs (S id) rest
      | _, _ => loaded vs id rest
      end
  end.

(** The coordinates [Graph.fromSerialized] gives to the vertices of a
    serialized graph: those of the graph that holds just these vertices,
    after [normalizeVerticesToGraphSpace]. *)
Definition normalized (positions : list (float * float)) : list (float * float) :=
  let g := normalizeVerticesToGraphSpace (pushVertices positions Graph_empty) in
  map (fun v => (x (pos g v), y (pos g v))) (vertices g).

(** The index pairs [serialize] writes for a list of edges over [n]
    vertices named [0 .. n-1]. *)
Definition index_pairs (es : list GraphEdge) : list (float * float) :=
  map (fun e => (float_of_nat (vertex0 e), float_of_nat (vertex1 e))) es.

(** What the round trip needs of a graph: its vertex array holds each vertex
    once, is not longer than 2^53, and every edge joins two of its
    vertices. *)
Definition serializable (g : Graph) : Prop :=
  NoDup (vertices g) /\
  (Z.of_nat (length (vertices g)) <= 2 ^ 53)%Z /\
  (forall e, In e (edges g) ->
             In (vertex0 e) (vertices g) /\ In (vertex1 e) (vertices g)).

(** [export(import(s))] *)
Definition reimport (H : Host) (s : GraphSerialized) : GraphSerialized :=
  serialize (Graph_fromSerialized H s).


(** Equality test on serialized graphs (numbers compared as [===] does, but
    with NaN equal to itself and the two zeros apart). *)
Definition pair_eqb (p q : float * float) : bool :=
  PrimFloat.Leibniz.eqb (fst p) (fst q) && PrimFloat.Leibniz.eqb (snd p) (snd q).

Fixpoint pairs_eqb (l l' : list (float * float)) : bool :=
  match l, l' with
  | [], [] => true
  | p :: r, q :: r' => pair_eqb p q && pairs_eqb r r'
  | _, _ => false
  end.

Definition GraphSerialized_eqb (s s' : GraphSerialized) : bool :=
  pairs_eqb (data_vertices s) (data_vertices s') &&
  pairs_eqb (data_edges s) (data_edges s').


(** The half-edges of a list of edges, in the order [registerEdge] pushes
    them. *)
Definition halfEdges_of_edges (es : list GraphEdge) : list GraphHalfEdge :=
  flat_map (fun e => [halfEdgeFromVertex0 e; halfEdgeFromVertex1 e]) es.

(** The invariant of a graph under construction: no vertex and no edge is
    twice in its array, the half-edge array holds the two half-edges of each
    edge, the edge array of a vertex holds the edges of the graph that end
    at it, and every edge joins vertices of the graph. *)
Record wellFormed (g : Graph) : Prop := mk_wellFormed {
  wf_vertices : NoDup (vertices g);
  wf_edges : NoDup (edges g);
  wf_halfEdges : halfEdges g = halfEdges_of_edges (edges g);
  wf_vertexEdges :
    forall v e, In e (vertexEdges g v) <->
                In e (edges g) /\ (vertex0 e = v \/ vertex1 e = v);
  wf_endpoints :
    forall e, In e (edges g) ->
              In (vertex0 e) (vertices g) /\ In (vertex1 e) (vertices g)
}.

(** Before [buildFaces]: no half-edge has a [next] or a [face]. *)
Definition unlinked (g : Graph) : Prop :=
  (forall h, next g h = None) /\ (forall h, face g h = None).

(** The graphs the two constructors of the class return. *)
Inductive built (H : Host) : Graph -> Prop :=
| built_fromSerialized (data : GraphSerialized) :
    built H (Graph_fromSerialized H data)
| built_randomized (vertexCount : nat) (G : Graph) :
    Graph_randomizedWithVertexCount H vertexCount = Some G -> built H G.

(** The half-edge [h] is on the boundary of the face [f]. *)
Definition on_boundary (g : Graph) (f : FaceRef) (h : GraphHalfEdge) : Prop :=
  In h (halfEdges_of g f).

(** [x] neighbors [y] through a twin: a half-edge of [y] has a twin whose
    face is [x], another face than [y]. *)
Definition neighbor_via_twin (g : Graph) (y x : FaceRef) : Prop :=
  exists h, In h (halfEdges_of g y) /\ face g h = Some y /\
            face g (twin h) = Some x /\ x <> y.


(** The state of the loop of [buildFaces]: a half-edge has the face [f]
    exactly when it is in the list of the [f]-th face made so far; each of
    these lists has no repetition and holds half-edges of the graph. *)
Definition faces_agree (g : Graph) (fs : list GraphFace) : Prop :=
  (forall h f, face g h = Some f <->
               exists F, nth_error fs f = Some F /\ In h (face_halfEdges F)) /\
  (forall f F, nth_error fs f = Some F ->
               NoDup (face_halfEdges F) /\
               forall h, In h (face_halfEdges F) -> In h (halfEdges g)).

(** The half-edges with no face. *)
Definition unassigned (g : Graph) : list GraphHalfEdge :=
  filter (fun h => match face g h with Some _ => false | None => true end)
         (halfEdges g).


(** The layers [shellLayers] is to return for the face [this]: the first
    layer is [[this]]; no face is in two layers or twice in one; no layer is
    empty; a layer after another holds exactly the neighbors of the faces of
    that one that are in no layer up to it; and every neighbor of a face of
    the last layer is in some layer (the next frontier would be empty). *)
Definition layered (g : Graph) (this : FaceRef) (layers : list (list FaceRef))
  : Prop :=
  nth_error layers 0 = Some [this] /\
  NoDup (concat layers) /\
  Forall (fun layer => layer <> []) layers /\
  (forall k layer layer',
      nth_error layers k = Some layer ->
      nth_error layers (S k) = Some layer' ->
      forall x, In x layer' <->
                (exists y, In y layer /\ neighbor_via_twin g y x) /\
                ~ In x (concat (firstn (S k) layers))) /\
  (forall layer,
      nth_error layers (length layers - 1) = Some layer ->
      forall x y, In y layer -> neighbor_via_twin g y x ->
                  In x (concat layers)).

(** The state of the loop of [shellLayers] before a round. *)
Definition bfs_state (g : Graph) (this : FaceRef)
  (layers : list (list FaceRef)) (frontier : list FaceRef) : Prop :=
  NoDup (concat layers ++ frontier) /\
  Forall (fun x => x < length (faces g))%nat (concat layers ++ frontier) /\
  Forall (fun layer => layer <> []) layers /\
  (forall k layer layer',
      nth_error layers k = Some layer ->
      nth_error layers (S k) = Some layer' ->
      forall x, In x layer' <->
                (exists y, In y layer /\ neighbor_via_twin g y x) /\
                ~ In x (concat (firstn (S k) layers))) /\
  match layers with
  | [] => frontier = [this]
  | _ :: _ =>
      nth_error layers 0 = Some [this] /\
      forall layer,
        nth_error layers (length layers - 1) = Some layer ->
        forall x, In x frontier <->
                  (exists y, In y layer /\ neighbor_via_twin g y x) /\
                  ~ In x (concat layers)
  end.


(** The test [createEdges] applies to a candidate [later] against an edge
    [earlier] admitted before it. *)
Definition clear_of (g : Graph) (earlier later : GraphEdge) : Prop :=
  sharesVertexWithEdge earlier later = false ->
  lineSegmentIntersect (pos g (vertex0 later)) (pos g (vertex1 later))
                       (pos g (vertex0 earlier)) (pos g (vertex1 earlier))
  = false.

(** No edge of the array crosses an edge before it. *)
Definition crossing_free (g : Graph) : Prop :=
  ForallOrdPairs (clear_of g) (edges g).

(** The invariant of randomized generation: the graph is well formed, no
    edge is a loop, no vertex holds an edge twice, and no two edges cross. *)
Record generated (g : Graph) : Prop := mk_generated {
  gen_wellFormed : wellFormed g;
  gen_unlinked : unlinked g;
  gen_no_loop : forall e, In e (edges g) -> vertex0 e <> vertex1 e;
  gen_vertexEdges : forall v, NoDup (vertexEdges g v);
  gen_crossing_free : crossing_free g
}.


(** The state of a pruning pass over the graph [g]: the invariant of
    generation holds, vertices and positions of [g] are kept, and the flag
    says whether an edge was removed. *)
Definition pruned (g : Graph) (state : Graph * bool) : Prop :=
  generated (fst state) /\ vertices (fst state) = vertices g /\
  pos (fst state) = pos g /\
  if snd state then (length (edges (fst state)) < length (edges g))%nat
  else fst state = g.

(** Modelled from the spec: two segments properly intersect.  In exact
    arithmetic, the ends of each segment lie strictly on opposite sides of
    the line through the other, so the segments meet in one point, which
    is inside both.  [left_of_exact p q r] says that the exact cross
    product of [q - p] and [r - p] is positive, [right_of_exact p q r]
    that it is negative. *)
Definition left_of_exact (p q r : vec2) : bool :=
  match exact_value (x p), exact_value (y p), exact_value (x q), exact_value (y q),
        exact_value (x r), exact_value (y r) with
  | Some px, Some py, Some qx, Some qy, Some rx, Some ry =>
      frac_ltb (frac_mul (frac_sub qy py) (frac_sub rx px))
               (frac_mul (frac_sub qx px) (frac_sub ry py))
  | _, _, _, _, _, _ => false
  end.

Definition right_of_exact (p q r : vec2) : bool :=
  match exact_value (x p), exact_value (y p), exact_value (x q), exact_value (y q),
        exact_value (x r), exact_value (y r) with
  | Some px, Some py, Some qx, Some qy, Some rx, Some ry =>
      frac_ltb (frac_mul (frac_sub qx px) (frac_sub ry py))
               (frac_mul (frac_sub qy py) (frac_sub rx px))
  | _, _, _, _, _, _ => false
  end.

Definition separates_exact (p q r r' : vec2) : bool :=
  (left_of_exact p q r && right_of_exact p q r') ||
  (right_of_exact p q r && left_of_exact p q r').

Definition properly_intersect_exact (a0 a1 b0 b1 : vec2) : bool :=
  separates_exact a0 a1 b0 b1 && separates_exact b0 b1 a0 a1.

(** Five vertices, for [Math.random] giving 0.5, 0.502, 0.18, 0.31, 0.93,
    0.76, 0.84, 0.57, 0.33, 0.27 and then 0: vertex 0 at
    (0, 0.0036000000000000476), a hair above the segment from vertex 1 at
    (-0.576, -0.342) to vertex 2 at (0.774, 0.468), and vertices 3 at
    (0.612, 0.126) and 4 at (-0.306, -0.414) below that segment. *)
Definition cross_outcomes : list float :=
  [0.5; 0.502; 0.18; 0.31; 0.93; 0.76; 0.84; 0.57; 0.33; 0.27].

Definition host_cross : Host := ref_host cross_outcomes.

(** Four vertices at the corners of a square, for [Math.random] giving
    0, 0, 0.5, 0, 0.5, 0.5, 0, 0.5 and then 0. *)
Definition host_square : Host := ref_host [0; 0; 0.5; 0; 0.5; 0.5; 0; 0.5].

(** The areas of the faces made so far, measured on the graph [g0] the loop
    of [buildFaces] started from. *)
Definition areas_pass (g0 : Graph) (st : Graph * list GraphFace * nat) : Prop :=
  next (fst (fst st)) = next g0 /\ pos (fst (fst st)) = pos g0 /\
  forall F, In F (snd (fst st)) ->
            (computeFaceArea g0 (face_halfEdges F) <=? 0) = false.

(** A number up to the sign of a zero; two numbers have the same value when
    they differ at most in that sign. *)
Definition unsigned_zero (v : spec_float) : spec_float :=
  match v with S754_zero _ => S754_zero false | _ => v end.

Definition same_value (a b : spec_float) : Prop :=
  unsigned_zero a = unsigned_zero b.

(** A parametric coordinate is finite and in the closed interval [0, 1]. *)
Definition inside_unit (t : float) : bool :=
  is_finite t && negb (t <? 0) && negb (1 <? t).

(** The gap [removeSmallAngles] measures at the vertex [v] from [edgeA] to
    [edgeB]. *)
Definition angleDelta_of (H : Host) (g : Graph) (v : VertexRef)
  (edgeA edgeB : GraphEdge) : float :=
  let angleDelta := edgeAngle H g v edgeB - edgeAngle H g v edgeA in
  if angleDelta <=? 0 then angleDelta + 2 * Math_PI else angleDelta.

(** The pair of the [i]-th edge of a vertex and the one after it, around
    the array, measures at least [threshold] unless the two are one edge. *)
Definition gap_checked (H : Host) (threshold : float) (g : Graph)
  (v : VertexRef) (i : nat) : Prop :=
  forall edgeA edgeB,
    nth_error (vertexEdges g v) i = Some edgeA ->
    nth_error (vertexEdges g v) ((i + 1) mod length (vertexEdges g v))
    = Some edgeB ->
    edgeA <> edgeB ->
    (threshold <=? angleDelta_of H g v edgeA edgeB) = true.


(** The ends of the edge of [h] are at different heights. *)
Definition slanted (g : Graph) (h : GraphHalfEdge) : bool :=
  negb (PrimFloat.Leibniz.eqb (y (pos g (vertex0 (edge h))))
                              (y (pos g (vertex1 (edge h))))).

(** The test on a half-edge reads its edge only. *)
Definition hits_edge (g : Graph) (point : vec2) (e : GraphEdge) : bool :=
  hits g point (halfEdgeFromVertex0 e).


(** The values [JSON.parse] returns, which is what [parseGraphData] is
    given.  An object is the list of its properties, each key once. *)
Inductive JSValue : Type :=
| JSnull
| JSboolean (b : bool)
| JSnumber (n : float)
| JSstring (s : String.string)
| JSarray (items : list JSValue)
| JSobject (fields : list (String.string * JSValue)).

(** [! data] *)
Definition falsy (data : JSValue) : bool :=
  match data with
  | JSnull => true
  | JSboolean b => negb b
  | JSnumber n => is_zero n || is_nan n
  | JSstring s => (String.length s =? 0)%nat
  | JSarray _ | JSobject _ => false
  end.

(** [typeof data === "object"] *)
Definition typeof_object (data : JSValue) : bool :=
  match data with
  | JSnull | JSarray _ | JSobject _ => true
  | JSboolean _ | JSnumber _ | JSstring _ => false
  end.

Fixpoint own_property (fields : list (String.string * JSValue))
  (key : String.string) : option JSValue :=
  match fields with
  | [] => None
  | (k, v) :: rest =>
      if String.eqb k key then Some v else own_property rest key
  end.

(** [record.key] for a key that is neither an index nor [length]:
    [undefined] is [None]. *)
Definition get_property (data : JSValue) (key : String.string)
  : option JSValue :=
  match data with
  | JSobject fields => own_property fields key
  | _ => None
  end.

(** The errors [parseGraphData] throws:
    "JSON must be an object",
    "JSON must include vertices and edges arrays",
    "Vertex at index i must be [x, y]",
    "Vertex at index i must contain numbers",
    "Edge at index i must be [i, j]",
    "Edge at index i must contain numbers". *)
Inductive ParseError : Type :=
| MustBeObject
| MustIncludeArrays
| VertexMustBePair (index : nat)
| VertexMustContainNumbers (index : nat)
| EdgeMustBePair (index : nat)
| EdgeMustContainNumbers (index : nat).

(** The body of the two [map] callbacks: [shape] and [numbers] are the two
    errors it throws. *)
Definition parse_item (shape numbers : nat -> ParseError) (item : JSValue)
  (index : nat) : ParseError + (float * float) :=
  match item with
  | JSarray [a; b] =>
      match a, b with
      | JSnumber x, JSnumber y => inr (x, y)
      | _, _ => inl (numbers index)
      end
  | _ => inl (shape index)
  end.

(** [raw.map((item, index) => ...)]: the first callback that throws ends
    it. *)
Fixpoint parse_items (shape numbers : nat -> ParseError)
  (raw : list JSValue) (index : nat) : ParseError + list (float * float) :=
  match raw with
  | [] => inr []
  | item :: rest =>
      match parse_item shape numbers item index with
      | inl e => inl e
      | inr p =>
          match parse_items shape numbers rest (S index) with
          | inl e => inl e
          | inr l => inr (p :: l)
          end
      end
  end.

Definition parseGraphData (data : JSValue) : ParseError + GraphSerialized :=
  if (falsy data || negb (typeof_object data))%bool then inl MustBeObject
  else
    match get_property data "vertices"%string, get_property data "edges"%string with
    | Some (JSarray verticesRaw), Some (JSarray edgesRaw) =>
        match parse_items VertexMustBePair VertexMustContainNumbers
                          verticesRaw 0 with
        | inl e => inl e
        | inr vertices =>
            match parse_items EdgeMustBePair EdgeMustContainNumbers
                              edgesRaw 0 with
            | inl e => inl e
            | inr edges => inr (mkGraphSerialized vertices edges)
            end
        end
    | _, _ => inl MustIncludeArrays
    end.

(** The array [[a, b]] of two numbers. *)
Definition pair_value (p : float * float) : JSValue :=
  JSarray [JSnumber (fst p); JSnumber (snd p)].

Definition is_pair_array (item : JSValue) : bool :=
  match item with JSarray [_; _] => true | _ => false end.

Definition sample_data : JSValue :=
  JSobject [("name", JSstring "triangle");
            ("vertices", JSarray [JSarray [JSnumber 0; JSnumber 0];
                                  JSarray [JSnumber 1; JSnumber 0];
                                  JSarray [JSnumber 0; JSnumber 1]]);
            ("edges", JSarray [JSarray [JSnumber 0; JSnumber 1];
                               JSarray [JSnumber 1; JSnumber 2];
                               JSarray [JSnumber 2; JSnumber 7.5]])]%string.

Definition sample_bad_data : JSValue :=
  JSobject [("vertices", JSarray [JSarray [JSnumber 0; JSnumber 0];
                                  JSarray [JSnumber 1; JSnull];
                                  JSnumber 3]);
            ("edges", JSarray [JSstring "x"])]%string.


(** The faces joined to [this] by a chain of neighbors. *)
Inductive connected (g : Graph) (this : FaceRef) : FaceRef -> Prop :=
| connected_here : connected g this this
| connected_step (y x : FaceRef) :
    connected g this y -> neighbor_via_twin g y x -> connected g this x.

(** Each half-edge of the list is followed by its [next]. *)
Fixpoint chain (g : Graph) (hs : list GraphHalfEdge) : Prop :=
  match hs with
  | [] => True
  | a :: rest =>
      match rest with
      | [] => True
      | b :: _ => next g a = Some b
      end /\ chain g rest
  end.

(** The list is a walk along [next] that returns to its first
    half-edge. *)
Definition closed_walk (g : Graph) (hs : list GraphHalfEdge) : Prop :=
  match hs with
  | [] => False
  | first :: _ => chain g hs /\ next g (last hs first) = Some first
  end.

(** The state of the walk of [buildFaces] started at [start]. *)
Definition walk_state (g : Graph) (start : GraphHalfEdge)
  (acc : list GraphHalfEdge) (cur : option GraphHalfEdge) : Prop :=
  chain g acc /\
  match acc with
  | [] => cur = Some start
  | first :: _ => first = start /\ next g (last acc start) = cur
  end.

(** The faces made so far are closed walks of the graph [g0] the loop of
    [buildFaces] started from. *)
Definition walks_pass (g0 : Graph) (st : Graph * list GraphFace * nat) : Prop :=
  next (fst (fst st)) = next g0 /\
  forall F, In F (snd (fst st)) -> closed_walk g0 (face_halfEdges F).


(** The two vertices of an edge, whichever is first. *)
Definition ends_key (u v : VertexRef) : nat * nat := (Nat.min u v, Nat.max u v).

Definition edge_key (e : GraphEdge) : nat * nat :=
  ends_key (vertex0 e) (vertex1 e).

(** An edge of the graph goes from [u] to [v]. *)
Definition joined (g : Graph) (u v : VertexRef) : Prop :=
  exists e, In e (edges g) /\ vertex0 e = u /\ vertex1 e = v.

(** An edge of the graph that shares no vertex with the candidate from [u]
    to [v] tests positive against it. *)
Definition blocked (g : Graph) (u v : VertexRef) : Prop :=
  exists e, In e (edges g) /\
            sharesVertexWithEdge e (new_GraphEdge 0 u v) = false /\
            lineSegmentIntersect (pos g u) (pos g v)
                                 (pos g (vertex0 e)) (pos g (vertex1 e))
            = true.


(** The comparator never asks for an element to come after the one that
    follows it. *)
Fixpoint ordered {A : Type} (comparator : A -> A -> float) (array : list A)
  : Prop :=
  match array with
  | [] => True
  | a :: rest =>
      match rest with
      | [] => True
      | b :: _ => (0 <? comparator a b) = false
      end /\ ordered comparator rest
  end.


(* ----------------------------------------------------------------- *)
(** *** GraphRenderer *)

(** A [GraphRenderer] object: [hoveredFace] is [null] or a face of the
    graph. *)
Record GraphRenderer := mkGraphRenderer {
  renderer_graph : Graph;
  hoveredFace : option FaceRef
}.

Definition new_GraphRenderer (graph : Graph) : GraphRenderer :=
  mkGraphRenderer graph None.

Definition setGraph (this : GraphRenderer) (graph : Graph) : GraphRenderer :=
  mkGraphRenderer graph None.

Definition unproject (screenX screenY width height : float) : vec2 :=
  let normalizedX := screenX / width in
  let normalizedY := 1 - screenY / height in
  let graphX := normalizedX * Graph_width - Graph_width / 2 in
  let graphY := normalizedY * Graph_height - Graph_height / 2 in
  new_vec2 graphX graphY.

(** The [for] loop of [setHoveredFaceFromScreenPoint]: the first face of
    the array that holds the point; [index] is the position of the head of
    [faces] in the face array. *)
Fixpoint firstFaceInside (g : Graph) (point : vec2) (faces : list GraphFace)
  (index : nat) : option FaceRef :=
  match faces with
  | [] => None
  | face :: rest =>
      if pointIsInside g face point then Some index
      else firstFaceInside g point rest (S index)
  end.

(** [hovered === this.hoveredFace] *)
Definition same_face (a b : option FaceRef) : bool :=
  match a, b with
  | None, None => true
  | Some f, Some f' => (f =? f')%nat
  | _, _ => false
  end.

Definition setHoveredFaceFromScreenPoint (this : GraphRenderer)
  (screenX screenY width height : float) : GraphRenderer * bool :=
  if ((width <=? 0) || (height <=? 0))%bool then (this, false)
  else
    let point := unproject screenX screenY width height in
    let hovered :=
      firstFaceInside (renderer_graph this) point
                      (faces (renderer_graph this)) 0 in
    if same_face hovered (hoveredFace this) then (this, false)
    else (mkGraphRenderer (renderer_graph this) hovered, true).

Definition clearHoveredFace (this : GraphRenderer) : GraphRenderer * bool :=
  match hoveredFace this with
  | None => (this, false)
  | Some _ => (mkGraphRenderer (renderer_graph this) None, true)
  end.

(** [project]: the inner function [normalizeAxis] first. *)
Definition normalizeAxis (value span : float) : float :=
  let halfSpan := span / 2 in
  let normalized := (value + halfSpan) / span in
  Math_max 0 (Math_min 1 normalized).

Definition project (position : vec2) (width height : float) : vec2 :=
  let normalizedX := normalizeAxis (x position) Graph_width in
  let normalizedY := normalizeAxis (y position) Graph_height in
  new_vec2 (normalizedX * width) ((1 - normalizedY) * height).

(** What the renderer asks of the canvas context, in the order of the
    calls and assignments. *)
Inductive FillColor : Type :=
| FaceColor (color : Color)
| StyleColor (color : String.string).

Inductive CanvasCommand : Type :=
| beginPath
| moveTo (px py : float)
| lineTo (px py : float)
| closePath
| set_fillStyle (color : FillColor)
| set_globalAlpha (alpha : float)
| fill.

(** The [while] loop of [fillFace]: [allowed] is the number of rounds the
    test [steps <= maxSteps] still lets through. *)
Fixpoint fillFace_loop (g : Graph) (width height : float)
  (start : GraphHalfEdge) (current : option GraphHalfEdge) (steps : nat)
  (allowed : nat) (ctx : list CanvasCommand) : list CanvasCommand * nat :=
  match current, allowed with
  | Some c, S allowed' =>
      let point := project (pos g (origin c)) width height in
      let ctx :=
        ctx ++ [if (steps =? 0)%nat then moveTo (x point) (y point)
                else lineTo (x point) (y point)] in
      let current := next g c in
      let steps := S steps in
      match current with
      | Some n =>
          if same_halfEdge n start then (ctx, steps)
          else fillFace_loop g width height start current steps allowed' ctx
      | None => (ctx, steps)
      end
  | _, _ => (ctx, steps)
  end.

Definition fillFace (g : Graph) (ctx : list CanvasCommand)
  (width height : float) (face : GraphFace)
  (style : option (String.string * float)) : list CanvasCommand :=
  let halfEdges := face_halfEdges face in
  if (length halfEdges <? 3)%nat then ctx
  else
    match halfEdges with
    | [] => ctx
    | start :: _ =>
        let maxSteps := (length halfEdges + 1)%nat in
        let ctx := ctx ++ [beginPath] in
        let (ctx, steps) :=
          fillFace_loop g width height start (Some start) 0 (S maxSteps) ctx in
        if (steps <? 3)%nat then ctx
        else
          let fillColor :=
            match style with
            | Some (color, _) => StyleColor color
            | None => FaceColor (color face)
            end in
          let fillAlpha :=
            match style with
            | Some (_, alpha) => alpha
            | None => 0.4
            end in
          ctx ++ [closePath; set_fillStyle fillColor;
                  set_globalAlpha fillAlpha; fill; set_globalAlpha 1]
    end.

(** The corner of a face that a half-edge starts at, on the canvas. *)
Definition corner (g : Graph) (width height : float) (h : GraphHalfEdge)
  : vec2 :=
  project (pos g (origin h)) width height.

(** The path of a polygon through the points. *)
Definition polygon_path (points : list vec2) : list CanvasCommand :=
  match points with
  | [] => []
  | p :: rest =>
      moveTo (x p) (y p) :: map (fun q => lineTo (x q) (y q)) rest
  end.


(** A chain of [n] neighbors leads from [this] to the face. *)
Inductive reached (g : Graph) (this : FaceRef) : nat -> FaceRef -> Prop :=
| reached_start : reached g this 0 this
| reached_next (n : nat) (y x : FaceRef) :
    reached g this n y -> neighbor_via_twin g y x -> reached g this (S n) x.

(** The shoelace sum over the corners of a polygon, taken in the order
    [computeFaceArea] adds them: each corner with the one after it, the
    last with the first. *)
Definition shoelace (corners : list vec2) : float :=
  fold_left (fun area pq => area + vec2_cross (fst pq) (snd pq))
            (combine corners (tl corners ++ firstn 1 corners)) 0
  / 2.


(** What [JSON.parse(JSON.stringify(n))] gives for a number: a finite
    number comes back (its decimal text is read back as the same number,
    and -0 is written as 0); NaN and the infinities are written as
    [null]. *)
Definition JSON_number (n : float) : JSValue :=
  if is_finite n then JSnumber (if is_zero n then 0 else n) else JSnull.

Definition JSON_pair (p : float * float) : JSValue :=
  JSarray [JSON_number (fst p); JSON_number (snd p)].

(** [JSON.parse(JSON.stringify(serialized))] for the object [serialize]
    returns, as the application passes it from its export to its import. *)
Definition JSON_of_serialized (s : GraphSerialized) : JSValue :=
  JSobject [("vertices"%string, JSarray (map JSON_pair (data_vertices s)));
            ("edges"%string, JSarray (map JSON_pair (data_edges s)))].

Definition finite_pair (p : float * float) : bool :=
  is_finite (fst p) && is_finite (snd p).

(** The pair with -0 read as 0. *)
Definition unsigned_pair (p : float * float) : float * float :=
  (if is_zero (fst p) then 0 else fst p, if is_zero (snd p) then 0 else snd p).

(* ================================================================= *)
(** * Verification *)

(* ================================================================= *)
(** ** Facts about binary64 numbers *)

(** Splitting of conjunctions only. *)
Ltac splits := repeat match goal with |- _ /\ _ => split end.

Section Binary64.

Lemma SFcompare_antisym (a b : spec_float) :
  SFcompare b a = option_map CompOpp (SFcompare a b).
Proof.
  destruct a as [sa|sa| |sa ma ea], b as [sb|sb| |sb mb eb]; simpl;
    try reflexivity; try (destruct sa; reflexivity);
    try (destruct sb; reflexivity); try (destruct sa, sb; reflexivity).
  destruct sa, sb; simpl; try reflexivity;
    rewrite (Z.compare_antisym eb ea); destruct (eb ?= ea)%Z; simpl;
    try reflexivity;
    rewrite (Pos.compare_cont_antisym ma mb Eq); simpl;
    destruct (Pos.compare_cont Eq ma mb); reflexivity.
Qed.

Lemma is_nan_Prim2SF (v : float) :
  is_nan v = match Prim2SF v with S754_nan => true | _ => false end.
Proof.
  unfold is_nan. rewrite FloatAxioms.eqb_spec. unfold SFeqb.
  destruct (Prim2SF v) as [s|s| |s m e]; simpl; try reflexivity;
    try (destruct s; reflexivity).
  destruct s; rewrite Z.compare_refl, Pos.compare_cont_refl; reflexivity.
Qed.

Lemma is_finite_Prim2SF (v : float) :
  is_finite v =
  match Prim2SF v with
  | S754_zero _ | S754_finite _ _ _ => true
  | _ => false
  end.
Proof.
  unfold is_finite, is_infinity.
  rewrite is_nan_Prim2SF, FloatAxioms.eqb_spec, abs_spec.
  change (Prim2SF infinity) with (S754_infinity false).
  destruct (Prim2SF v) as [s|s| |s m e]; simpl; reflexivity.
Qed.

Lemma is_finite_not_nan (v : float) : is_finite v = true -> is_nan v = false.
Proof. unfold is_finite. destruct (is_nan v); simpl; congruence. Qed.

(** For numbers that are not NaN, [!(a < b)] is [b <= a]. *)
Lemma ltb_negb_leb (a b : float) :
  is_nan a = false -> is_nan b = false -> negb (a <? b) = (b <=? a).
Proof.
  rewrite !is_nan_Prim2SF, FloatAxioms.ltb_spec, FloatAxioms.leb_spec.
  unfold SFltb, SFleb.
  rewrite (SFcompare_antisym (Prim2SF a) (Prim2SF b)).
  destruct (Prim2SF a) as [s|s| |s m e], (Prim2SF b) as [s'|s'| |s' m' e'];
    try discriminate; intros _ _.
  all: match goal with
       | |- context [SFcompare ?u ?v] =>
           destruct (SFcompare u v) as [[]|] eqn:E
       end; simpl; try reflexivity.
  all: simpl in E; try discriminate.
Qed.

(** A comparison with NaN is false. *)
Lemma leb_nan_l (a b : float) : is_nan a = true -> (a <=? b) = false.
Proof.
  rewrite is_nan_Prim2SF, FloatAxioms.leb_spec. unfold SFleb.
  destruct (Prim2SF a); try discriminate. reflexivity.
Qed.

Lemma eqb_zero_Prim2SF (d : float) :
  (d =? 0) = true -> exists s, Prim2SF d = S754_zero s.
Proof.
  rewrite FloatAxioms.eqb_spec. change (Prim2SF 0) with (S754_zero false).
  unfold SFeqb.
  destruct (Prim2SF d) as [s|s| |s m e]; simpl; try discriminate.
  - eauto.
  - destruct s; discriminate.
  - destruct s; discriminate.
Qed.

(** Division by a zero never gives a finite number. *)
Lemma div_zero_not_finite (n d : float) :
  (d =? 0) = true -> is_finite (n / d) = false.
Proof.
  intros Hd. destruct (eqb_zero_Prim2SF d Hd) as [s Hs].
  rewrite is_finite_Prim2SF, div_spec, Hs. unfold SF64div.
  destruct (Prim2SF n) as [s'|s'| |s' m e]; reflexivity.
Qed.

Lemma digits2_pos_bounds (p : positive) :
  (2 ^ (Z.pos (digits2_pos p) - 1) <= Z.pos p < 2 ^ Z.pos (digits2_pos p))%Z.
Proof.
  induction p as [p IH|p IH|]; simpl digits2_pos.
  - rewrite Pos2Z.inj_succ.
    replace (Z.succ (Z.pos (digits2_pos p)) - 1)%Z
      with (Z.pos (digits2_pos p)) by lia.
    rewrite Z.pow_succ_r by lia.
    replace (Z.pos (digits2_pos p))
      with (Z.succ (Z.pos (digits2_pos p) - 1)) at 1 by lia.
    rewrite Z.pow_succ_r by lia. lia.
  - rewrite Pos2Z.inj_succ.
    replace (Z.succ (Z.pos (digits2_pos p)) - 1)%Z
      with (Z.pos (digits2_pos p)) by lia.
    rewrite Z.pow_succ_r by lia.
    replace (Z.pos (digits2_pos p))
      with (Z.succ (Z.pos (digits2_pos p) - 1)) at 1 by lia.
    rewrite Z.pow_succ_r by lia. lia.
  - simpl. lia.
Qed.

Lemma digits2_pos_iter_xO (p k : positive) :
  digits2_pos (Pos.iter xO p k) = (digits2_pos p + k)%positive.
Proof.
  induction k using Pos.peano_ind.
  - simpl. lia.
  - rewrite Pos.iter_succ. simpl. rewrite IHk. lia.
Qed.

Lemma Zpos_iter_xO (p k : positive) :
  Z.pos (Pos.iter xO p k) = (Z.pos p * 2 ^ Z.pos k)%Z.
Proof.
  induction k using Pos.peano_ind.
  - simpl. lia.
  - rewrite Pos.iter_succ, Pos2Z.inj_succ, Z.pow_succ_r by lia.
    rewrite Pos2Z.inj_xO, IHk. lia.
Qed.

(** A mantissa of 53 digits with an exponent in range is not rounded. *)
Lemma binary_round_aux_exact (s : bool) (m : positive) (e : Z) :
  Z.pos (digits2_pos m) = 53%Z -> (-1074 <= e <= 971)%Z ->
  binary_round_aux prec emax s (Z.pos m) e loc_Exact = S754_finite s m e.
Proof.
  intros Hd He.
  assert (Hf : (fexp prec emax (Zdigits2 (Z.pos m) + e) - e = 0)%Z).
  { cbn [Zdigits2]. rewrite Hd. unfold fexp, SpecFloat.emin, prec, emax. lia. }
  unfold binary_round_aux, shr_fexp. rewrite Hf.
  cbn [shr shr_record_of_loc shr_m loc_of_shr_record round_nearest_even].
  rewrite Hf. cbn [shr shr_record_of_loc shr_m].
  replace ((e <=? emax - prec)%Z) with true; [reflexivity|].
  symmetry. apply Z.leb_le. unfold emax, prec. lia.
Qed.

(** An integer below 2^53 is a binary64 number. *)
Lemma binary_normalize_small (p : positive) :
  (Z.pos p < 2 ^ 53)%Z ->
  exists m e,
    binary_normalize prec emax (Z.pos p) 0 false = S754_finite false m e
    /\ (-52 <= e <= 0)%Z /\ (Z.pos m = Z.pos p * 2 ^ (- e))%Z
    /\ valid_binary (S754_finite false m e) = true.
Proof.
  intros Hp.
  pose proof (digits2_pos_bounds p) as Hd.
  assert (Hd53 : (Z.pos (digits2_pos p) <= 53)%Z).
  { destruct (Z.le_gt_cases (Z.pos (digits2_pos p)) 53) as [|Hgt];
      [assumption|].
    assert ((2 ^ 53 <= 2 ^ (Z.pos (digits2_pos p) - 1))%Z)
      by (apply Z.pow_le_mono_r; lia).
    lia. }
  unfold binary_normalize, binary_round.
  set (d := digits2_pos p) in *.
  assert (Hfexp : fexp prec emax (Z.pos d + 0) = (Z.pos d - 53)%Z).
  { unfold fexp, SpecFloat.emin, prec, emax. lia. }
  rewrite Hfexp. unfold shl_align.
  destruct (Z.pos d - 53 - 0)%Z as [|q|q] eqn:Hq; try lia.
  - assert (Hd' : Z.pos (digits2_pos p) = 53%Z) by (fold d; lia).
    exists p, 0%Z. repeat split; try lia.
    + apply binary_round_aux_exact; [assumption | lia].
    + unfold valid_binary, bounded, canonical_mantissa. rewrite Hd'.
      apply andb_true_intro; split;
        [ apply Z.eqb_eq; unfold fexp, SpecFloat.emin, prec, emax; lia
        | apply Z.leb_le; unfold emax, prec; lia ].
  - assert (Hdq : (Z.pos d + Z.pos q = 53)%Z) by lia.
    exists (Pos.iter xO p q), (Z.pos d - 53)%Z.
    assert (Hdig : Z.pos (digits2_pos (Pos.iter xO p q)) = 53%Z).
    { rewrite digits2_pos_iter_xO. fold d. lia. }
    repeat split; try lia.
    + apply binary_round_aux_exact; [assumption | lia].
    + rewrite Zpos_iter_xO. f_equal. f_equal. lia.
    + unfold valid_binary, bounded, canonical_mantissa. rewrite Hdig.
      apply andb_true_intro; split;
        [ apply Z.eqb_eq; unfold fexp, SpecFloat.emin, prec, emax; lia
        | apply Z.leb_le; unfold emax, prec; lia ].
Qed.

(** The number made from an array position names that position again. *)
Lemma to_index_float_of_nat (n : nat) :
  (Z.of_nat n < 2 ^ 53)%Z -> to_index (float_of_nat n) = Some (Z.of_nat n).
Proof.
  intros Hn. unfold float_of_nat, float_of_Z, to_index.
  destruct (Z.of_nat n) as [|p|p] eqn:Hz; try lia.
  - reflexivity.
  - destruct (binary_normalize_small p Hn) as (m & e & Hbn & He & Hm & Hv).
    rewrite Hbn, (Prim2SF_SF2Prim _ Hv).
    destruct (Z.leb_spec 0 e).
    + assert (e = 0%Z) by lia. subst e. f_equal. rewrite Hm. simpl. lia.
    + rewrite Hm. rewrite Z.mod_mul by (apply Z.pow_nonzero; lia).
      simpl Z.eqb. cbv iota.
      rewrite Z.div_mul by (apply Z.pow_nonzero; lia). reflexivity.
Qed.

Lemma js_get_float_of_nat {A : Type} (array : list A) (i : nat) :
  (Z.of_nat (length array) <= 2 ^ 53)%Z -> (i < length array)%nat ->
  js_get array (float_of_nat i) = nth_error array i.
Proof.
  intros Hlen Hi. unfold js_get.
  rewrite to_index_float_of_nat by lia.
  rewrite Nat2Z.id.
  destruct (Z.ltb_spec (Z.of_nat i) (Z.of_nat (length array))); [reflexivity|lia].
Qed.

End Binary64.

(* ================================================================= *)
(** ** Geometry predicates *)

Section Geometry.

Lemma lineSegmentIntersect_unfold (a0 a1 b0 b1 : vec2) :
  lineSegmentIntersect a0 a1 b0 b1 =
  let ta := segment_ta a0 a1 b0 b1 in
  let tb := segment_tb a0 a1 b0 b1 in
  Number_isFinite ta && Number_isFinite tb &&
  negb ((ta <? 0) || (1 <? ta) || (tb <? 0) || (1 <? tb)).
Proof. reflexivity. Qed.

(** C8 (as amended).  [lineSegmentIntersect] returns [true] exactly when
    both parametric coordinates [ta] and [tb] are finite and lie in the
    closed interval [0, 1]; and whenever the denominator, the cross product
    of the two computed direction vectors, is zero, neither coordinate is
    finite and the result is [false]. *)
Theorem lineSegmentIntersect_iff_parameters_in_unit_interval
  (a0 a1 b0 b1 : vec2) :
  (lineSegmentIntersect a0 a1 b0 b1 = true <->
   Number_isFinite (segment_ta a0 a1 b0 b1) = true /\
   Number_isFinite (segment_tb a0 a1 b0 b1) = true /\
   (0 <=? segment_ta a0 a1 b0 b1) = true /\
   (segment_ta a0 a1 b0 b1 <=? 1) = true /\
   (0 <=? segment_tb a0 a1 b0 b1) = true /\
   (segment_tb a0 a1 b0 b1 <=? 1) = true)
  /\
  ((segment_denominator a0 a1 b0 b1 =? 0) = true ->
   Number_isFinite (segment_ta a0 a1 b0 b1) = false /\
   Number_isFinite (segment_tb a0 a1 b0 b1) = false /\
   lineSegmentIntersect a0 a1 b0 b1 = false).
Proof.
  rewrite lineSegmentIntersect_unfold. cbv zeta.
  set (ta := segment_ta a0 a1 b0 b1). set (tb := segment_tb a0 a1 b0 b1).
  unfold Number_isFinite. split.
  - destruct (is_finite ta) eqn:Fa; simpl.
    2:{ split; [discriminate | intros (? & _); discriminate]. }
    destruct (is_finite tb) eqn:Fb; simpl.
    2:{ split; [discriminate | intros (_ & ? & _); discriminate]. }
    pose proof (is_finite_not_nan _ Fa) as Na.
    pose proof (is_finite_not_nan _ Fb) as Nb.
    assert (N0 : is_nan 0 = false) by reflexivity.
    assert (N1 : is_nan 1 = false) by reflexivity.
    rewrite <- (ltb_negb_leb ta 0 Na N0), <- (ltb_negb_leb 1 ta N1 Na),
            <- (ltb_negb_leb tb 0 Nb N0), <- (ltb_negb_leb 1 tb N1 Nb).
    destruct (ta <? 0), (1 <? ta), (tb <? 0), (1 <? tb); simpl;
      split; try discriminate; try tauto;
      intros (_ & _ & ? & ? & ? & ?); discriminate.
  - intros Hd.
    assert (Fa : is_finite ta = false) by (apply div_zero_not_finite, Hd).
    assert (Fb : is_finite tb = false) by (apply div_zero_not_finite, Hd).
    rewrite Fa, Fb. auto.
Qed.

(** Two overlapping segments of the horizontal axis: the denominator is
    zero and the test answers [false]. *)
Example lineSegmentIntersect_overlap_on_axis :
  lineSegmentIntersect (new_vec2 0 0) (new_vec2 2 0)
                       (new_vec2 1 0) (new_vec2 3 0) = false.
Proof. vm_compute. reflexivity. Qed.

(** Two overlapping segments of the horizontal axis, through the theorem:
    the denominator is zero, so neither coordinate is finite and the test
    answers [false]. *)
Lemma lineSegmentIntersect_iff_parameters_in_unit_interval_witness :
  (segment_denominator (new_vec2 0 0) (new_vec2 2 0)
                       (new_vec2 1 0) (new_vec2 3 0) =? 0) = true /\
  Number_isFinite (segment_ta (new_vec2 0 0) (new_vec2 2 0)
                              (new_vec2 1 0) (new_vec2 3 0)) = false /\
  Number_isFinite (segment_tb (new_vec2 0 0) (new_vec2 2 0)
                              (new_vec2 1 0) (new_vec2 3 0)) = false /\
  lineSegmentIntersect (new_vec2 0 0) (new_vec2 2 0)
                       (new_vec2 1 0) (new_vec2 3 0) = false.
Proof.
  assert (Hd : (segment_denominator (new_vec2 0 0) (new_vec2 2 0)
                                    (new_vec2 1 0) (new_vec2 3 0) =? 0) = true)
    by (vm_compute; reflexivity).
  split; [exact Hd|].
  exact (proj2 (lineSegmentIntersect_iff_parameters_in_unit_interval
                  (new_vec2 0 0) (new_vec2 2 0) (new_vec2 1 0) (new_vec2 3 0))
               Hd).
Defined.

(** C8, counterexample.  The segments from (-1, -3) to (2^-53, 3 * 2^-53)
    and from (-2, -6) to (0, 0) lie on the line [y = 3 x] and overlap (the
    end (0, 0) of the second is strictly inside the first, the end (-1, -3)
    of the first strictly inside the second).  The direction vector of the
    first is rounded to (1, 3 + 2^-51), the denominator is not zero, and
    the test answers [true]. *)
Lemma lineSegmentIntersect_detects_a_collinear_overlap :
  collinear_exact seg_a0 seg_a1 seg_b0 = true /\
  collinear_exact seg_a0 seg_a1 seg_b1 = true /\
  between_x_exact seg_b1 seg_a0 seg_a1 = true /\
  between_x_exact seg_a0 seg_b0 seg_b1 = true /\
  (segment_denominator seg_a0 seg_a1 seg_b0 seg_b1 =? 0) = false /\
  lineSegmentIntersect seg_a0 seg_a1 seg_b0 seg_b1 = true.
Proof. vm_compute. repeat split. Qed.

Lemma pointIsInside_count (g : Graph) (f : GraphFace) (point : vec2) :
  pointIsInside g f point =
  (length (filter (hits g point) (face_halfEdges f)) mod 2 =? 1)%nat.
Proof.
  unfold pointIsInside.
  assert (Hfold : forall l n,
            fold_left
              (fun (intersections : nat) (halfEdge : GraphHalfEdge) =>
                 match rayLineSegmentIntersect point (new_vec2 1 0)
                         (pos g (vertex0 (edge halfEdge)))
                         (pos g (vertex1 (edge halfEdge))) with
                 | Some _ => S intersections
                 | None => intersections
                 end) l n
            = (n + length (filter (hits g point) l))%nat).
  { induction l as [|h l IH]; intros n; simpl.
    - lia.
    - rewrite IH. unfold hits at 2.
      destruct (rayLineSegmentIntersect _ _ _ _); simpl; lia. }
  rewrite Hfold. reflexivity.
Qed.

Lemma filter_length_Permutation {A : Type} (p : A -> bool) (l l' : list A) :
  Permutation l l' -> length (filter p l) = length (filter p l').
Proof.
  induction 1; simpl; try congruence.
  - destruct (p x0); simpl; congruence.
  - destruct (p x0), (p y0); reflexivity.
Qed.

Lemma hits_lies_on (g : Graph) (point p q : vec2) (h : GraphHalfEdge)
  (b : bool) :
  lies_on g h p q ->
  (match rayLineSegmentIntersect point (new_vec2 1 0) p q with
   | Some _ => true | None => false end) = b ->
  (match rayLineSegmentIntersect point (new_vec2 1 0) q p with
   | Some _ => true | None => false end) = b ->
  hits g point h = b.
Proof.
  unfold lies_on, hits. intros [[-> ->]|[-> ->]] H1 H2; assumption.
Qed.

(** C6.  For a face whose four half-edges lie on the four sides of the unit
    square with corners (0,0), (1,0), (1,1), (0,1), in any order and with
    the edges in either direction, [pointIsInside] is [true] at (0.5, 0.5)
    and [false] at (2, 2). *)
Theorem pointIsInside_unit_square (g : Graph) (f : GraphFace)
  (h0 h1 h2 h3 : GraphHalfEdge) :
  Permutation (face_halfEdges f) [h0; h1; h2; h3] ->
  lies_on g h0 (new_vec2 0 0) (new_vec2 1 0) ->
  lies_on g h1 (new_vec2 1 0) (new_vec2 1 1) ->
  lies_on g h2 (new_vec2 1 1) (new_vec2 0 1) ->
  lies_on g h3 (new_vec2 0 1) (new_vec2 0 0) ->
  pointIsInside g f (new_vec2 0.5 0.5) = true /\
  pointIsInside g f (new_vec2 2 2) = false.
Proof.
  intros HP L0 L1 L2 L3.
  rewrite !pointIsInside_count.
  rewrite !(filter_length_Permutation _ _ _ HP). simpl filter.
  split.
  - rewrite (hits_lies_on g _ _ _ h0 false L0) by (vm_compute; reflexivity).
    rewrite (hits_lies_on g _ _ _ h1 true L1) by (vm_compute; reflexivity).
    rewrite (hits_lies_on g _ _ _ h2 false L2) by (vm_compute; reflexivity).
    rewrite (hits_lies_on g _ _ _ h3 false L3) by (vm_compute; reflexivity).
    reflexivity.
  - rewrite (hits_lies_on g _ _ _ h0 false L0) by (vm_compute; reflexivity).
    rewrite (hits_lies_on g _ _ _ h1 false L1) by (vm_compute; reflexivity).
    rewrite (hits_lies_on g _ _ _ h2 false L2) by (vm_compute; reflexivity).
    rewrite (hits_lies_on g _ _ _ h3 false L3) by (vm_compute; reflexivity).
    reflexivity.
Qed.

(** The unit square built by hand: inside at (0.5, 0.5), outside at
    (2, 2). *)
Lemma pointIsInside_unit_square_witness :
  pointIsInside square_graph square_face (new_vec2 0.5 0.5) = true /\
  pointIsInside square_graph square_face (new_vec2 2 2) = false.
Proof.
  apply (pointIsInside_unit_square square_graph square_face
           (halfEdgeFromVertex0 (new_GraphEdge 0 0 1)%nat)
           (halfEdgeFromVertex0 (new_GraphEdge 1 1 2)%nat)
           (halfEdgeFromVertex0 (new_GraphEdge 2 2 3)%nat)
           (halfEdgeFromVertex0 (new_GraphEdge 3 3 0)%nat)).
  - apply Permutation_refl.
  - left. split; reflexivity.
  - left. split; reflexivity.
  - left. split; reflexivity.
  - left. split; reflexivity.
Defined.

End Geometry.

(* ================================================================= *)
(** ** The segment test does not depend on the order of the segments *)

Section Symmetry.

Lemma binary_round_aux_opp (s : bool) (m e : Z) (l : location) :
  binary_round_aux prec emax (negb s) m e l
  = SFopp (binary_round_aux prec emax s m e l).
Proof.
  unfold binary_round_aux.
  destruct (shr_fexp prec emax m e l) as [mrs' e'].
  destruct (shr_fexp prec emax _ e' loc_Exact) as [mrs'' e''].
  destruct (shr_m mrs''); [reflexivity| |reflexivity].
  destruct (e'' <=? emax - prec)%Z; reflexivity.
Qed.

Lemma SFmul_comm (a b : spec_float) :
  SFmul prec emax a b = SFmul prec emax b a.
Proof.
  destruct a as [sa|sa| |sa ma ea], b as [sb|sb| |sb mb eb]; simpl;
    try reflexivity; try (rewrite xorb_comm; reflexivity).
  rewrite xorb_comm, Pos.mul_comm, Z.add_comm. reflexivity.
Qed.

Lemma SFmul_opp_l (a b : spec_float) :
  SFmul prec emax (SFopp a) b = SFopp (SFmul prec emax a b).
Proof.
  destruct a as [sa|sa| |sa ma ea], b as [sb|sb| |sb mb eb]; simpl;
    try reflexivity; try (rewrite negb_xorb_l; reflexivity).
  rewrite <- negb_xorb_l. apply binary_round_aux_opp.
Qed.

Lemma same_value_refl (a : spec_float) : same_value a a.
Proof. reflexivity. Qed.

Lemma same_value_trans (a b c : spec_float) :
  same_value a b -> same_value b c -> same_value a c.
Proof. unfold same_value. congruence. Qed.

Lemma same_value_sym (a b : spec_float) : same_value a b -> same_value b a.
Proof. unfold same_value. congruence. Qed.

Lemma same_value_cases (a b : spec_float) :
  same_value a b ->
  a = b \/ exists s s', a = S754_zero s /\ b = S754_zero s'.
Proof.
  unfold same_value.
  destruct a as [sa|sa| |sa ma ea], b as [sb|sb| |sb mb eb]; simpl;
    intros E; try discriminate; auto.
  right. eauto.
Qed.

Lemma SFopp_same (a a' : spec_float) :
  same_value a a' -> same_value (SFopp a) (SFopp a').
Proof.
  intros E. destruct (same_value_cases _ _ E) as [->|(s & s' & -> & ->)];
    reflexivity.
Qed.

Lemma SFmul_same_l (a a' b : spec_float) :
  same_value a a' ->
  same_value (SFmul prec emax a b) (SFmul prec emax a' b).
Proof.
  intros E. destruct (same_value_cases _ _ E) as [->|(s & s' & -> & ->)];
    [reflexivity|].
  destruct b as [sb|sb| |sb mb eb]; reflexivity.
Qed.

Lemma binary_normalize_opp (m e : Z) :
  same_value (binary_normalize prec emax (- m) e false)
             (SFopp (binary_normalize prec emax m e false)).
Proof.
  destruct m as [|p|p]; simpl; [reflexivity| |].
  - unfold binary_round.
    destruct (shl_align p e _) as [mz ez].
    rewrite (binary_round_aux_opp false). reflexivity.
  - unfold binary_round.
    destruct (shl_align p e _) as [mz ez].
    rewrite (binary_round_aux_opp false).
    destruct (binary_round_aux prec emax false (Z.pos mz) ez loc_Exact)
      as [s|s| |s m' e']; try reflexivity; destruct s; reflexivity.
Qed.

Lemma SFsub_swap (a b : spec_float) :
  same_value (SFsub prec emax b a) (SFopp (SFsub prec emax a b)).
Proof.
  destruct a as [sa|sa| |sa ma ea], b as [sb|sb| |sb mb eb]; simpl;
    try reflexivity;
    try (destruct sa, sb; reflexivity);
    try (destruct sa; reflexivity); try (destruct sb; reflexivity).
  replace (IntDef.Z.min eb ea) with (IntDef.Z.min ea eb)
    by apply Z.min_comm.
  set (A := cond_Zopp sa _). set (B := cond_Zopp sb _).
  replace (B - A)%Z with (- (A - B))%Z by lia.
  apply binary_normalize_opp.
Qed.

Lemma cond_Zopp_negb (s : bool) (m : Z) :
  cond_Zopp (negb s) m = (- cond_Zopp s m)%Z.
Proof. destruct s; simpl; lia. Qed.

Lemma SFsub_opp (a b : spec_float) :
  same_value (SFsub prec emax (SFopp a) (SFopp b))
             (SFopp (SFsub prec emax a b)).
Proof.
  destruct a as [sa|sa| |sa ma ea], b as [sb|sb| |sb mb eb]; simpl;
    try reflexivity;
    try (destruct sa, sb; reflexivity);
    try (destruct sa; reflexivity); try (destruct sb; reflexivity).
  rewrite !cond_Zopp_negb.
  set (A := cond_Zopp sa _). set (B := cond_Zopp sb _).
  replace (- A - - B)%Z with (- (A - B))%Z by lia.
  apply binary_normalize_opp.
Qed.

Lemma SFsub_same (a a' b b' : spec_float) :
  same_value a a' -> same_value b b' ->
  same_value (SFsub prec emax a b) (SFsub prec emax a' b').
Proof.
  intros Ea Eb.
  destruct (same_value_cases _ _ Ea) as [->|(s & s' & -> & ->)];
    destruct (same_value_cases _ _ Eb) as [->|(t & t' & -> & ->)];
    try reflexivity.
  - destruct a' as [sa|sa| |sa ma ea]; try reflexivity.
    destruct sa, t, t'; reflexivity.
  - destruct b' as [sb|sb| |sb mb eb]; try reflexivity.
    destruct s, s', sb; reflexivity.
  - destruct s, s', t, t'; reflexivity.
Qed.

Lemma SFdiv_opp_opp (n d : spec_float) :
  SFdiv prec emax (SFopp n) (SFopp d) = SFdiv prec emax n d.
Proof.
  destruct n as [sn|sn| |sn mn en], d as [sd|sd| |sd md ed]; simpl;
    try reflexivity; destruct sn, sd; reflexivity.
Qed.

Lemma inside_unit_same (t t' : float) :
  same_value (Prim2SF t) (Prim2SF t') -> inside_unit t = inside_unit t'.
Proof.
  intros E. unfold inside_unit.
  rewrite !is_finite_Prim2SF, !FloatAxioms.ltb_spec.
  destruct (same_value_cases _ _ E) as [->|(s & s' & -> & ->)];
    reflexivity.
Qed.

Lemma inside_unit_not_finite (t : float) :
  is_finite t = false -> inside_unit t = false.
Proof. unfold inside_unit. intros ->. reflexivity. Qed.

(** Negating numerator and denominator, up to the sign of a zero, does not
    change whether the quotient is finite and in [0, 1]. *)
Lemma inside_unit_div_opp (n d n' d' : float) :
  same_value (Prim2SF n') (SFopp (Prim2SF n)) ->
  same_value (Prim2SF d') (SFopp (Prim2SF d)) ->
  inside_unit (n' / d') = inside_unit (n / d).
Proof.
  intros En Ed.
  destruct (same_value_cases _ _ Ed) as [Ed'|(s & s' & Ed1 & Ed2)].
  - destruct (same_value_cases _ _ En) as [En'|(t & t' & En1 & En2)].
    + apply inside_unit_same.
      rewrite !FloatAxioms.div_spec. unfold SF64div.
      rewrite En', Ed', SFdiv_opp_opp. reflexivity.
    + apply inside_unit_same.
      rewrite !FloatAxioms.div_spec. unfold SF64div.
      rewrite En1, Ed'.
      destruct (Prim2SF n) as [sn|sn| |sn mn en]; try discriminate.
      destruct (Prim2SF d) as [sd|sd| |sd md ed]; reflexivity.
  - assert (Hd : (d =? 0) = true).
    { rewrite FloatAxioms.eqb_spec.
      destruct (Prim2SF d) as [sd|sd| |sd md ed]; try discriminate.
      reflexivity. }
    assert (Hd' : (d' =? 0) = true).
    { rewrite FloatAxioms.eqb_spec, Ed1. reflexivity. }
    rewrite !inside_unit_not_finite; [reflexivity| |];
      apply div_zero_not_finite; assumption.
Qed.

Lemma sub_swap_value (a b : float) :
  same_value (Prim2SF (a - b)) (SFopp (Prim2SF (b - a))).
Proof. rewrite !FloatAxioms.sub_spec. apply SFsub_swap. Qed.

Lemma vec2_cross_swap (u v : vec2) :
  same_value (Prim2SF (vec2_cross v u)) (SFopp (Prim2SF (vec2_cross u v))).
Proof.
  unfold vec2_cross.
  rewrite !FloatAxioms.sub_spec, !FloatAxioms.mul_spec.
  unfold SF64sub, SF64mul.
  rewrite (SFmul_comm (Prim2SF (x v))), (SFmul_comm (Prim2SF (y v))).
  apply SFsub_swap.
Qed.

Lemma vec2_cross_opp_l (p p' w : vec2) :
  same_value (Prim2SF (x p')) (SFopp (Prim2SF (x p))) ->
  same_value (Prim2SF (y p')) (SFopp (Prim2SF (y p))) ->
  same_value (Prim2SF (vec2_cross p' w)) (SFopp (Prim2SF (vec2_cross p w))).
Proof.
  intros Ex Ey. unfold vec2_cross.
  rewrite !FloatAxioms.sub_spec, !FloatAxioms.mul_spec.
  unfold SF64sub, SF64mul.
  eapply same_value_trans; [|apply SFsub_opp].
  apply SFsub_same; rewrite <- SFmul_opp_l; apply SFmul_same_l; assumption.
Qed.

Lemma lineSegmentIntersect_inside (a0 a1 b0 b1 : vec2) :
  lineSegmentIntersect a0 a1 b0 b1
  = inside_unit (segment_ta a0 a1 b0 b1) &&
    inside_unit (segment_tb a0 a1 b0 b1).
Proof.
  rewrite lineSegmentIntersect_unfold. cbv zeta.
  unfold inside_unit, Number_isFinite.
  destruct (is_finite (segment_ta a0 a1 b0 b1)),
           (is_finite (segment_tb a0 a1 b0 b1)),
           (segment_ta a0 a1 b0 b1 <? 0), (1 <? segment_ta a0 a1 b0 b1),
           (segment_tb a0 a1 b0 b1 <? 0), (1 <? segment_tb a0 a1 b0 b1);
    reflexivity.
Qed.

(** The test does not depend on which of the two segments comes first. *)
Lemma lineSegmentIntersect_sym (a0 a1 b0 b1 : vec2) :
  lineSegmentIntersect b0 b1 a0 a1 = lineSegmentIntersect a0 a1 b0 b1.
Proof.
  rewrite !lineSegmentIntersect_inside.
  assert (Ha : inside_unit (segment_ta b0 b1 a0 a1)
               = inside_unit (segment_tb a0 a1 b0 b1)).
  { unfold segment_ta, segment_tb, segment_denominator.
    apply inside_unit_div_opp.
    - apply vec2_cross_opp_l; apply sub_swap_value.
    - apply vec2_cross_swap. }
  assert (Hb : inside_unit (segment_tb b0 b1 a0 a1)
               = inside_unit (segment_ta a0 a1 b0 b1)).
  { unfold segment_ta, segment_tb, segment_denominator.
    apply inside_unit_div_opp.
    - apply vec2_cross_opp_l; apply sub_swap_value.
    - apply vec2_cross_swap. }
  rewrite Ha, Hb. apply andb_comm.
Qed.

End Symmetry.

(* ================================================================= *)
(** ** What each operation leaves unchanged *)

Section Frames.

Variable H : Host.

Lemma fold_left_invariant {A B : Type} (f : A -> B -> A) (P : A -> Prop) :
  (forall a b, P a -> P (f a b)) ->
  forall l a, P a -> P (fold_left f l a).
Proof.
  intros Hstep l. induction l as [|b l IH]; intros a Ha; simpl; auto.
Qed.

Lemma same_frame_refl (g : Graph) : same_frame g g.
Proof. repeat split. Qed.

Lemma same_frame_trans (g1 g2 g3 : Graph) :
  same_frame g1 g2 -> same_frame g2 g3 -> same_frame g1 g3.
Proof.
  unfold same_frame. intros (A1 & A2 & A3 & A4) (B1 & B2 & B3 & B4).
  repeat split; congruence.
Qed.

Lemma sortEdgesCCW_frame (g : Graph) (v : VertexRef) :
  same_frame g (sortEdgesCCW H g v).
Proof. repeat split. Qed.

Lemma sort_all_frame (g : Graph) (vs : list VertexRef) :
  same_frame g (fold_left (sortEdgesCCW H) vs g).
Proof.
  apply (fold_left_invariant _ (same_frame g)).
  - intros a b Ha. eapply same_frame_trans; [exact Ha|apply sortEdgesCCW_frame].
  - apply same_frame_refl.
Qed.

Lemma linkVertex_frame (g : Graph) (v : VertexRef) :
  same_frame g (linkVertex g v) /\
  vertexEdges (linkVertex g v) = vertexEdges g /\
  face (linkVertex g v) = face g.
Proof.
  unfold linkVertex. destruct (_ <? 2)%nat; [repeat split|].
  apply (fold_left_invariant _
           (fun g' => same_frame g g' /\ vertexEdges g' = vertexEdges g /\
                      face g' = face g)).
  - intros a i (Ha & Hb & Hc). unfold linkStep.
    destruct (nth_error (outgoing_of g v) i); auto.
    destruct (nth_error (outgoing_of g v) _); auto.
  - repeat split.
Qed.

Lemma linkHalfEdgesAroundVertices_frame (g : Graph) :
  same_frame g (linkHalfEdgesAroundVertices g) /\
  vertexEdges (linkHalfEdgesAroundVertices g) = vertexEdges g /\
  face (linkHalfEdgesAroundVertices g) = face g.
Proof.
  unfold linkHalfEdgesAroundVertices.
  apply (fold_left_invariant _
           (fun g' => same_frame g g' /\ vertexEdges g' = vertexEdges g /\
                      face g' = face g)).
  - intros a v (Ha & Hb & Hc).
    destruct (linkVertex_frame a v) as (Fa & Fb & Fc).
    split; [eapply same_frame_trans; eassumption|]. split; congruence.
  - repeat split.
Qed.

Lemma buildFace_frame (st : Graph * list GraphFace * nat) (h : GraphHalfEdge) :
  same_frame (fst (fst st)) (fst (fst (buildFace H st h))) /\
  vertexEdges (fst (fst (buildFace H st h))) = vertexEdges (fst (fst st)) /\
  next (fst (fst (buildFace H st h))) = next (fst (fst st)).
Proof.
  destruct st as [[g fs] k]. unfold buildFace.
  destruct (face g h); [repeat split|].
  destruct (traverse _ _ _ _ _) as [[hs closed]|]; [|repeat split].
  destruct closed; [|repeat split].
  destruct (computeFaceArea g hs <=? 0); [repeat split|].
  destruct (generateFaceColor H k). repeat split.
Qed.

Lemma buildFaces_frame (k : nat) (g : Graph) :
  same_frame g (fst (buildFaces H k g)) /\
  vertexEdges (fst (buildFaces H k g)) = vertexEdges g.
Proof.
  unfold buildFaces.
  destruct (linkHalfEdgesAroundVertices_frame g) as (F1 & F2 & _).
  set (g1 := linkHalfEdgesAroundVertices g) in *.
  assert (Hfold : forall l st,
            same_frame (fst (fst st)) (fst (fst (fold_left (buildFace H) l st)))
            /\ vertexEdges (fst (fst (fold_left (buildFace H) l st)))
               = vertexEdges (fst (fst st))).
  { induction l as [|h l IH]; intros st; simpl; [repeat split|].
    destruct (IH (buildFace H st h)) as (I1 & I2).
    destruct (buildFace_frame st h) as (B1 & B2 & _).
    split; [eapply same_frame_trans; eassumption | congruence]. }
  specialize (Hfold (halfEdges g1) (g1, [], k)).
  destruct (fold_left (buildFace H) (halfEdges g1) (g1, [], k)) as [[g2 fs] k'].
  simpl in *. destruct Hfold as ((A1 & A2 & A3 & A4) & A5).
  destruct F1 as (B1 & B2 & B3 & B4).
  repeat split; simpl; congruence.
Qed.

End Frames.

(* ================================================================= *)
(** ** Deserialization and serialization *)

Section Serialization.

Variable H : Host.

Lemma pushVertices_vertices (l : list (float * float)) (g : Graph) :
  vertices (pushVertices l g)
  = vertices g ++ seq (length (vertices g)) (length l).
Proof.
  revert g. induction l as [|[px py] l IH]; intros g; simpl.
  - rewrite app_nil_r. reflexivity.
  - rewrite IH. simpl. rewrite length_app, <- app_assoc. simpl.
    rewrite Nat.add_1_r. reflexivity.
Qed.

Lemma pushVertices_edges (l : list (float * float)) (g : Graph) :
  edges (pushVertices l g) = edges g /\
  halfEdges (pushVertices l g) = halfEdges g.
Proof.
  revert g. induction l as [|[px py] l IH]; intros g; simpl; [split; reflexivity|].
  destruct (IH (mkGraph (vertices g ++ [length (vertices g)]) (edges g)
                        (faces g) (halfEdges g)
                        (update (pos g) (length (vertices g)) (new_vec2 px py))
                        (update (vertexEdges g) (length (vertices g)) [])
                        (next g) (face g))) as (E1 & E2).
  split; assumption.
Qed.

Lemma map_positions_arrays (f : vec2 -> vec2) (g : Graph) :
  vertices (map_positions f g) = vertices g /\
  edges (map_positions f g) = edges g /\
  halfEdges (map_positions f g) = halfEdges g.
Proof. repeat split. Qed.

Lemma normalizeWith_arrays (mn mx : vec2) (g : Graph) :
  vertices (normalizeWith mn mx g) = vertices g /\
  edges (normalizeWith mn mx g) = edges g /\
  halfEdges (normalizeWith mn mx g) = halfEdges g.
Proof.
  unfold normalizeWith.
  destruct (_ && _)%bool; [apply map_positions_arrays|].
  destruct (_ || _)%bool; apply map_positions_arrays.
Qed.

Lemma normalize_arrays (g : Graph) :
  vertices (normalizeVerticesToGraphSpace g) = vertices g /\
  edges (normalizeVerticesToGraphSpace g) = edges g /\
  halfEdges (normalizeVerticesToGraphSpace g) = halfEdges g.
Proof.
  unfold normalizeVerticesToGraphSpace.
  destruct (vertices g) eqn:Hv; [rewrite Hv; repeat split|].
  rewrite <- Hv. destruct (boundingBox g) as [mn mx].
  apply normalizeWith_arrays.
Qed.

Lemma registerEdge_fields (g : Graph) (e : GraphEdge) :
  vertices (registerEdge g e) = vertices g /\
  pos (registerEdge g e) = pos g /\
  edges (registerEdge g e) = edges g ++ [e].
Proof. repeat split. Qed.

Lemma loadEdges_fields (entries : list (float * float)) (g : Graph) (id : nat) :
  vertices (loadEdges g id entries) = vertices g /\
  pos (loadEdges g id entries) = pos g /\
  edges (loadEdges g id entries) = edges g ++ loaded (vertices g) id entries.
Proof.
  revert g id. induction entries as [|[i0 i1] rest IH]; intros g id; simpl.
  - rewrite app_nil_r. repeat split.
  - destruct (js_get (vertices g) i0) as [v0|]; [|apply IH].
    destruct (js_get (vertices g) i1) as [v1|]; [|apply IH].
    destruct (IH (registerEdge g (new_GraphEdge id v0 v1)) (S id))
      as (I1 & I2 & I3).
    repeat split; try assumption.
    rewrite I3. simpl. rewrite <- app_assoc. reflexivity.
Qed.

(** The vertex array, the edge array and the vertex positions of the graph
    [Graph.fromSerialized] builds. *)
Lemma Graph_fromSerialized_fields (data : GraphSerialized) :
  let n := length (data_vertices data) in
  let G := Graph_fromSerialized H data in
  vertices G = seq 0 n /\
  edges G = loaded (seq 0 n) 0 (data_edges data) /\
  map (fun v => (x (pos G v), y (pos G v))) (vertices G)
  = normalized (data_vertices data).
Proof.
  cbv zeta. unfold Graph_fromSerialized, loadFromSerialized.
  set (g1 := pushVertices (data_vertices data) Graph_empty).
  set (g2 := normalizeVerticesToGraphSpace g1).
  set (g3 := loadEdges g2 0 (data_edges data)).
  set (g4 := fold_left (sortEdgesCCW H) (vertices g3) g3).
  destruct (buildFaces_frame H 0 g4) as ((F1 & F2 & _ & F4) & _).
  destruct (sort_all_frame H g3 (vertices g3)) as (S1 & S2 & _ & S4).
  fold g4 in S1, S2, S4.
  destruct (loadEdges_fields (data_edges data) g2 0) as (L1 & L2 & L3).
  fold g3 in L1, L2, L3.
  destruct (normalize_arrays g1) as (N1 & N2 & _). fold g2 in N1, N2.
  pose proof (pushVertices_vertices (data_vertices data) Graph_empty) as P1.
  destruct (pushVertices_edges (data_vertices data) Graph_empty) as (P2 & _).
  fold g1 in P1, P2. simpl in P1, P2.
  assert (Hv : vertices g2 = seq 0 (length (data_vertices data))) by congruence.
  repeat split.
  - congruence.
  - rewrite F2, S2, L3, N2, P2, Hv. reflexivity.
  - rewrite F1, F4, S1, S4, L1, L2. reflexivity.
Qed.

Lemma vertexIndices_get_nth (vs : list VertexRef) (k i : nat) (v : VertexRef) :
  NoDup vs -> nth_error vs i = Some v ->
  vertexIndices_get vs k v = Some (k + i)%nat.
Proof.
  revert k i. induction vs as [|u vs IH]; intros k i Hnd Hnth.
  - destruct i; discriminate.
  - inversion Hnd as [|? ? Hnotin Hnd']; subst. simpl.
    destruct i as [|i]; simpl in Hnth.
    + injection Hnth as ->.
      assert (Hnone : forall j, vertexIndices_get vs j v = None).
      { clear -Hnotin. induction vs as [|w vs IH]; intros j; simpl; auto.
        rewrite IH by (intros Hin; apply Hnotin; right; exact Hin).
        destruct (Nat.eq_dec w v); [|reflexivity].
        exfalso. apply Hnotin. left. assumption. }
      rewrite Hnone. destruct (Nat.eq_dec v v); [|congruence].
      f_equal. lia.
    + rewrite (IH (S k) i Hnd' Hnth). f_equal. lia.
Qed.

Lemma vertexIndices_get_seq (n v : nat) :
  (v < n)%nat -> vertexIndices_get (seq 0 n) 0 v = Some v.
Proof.
  intros Hv. apply (vertexIndices_get_nth (seq 0 n) 0 v v).
  - apply seq_NoDup.
  - rewrite nth_error_nth' with (d := 0%nat) by (rewrite length_seq; exact Hv).
    rewrite seq_nth by exact Hv. reflexivity.
Qed.

Lemma js_get_seq_bound (n : nat) (i : float) (v : nat) :
  js_get (seq 0 n) i = Some v -> (v < n)%nat.
Proof.
  unfold js_get. destruct (to_index i) as [z|]; [|discriminate].
  destruct (_ <? _)%Z; [|discriminate].
  intros Hn. apply nth_error_In in Hn. apply in_seq in Hn. lia.
Qed.

Lemma loaded_bound (n : nat) (entries : list (float * float)) (id : nat) :
  forall e, In e (loaded (seq 0 n) id entries) ->
            (vertex0 e < n)%nat /\ (vertex1 e < n)%nat.
Proof.
  revert id. induction entries as [|[i0 i1] rest IH]; intros id e;
    cbn [loaded].
  - intros [].
  - destruct (js_get (seq 0 n) i0) as [v0|] eqn:E0; [|apply IH].
    destruct (js_get (seq 0 n) i1) as [v1|] eqn:E1; [|apply IH].
    intros [<-|Hin]; [|eapply IH; exact Hin].
    simpl. split; eapply js_get_seq_bound; eassumption.
Qed.

(** The index pairs [serialize] writes when the vertex array is
    [0 .. n-1]. *)
Lemma serialize_edges_seq (g : Graph) (n : nat) :
  vertices g = seq 0 n ->
  (forall e, In e (edges g) -> (vertex0 e < n)%nat /\ (vertex1 e < n)%nat) ->
  data_edges (serialize g) = index_pairs (edges g).
Proof.
  intros Hv Hb. unfold serialize, index_pairs. simpl. rewrite Hv.
  induction (edges g) as [|e es IH]; simpl; [reflexivity|].
  destruct (Hb e (or_introl eq_refl)) as (B0 & B1).
  rewrite (vertexIndices_get_seq n _ B0), (vertexIndices_get_seq n _ B1).
  simpl. f_equal. apply IH. intros e' He'. apply Hb. right. exact He'.
Qed.

(** What [export(import(s))] is. *)
Lemma reimport_fields (data : GraphSerialized) :
  data_vertices (reimport H data) = normalized (data_vertices data) /\
  data_edges (reimport H data)
  = index_pairs (loaded (seq 0 (length (data_vertices data))) 0
                        (data_edges data)).
Proof.
  destruct (Graph_fromSerialized_fields data) as (F1 & F2 & F3).
  unfold reimport. split.
  - exact F3.
  - rewrite (serialize_edges_seq _ _ F1).
    + rewrite F2. reflexivity.
    + rewrite F2. apply loaded_bound.
Qed.

Lemma normalized_length (l : list (float * float)) :
  length (normalized l) = length l.
Proof.
  unfold normalized. rewrite length_map.
  destruct (normalize_arrays (pushVertices l Graph_empty)) as (-> & _).
  rewrite pushVertices_vertices. simpl. apply length_seq.
Qed.

(** Index pairs that [serialize] wrote are read back as they are. *)
Lemma loaded_index_pairs (n : nat) (es : list GraphEdge) (id : nat) :
  (Z.of_nat n <= 2 ^ 53)%Z ->
  (forall e, In e es -> (vertex0 e < n)%nat /\ (vertex1 e < n)%nat) ->
  index_pairs (loaded (seq 0 n) id (index_pairs es)) = index_pairs es.
Proof.
  intros Hn. revert id. induction es as [|e es IH]; intros id Hb; simpl;
    [reflexivity|].
  destruct (Hb e (or_introl eq_refl)) as (B0 & B1).
  assert (G0 : js_get (seq 0 n) (float_of_nat (vertex0 e)) = Some (vertex0 e)).
  { rewrite js_get_float_of_nat by (rewrite length_seq; lia).
    rewrite nth_error_nth' with (d := 0%nat) by (rewrite length_seq; lia).
    rewrite seq_nth by lia. reflexivity. }
  assert (G1 : js_get (seq 0 n) (float_of_nat (vertex1 e)) = Some (vertex1 e)).
  { rewrite js_get_float_of_nat by (rewrite length_seq; lia).
    rewrite nth_error_nth' with (d := 0%nat) by (rewrite length_seq; lia).
    rewrite seq_nth by lia. reflexivity. }
  rewrite G0, G1. simpl. f_equal. apply IH.
  intros e' He'. apply Hb. right. exact He'.
Qed.

End Serialization.

(* ================================================================= *)
(** ** Tolerant ingestion and the round trip *)

Section RoundTrip.

Variable H : Host.

Lemma to_index_nonneg (i : float) (z : Z) : to_index i = Some z -> (0 <= z)%Z.
Proof.
  unfold to_index. destruct (Prim2SF i) as [s|s| |s m e]; try discriminate.
  - intros Heq. assert (z = 0%Z) by congruence. lia.
  - destruct s; [discriminate|].
    destruct (0 <=? e)%Z eqn:He.
    + intros Heq. assert (Hz : z = (Z.pos m * 2 ^ e)%Z) by congruence.
      rewrite Hz. apply Z.leb_le in He.
      apply Z.mul_nonneg_nonneg; [lia|]. apply Z.pow_nonneg. lia.
    + destruct (_ =? 0)%Z; [|discriminate].
      intros Heq. assert (Hz : z = (Z.pos m / 2 ^ (- e))%Z) by congruence.
      rewrite Hz. apply Z.div_pos; [lia|]. apply Z.pow_pos_nonneg; [lia|].
      apply Z.leb_gt in He. lia.
Qed.

Lemma names_vertex_js_get (n : nat) (i : float) :
  names_vertex n i = false <-> js_get (seq 0 n) i = None.
Proof.
  unfold names_vertex, js_get. rewrite length_seq.
  destruct (to_index i) as [z|] eqn:Hz; [|tauto].
  apply to_index_nonneg in Hz.
  destruct (Z.ltb_spec z (Z.of_nat n)) as [Hlt|Hge]; [|tauto].
  split; [discriminate|].
  intros Hnone. apply nth_error_None in Hnone. rewrite length_seq in Hnone.
  lia.
Qed.

Lemma loaded_skip (vs : list VertexRef) (before after : list (float * float))
  (entry : float * float) (id : nat) :
  js_get vs (fst entry) = None \/ js_get vs (snd entry) = None ->
  loaded vs id (before ++ entry :: after) = loaded vs id (before ++ after).
Proof.
  intros Hbad. revert id.
  induction before as [|[i0 i1] before IH]; intros id; cbn [app loaded].
  - destruct entry as [i0 i1]. simpl in Hbad.
    destruct Hbad as [-> | Hb]; [reflexivity|].
    rewrite Hb. destruct (js_get vs i0); reflexivity.
  - destruct (js_get vs i0); [|apply IH].
    destruct (js_get vs i1); [|apply IH].
    f_equal. apply IH.
Qed.

Lemma loaded_length (n : nat) (entries : list (float * float)) (id : nat) :
  length (loaded (seq 0 n) id entries)
  = length (filter (entry_valid n) entries).
Proof.
  revert id. induction entries as [|[i0 i1] rest IH]; intros id;
    cbn [loaded filter]; [reflexivity|].
  unfold entry_valid at 1. cbn [fst snd].
  destruct (js_get (seq 0 n) i0) as [v0|] eqn:E0.
  - destruct (names_vertex n i0) eqn:N0;
      [|apply names_vertex_js_get in N0; congruence].
    destruct (js_get (seq 0 n) i1) as [v1|] eqn:E1.
    + destruct (names_vertex n i1) eqn:N1;
        [|apply names_vertex_js_get in N1; congruence].
      simpl. f_equal. apply IH.
    + apply names_vertex_js_get in E1. rewrite E1. simpl. apply IH.
  - apply names_vertex_js_get in E0. rewrite E0. simpl. apply IH.
Qed.

(** C9.  An edge entry one of whose two indices names no vertex creates no
    edge and raises no error: [Graph.fromSerialized] returns, its vertices
    are those of the input, and its vertices and edges are those it builds
    from the input without that entry; the edges are as many as the entries
    whose two indices name vertices. *)
Theorem fromSerialized_drops_out_of_range_edges
  (vs before after : list (float * float)) (entry : float * float) :
  entry_valid (length vs) entry = false ->
  let G := Graph_fromSerialized H
             (mkGraphSerialized vs (before ++ entry :: after)) in
  let G' := Graph_fromSerialized H (mkGraphSerialized vs (before ++ after)) in
  vertices G = seq 0 (length vs) /\
  vertices G = vertices G' /\
  edges G = edges G' /\
  length (edges G) = length (filter (entry_valid (length vs)) (before ++ after)).
Proof.
  intros Hbad. cbv zeta.
  destruct (Graph_fromSerialized_fields H
              (mkGraphSerialized vs (before ++ entry :: after)))
    as (F1 & F2 & _).
  destruct (Graph_fromSerialized_fields H
              (mkGraphSerialized vs (before ++ after))) as (F1' & F2' & _).
  simpl in F1, F2, F1', F2'.
  assert (Hskip : loaded (seq 0 (length vs)) 0 (before ++ entry :: after)
                  = loaded (seq 0 (length vs)) 0 (before ++ after)).
  { apply loaded_skip. unfold entry_valid in Hbad.
    apply andb_false_iff in Hbad.
    destruct Hbad as [Hb|Hb]; apply names_vertex_js_get in Hb; auto. }
  repeat split.
  - exact F1.
  - congruence.
  - congruence.
  - rewrite F2, Hskip. apply loaded_length.
Qed.

End RoundTrip.

(** The input [vertices = [[0,0]], edges = [[0,5]]]: the entry is out of
    range, and the graph has one vertex and no edge. *)
Lemma fromSerialized_drops_out_of_range_edges_witness :
  entry_valid 1 (0, 5) = false /\
  vertices (Graph_fromSerialized (ref_host []) one_vertex_bad_edge) = [0%nat] /\
  edges (Graph_fromSerialized (ref_host []) one_vertex_bad_edge) = [].
Proof.
  assert (Hbad : entry_valid (length [(0, 0)]) (0, 5) = false)
    by (vm_compute; reflexivity).
  destruct (fromSerialized_drops_out_of_range_edges (ref_host [])
              [(0, 0)] [] [] (0, 5) Hbad) as (V & _ & E & _).
  split; [exact Hbad|]. split.
  - exact V.
  - unfold one_vertex_bad_edge. simpl app in E. rewrite E.
    vm_compute. reflexivity.
Defined.

Section Idempotence.

Variable H : Host.

Lemma GraphSerialized_ext (s s' : GraphSerialized) :
  data_vertices s = data_vertices s' -> data_edges s = data_edges s' -> s = s'.
Proof. destruct s, s'; simpl; congruence. Qed.

Lemma map_positions_const_in (c : vec2) (vs : list VertexRef)
  (p : VertexRef -> vec2) (v : VertexRef) :
  In v vs -> fold_left (fun p v => update p v c) vs p v = c.
Proof.
  revert p. induction vs as [|u vs IH]; intros p; simpl; [intros []|].
  intros Hin. destruct (in_dec Nat.eq_dec v vs) as [Hv|Hv]; [apply IH, Hv|].
  destruct Hin as [->|Hin]; [|contradiction].
  assert (Hkeep : forall q, fold_left (fun p v => update p v c) vs q v = q v).
  { clear -Hv. induction vs as [|w vs IH]; intros q; simpl; [reflexivity|].
    rewrite IH by (intros Hin; apply Hv; right; exact Hin).
    unfold update. destruct (Nat.eq_dec v w) as [->|]; [|reflexivity].
    exfalso. apply Hv. left. reflexivity. }
  rewrite Hkeep. unfold update. destruct (Nat.eq_dec v v); congruence.
Qed.

Lemma pushVertices_origin (l : list (float * float)) (g : Graph) :
  Forall (fun p => p = (0, 0)) l ->
  (forall v, pos g v = new_vec2 0 0) ->
  forall v, pos (pushVertices l g) v = new_vec2 0 0.
Proof.
  intros Hl. revert g. induction Hl as [|p l Hp Hl IH]; intros g Hg v; simpl;
    [apply Hg|].
  subst p. apply IH. intros u. simpl. unfold update.
  destruct (Nat.eq_dec u (length (vertices g))); [reflexivity|apply Hg].
Qed.

(** Vertices that are all at the origin stay there. *)
Lemma normalized_origin (l : list (float * float)) :
  Forall (fun p => p = (0, 0)) l -> normalized l = l.
Proof.
  intros Hl. unfold normalized.
  set (g1 := pushVertices l Graph_empty).
  assert (Hpos : forall v, pos g1 v = new_vec2 0 0).
  { apply pushVertices_origin; [exact Hl|reflexivity]. }
  assert (Hvs : vertices g1 = seq 0 (length l)).
  { unfold g1. rewrite pushVertices_vertices. reflexivity. }
  destruct l as [|p l]; [reflexivity|].
  assert (Hfold : forall vs acc,
            acc = (new_vec2 0 0, new_vec2 0 0) ->
            fold_left
              (fun '(min, max) v =>
                 let p := pos g1 v in
                 (new_vec2 (Math_min (x min) (x p)) (Math_min (y min) (y p)),
                  new_vec2 (Math_max (x max) (x p)) (Math_max (y max) (y p))))
              vs acc = (new_vec2 0 0, new_vec2 0 0)).
  { induction vs as [|u vs IH]; intros acc ->; simpl; [reflexivity|].
    apply IH. rewrite Hpos. reflexivity. }
  assert (Hbox : boundingBox g1 = (new_vec2 0 0, new_vec2 0 0)).
  { unfold boundingBox. rewrite Hvs. cbn [length seq fold_left]. apply Hfold.
    rewrite Hpos. reflexivity. }
  assert (Hnorm : normalizeVerticesToGraphSpace g1
                  = map_positions (fun _ => new_vec2 0 0) g1).
  { unfold normalizeVerticesToGraphSpace. rewrite Hvs. cbn [length seq].
    rewrite Hbox. reflexivity. }
  rewrite Hnorm.
  cbn [map_positions vertices pos].
  rewrite Hvs.
  assert (Hall : forall v, In v (seq 0 (length (p :: l))) ->
            fold_left (fun p v => update p v (new_vec2 0 0))
                      (seq 0 (length (p :: l))) (pos g1) v = new_vec2 0 0).
  { intros v Hv. apply map_positions_const_in. exact Hv. }
  revert Hall. generalize (fold_left (fun p v => update p v (new_vec2 0 0))
                              (seq 0 (length (p :: l))) (pos g1)).
  intros q Hq.
  assert (Hgen : forall (m : list (float * float)) k,
            Forall (fun p => p = (0, 0)) m ->
            (forall v, In v (seq k (length m)) -> q v = new_vec2 0 0) ->
            map (fun v => (x (q v), y (q v))) (seq k (length m)) = m).
  { induction m as [|a m IH]; intros k Hm Hq'; simpl; [reflexivity|].
    inversion Hm; subst. rewrite Hq' by (left; reflexivity). simpl.
    f_equal. apply IH; [assumption|].
    intros v Hv. apply Hq'. right. exact Hv. }
  apply Hgen; assumption.
Qed.

(** C10 (as amended).  After one import and export, a second import and
    export reproduces the edge index pairs (no further edge is dropped) and
    the number of vertices; its vertex coordinates are the first ones
    normalized once more, and they are the first ones when the first import
    left every vertex at the origin. *)
Theorem reimport_idempotent_on_edges (s : GraphSerialized) :
  (Z.of_nat (length (data_vertices s)) <= 2 ^ 53)%Z ->
  data_edges (reimport H (reimport H s)) = data_edges (reimport H s) /\
  length (data_vertices (reimport H (reimport H s)))
  = length (data_vertices (reimport H s)) /\
  data_vertices (reimport H (reimport H s))
  = normalized (normalized (data_vertices s)) /\
  (Forall (fun p => p = (0, 0)) (data_vertices (reimport H s)) ->
   reimport H (reimport H s) = reimport H s).
Proof.
  intros Hn.
  destruct (reimport_fields H s) as (V1 & E1).
  destruct (reimport_fields H (reimport H s)) as (V2 & E2).
  assert (Hedges : data_edges (reimport H (reimport H s))
                   = data_edges (reimport H s)).
  { rewrite E2, V1, normalized_length, E1.
    apply loaded_index_pairs; [exact Hn | apply loaded_bound]. }
  repeat split.
  - exact Hedges.
  - rewrite V2, normalized_length. reflexivity.
  - rewrite V2, V1. reflexivity.
  - intros Horigin. apply GraphSerialized_ext; [|exact Hedges].
    rewrite V2. apply normalized_origin. exact Horigin.
Qed.

End Idempotence.

(** One vertex: the first import puts it at the origin and the second
    import returns the same serialized graph. *)
Lemma reimport_idempotent_on_edges_witness :
  reimport (ref_host []) (reimport (ref_host []) one_vertex_bad_edge)
  = reimport (ref_host []) one_vertex_bad_edge.
Proof.
  assert (Hn : (Z.of_nat (length (data_vertices one_vertex_bad_edge)) <= 2 ^ 53)%Z)
    by (vm_compute; discriminate).
  destruct (reimport_idempotent_on_edges (ref_host []) one_vertex_bad_edge Hn)
    as (_ & _ & _ & Hfix).
  apply Hfix. vm_compute. constructor; [reflexivity|constructor].
Defined.

(** C10, counterexample.  For [vertices = [[0,0],[1,3]]] and no edge the
    first import gives (-0.3, -0.8999999999999999) and
    (0.3, 0.8999999999999999); the second import moves them to
    (-0.30000000000000004, -0.9000000000000001) and
    (0.30000000000000004, 0.9000000000000001). *)
Lemma reimport_not_idempotent :
  reimport (ref_host []) (reimport (ref_host []) two_vertices)
  <> reimport (ref_host []) two_vertices.
Proof.
  intros Heq.
  apply (f_equal (fun s => GraphSerialized_eqb s
                             (reimport (ref_host []) two_vertices))) in Heq.
  vm_compute in Heq. discriminate Heq.
Qed.

Section ExportAgain.

Variable H : Host.

Lemma vertexIndices_get_in (vs : list VertexRef) (v : VertexRef) :
  NoDup vs -> In v vs ->
  exists i, (i < length vs)%nat /\ vertexIndices_get vs 0 v = Some i.
Proof.
  intros Hnd Hin. destruct (In_nth_error _ _ Hin) as [i Hi].
  exists i. split.
  - apply nth_error_Some. congruence.
  - apply (vertexIndices_get_nth vs 0 i v Hnd Hi).
Qed.

(** The index pairs [serialize] writes name vertices of the graph. *)
Lemma serialize_edges_in_range (g : Graph) :
  serializable g ->
  exists es,
    data_edges (serialize g) = index_pairs es /\
    length es = length (edges g) /\
    forall e, In e es ->
      (vertex0 e < length (vertices g))%nat /\
      (vertex1 e < length (vertices g))%nat.
Proof.
  intros (Hnd & _ & Hin). unfold serialize. simpl.
  revert Hin. generalize (edges g). intros l.
  induction l as [|e es IH]; intros Hin.
  - exists []. split; [reflexivity|]. split; [reflexivity|]. intros e0 [].
  - destruct IH as (es' & E1 & E2 & E3).
    { intros e' He'. apply Hin. right. exact He'. }
    destruct (Hin e (or_introl eq_refl)) as (I0 & I1).
    destruct (vertexIndices_get_in _ _ Hnd I0) as (i0 & B0 & G0).
    destruct (vertexIndices_get_in _ _ Hnd I1) as (i1 & B1 & G1).
    exists (new_GraphEdge (edgeId e) i0 i1 :: es').
    cbn [flat_map]. rewrite G0, G1, E1.
    split; [reflexivity|]. split; [simpl; congruence|].
    intros e' [<-|He']; [simpl; auto|apply E3; exact He'].
Qed.

(** For every graph whose vertex array holds each vertex once and whose
    edges join vertices of that array, exporting, importing and exporting
    again reproduces the edge index pairs of the first export, and gives the
    vertex coordinates of the first export after normalization. *)
Lemma serializable_export_import_export (g : Graph) :
  serializable g ->
  reimport H (serialize g)
  = mkGraphSerialized (normalized (data_vertices (serialize g)))
                      (data_edges (serialize g)).
Proof.
  intros Hs.
  destruct (reimport_fields H (serialize g)) as (V & E).
  destruct (serialize_edges_in_range g Hs) as (es & E1 & _ & E3).
  apply GraphSerialized_ext; [exact V|].
  change (data_edges (reimport H (serialize g)) = data_edges (serialize g)).
  rewrite E, E1.
  assert (Hlen : length (data_vertices (serialize g)) = length (vertices g)).
  { unfold serialize. simpl. apply length_map. }
  rewrite Hlen. apply loaded_index_pairs; [|exact E3].
  destruct Hs as (_ & Hb & _). exact Hb.
Qed.

(** A graph made by [Graph.fromSerialized] can be exported and imported
    again. *)
Lemma fromSerialized_serializable (data : GraphSerialized) :
  (Z.of_nat (length (data_vertices data)) <= 2 ^ 53)%Z ->
  serializable (Graph_fromSerialized H data).
Proof.
  intros Hn. destruct (Graph_fromSerialized_fields H data) as (F1 & F2 & _).
  unfold serializable. rewrite F1, F2, length_seq. repeat split.
  - apply seq_NoDup.
  - exact Hn.
  - apply in_seq. destruct (loaded_bound _ _ _ _ H0). lia.
  - apply in_seq. destruct (loaded_bound _ _ _ _ H0). lia.
Qed.

Lemma pairs_eqb_refl (l : list (float * float)) : pairs_eqb l l = true.
Proof.
  induction l as [|[a b] l IH]; simpl; [reflexivity|].
  unfold pair_eqb. simpl.
  rewrite (proj2 (FloatAxioms.Leibniz.eqb_spec a a) eq_refl).
  rewrite (proj2 (FloatAxioms.Leibniz.eqb_spec b b) eq_refl).
  exact IH.
Qed.

Lemma GraphSerialized_eqb_refl (s : GraphSerialized) :
  GraphSerialized_eqb s s = true.
Proof. unfold GraphSerialized_eqb. rewrite !pairs_eqb_refl. reflexivity. Qed.

End ExportAgain.

(** C1, counterexample.  Three vertices generated at (-0.9, -0.9),
    (0, -0.9) and (-0.9, 0) keep their three edges; the export has these
    coordinates, and importing it rescales them to (-0.9, -0.9),
    (0.9, -0.9) and (-0.9, 0.9). *)
Lemma export_import_export_changes_coordinates :
  exists G,
    Graph_randomizedWithVertexCount host_triangle 3 = Some G /\
    reimport host_triangle (serialize G) <> serialize G.
Proof.
  assert (Hrun :
    match Graph_randomizedWithVertexCount host_triangle 3 with
    | Some G =>
        GraphSerialized_eqb (reimport host_triangle (serialize G)) (serialize G)
    | None => true
    end = false) by (vm_compute; reflexivity).
  destruct (Graph_randomizedWithVertexCount host_triangle 3) as [G|];
    [|discriminate].
  exists G. split; [reflexivity|].
  intros Heq. rewrite Heq, GraphSerialized_eqb_refl in Hrun. discriminate.
Qed.

(* ================================================================= *)
(** ** The invariant of a graph under construction *)

Section WellFormed.

Variable H : Host.

Lemma in_halfEdges_of_edges (es : list GraphEdge) (h : GraphHalfEdge) :
  In h (halfEdges_of_edges es) <-> In (edge h) es.
Proof.
  unfold halfEdges_of_edges. rewrite in_flat_map. split.
  - intros (e & He & [<-|[<-|[]]]); exact He.
  - intros He. exists (edge h). split; [exact He|].
    destruct h as [e [|]]; simpl; auto.
Qed.

Lemma NoDup_halfEdges_of_edges (es : list GraphEdge) :
  NoDup es -> NoDup (halfEdges_of_edges es).
Proof.
  induction 1 as [|e es Hnotin Hnd IH]; simpl; [constructor|].
  constructor.
  - intros [Heq|Hin]; [discriminate|].
    apply in_halfEdges_of_edges in Hin. exact (Hnotin Hin).
  - constructor; [|exact IH].
    intros Hin. apply in_halfEdges_of_edges in Hin. exact (Hnotin Hin).
Qed.

Lemma halfEdges_of_edges_app (es es' : list GraphEdge) :
  halfEdges_of_edges (es ++ es')
  = halfEdges_of_edges es ++ halfEdges_of_edges es'.
Proof. apply flat_map_app. Qed.

Lemma update_same {B : Type} (f : nat -> B) (v : nat) (b : B) :
  update f v b v = b.
Proof. unfold update. destruct (Nat.eq_dec v v); congruence. Qed.

Lemma update_other {B : Type} (f : nat -> B) (v u : nat) (b : B) :
  u <> v -> update f v b u = f u.
Proof. unfold update. destruct (Nat.eq_dec u v); congruence. Qed.

Lemma Graph_empty_wellFormed : wellFormed Graph_empty /\ unlinked Graph_empty.
Proof.
  split; [|split; reflexivity].
  constructor; simpl; try constructor; try reflexivity; try tauto.
Qed.

(** [registerEdge] of an edge that is not in the graph, between two of its
    vertices. *)
Lemma registerEdge_wellFormed (g : Graph) (e : GraphEdge) :
  wellFormed g -> ~ In e (edges g) ->
  In (vertex0 e) (vertices g) -> In (vertex1 e) (vertices g) ->
  wellFormed (registerEdge g e).
Proof.
  intros [W1 W2 W3 W4 W5] Hfresh H0 H1.
  constructor; simpl.
  - exact W1.
  - apply NoDup_app; [exact W2|constructor; [intros []|constructor]|].
    intros a Ha [<-|[]]. exact (Hfresh Ha).
  - rewrite halfEdges_of_edges_app, W3. reflexivity.
  - intros v a. rewrite in_app_iff. simpl.
    destruct (Nat.eq_dec v (vertex1 e)) as [->|N1].
    + rewrite update_same.
      destruct (Nat.eq_dec (vertex1 e) (vertex0 e)) as [E01|N0].
      * rewrite E01, update_same, !in_app_iff, W4. simpl.
        intuition (subst; auto; congruence).
      * rewrite update_other by exact N0. rewrite in_app_iff, W4. simpl.
        intuition (subst; auto; congruence).
    + rewrite update_other by exact N1.
      destruct (Nat.eq_dec v (vertex0 e)) as [->|N0].
      * rewrite update_same, in_app_iff, W4. simpl.
        intuition (subst; auto; congruence).
      * rewrite update_other by exact N0. rewrite W4.
        intuition (subst; auto; congruence).
  - intros a. rewrite in_app_iff. intros [Ha|[<-|[]]]; auto.
Qed.

Lemma registerEdge_unlinked (g : Graph) (e : GraphEdge) :
  unlinked g -> unlinked (registerEdge g e).
Proof. intros (N & F). split; assumption. Qed.

Lemma sort_insert_Permutation {A : Type} (cmp : A -> A -> float) (a : A)
  (l : list A) : Permutation (a :: l) (sort_insert cmp a l).
Proof.
  induction l as [|b l IH]; simpl; [apply Permutation_refl|].
  destruct (0 <? cmp a b); [|apply Permutation_refl].
  eapply Permutation_trans; [apply perm_swap|].
  apply perm_skip. exact IH.
Qed.

(** [Array.prototype.sort] permutes the array. *)
Lemma Array_sort_Permutation {A : Type} (cmp : A -> A -> float) (l : list A) :
  Permutation l (Array_sort cmp l).
Proof.
  induction l as [|a l IH]; simpl; [constructor|].
  eapply Permutation_trans; [apply perm_skip; exact IH|].
  apply sort_insert_Permutation.
Qed.

Lemma sortEdgesCCW_vertexEdges (g : Graph) (v u : VertexRef) :
  Permutation (vertexEdges g u) (vertexEdges (sortEdgesCCW H g v) u).
Proof.
  simpl. unfold update. destruct (Nat.eq_dec u v) as [->|];
    [apply Array_sort_Permutation|apply Permutation_refl].
Qed.

Lemma sortEdgesCCW_wellFormed (g : Graph) (v : VertexRef) :
  wellFormed g -> wellFormed (sortEdgesCCW H g v).
Proof.
  intros [W1 W2 W3 W4 W5]. constructor; simpl; try assumption.
  intros u a. rewrite <- W4. split; apply Permutation_in;
    [apply Permutation_sym|]; apply (sortEdgesCCW_vertexEdges g v u).
Qed.

Lemma sort_all_wellFormed (g : Graph) (vs : list VertexRef) :
  wellFormed g -> wellFormed (fold_left (sortEdgesCCW H) vs g).
Proof.
  apply (fold_left_invariant _ wellFormed).
  intros a b. apply sortEdgesCCW_wellFormed.
Qed.

Lemma sort_all_unlinked (g : Graph) (vs : list VertexRef) :
  unlinked g -> unlinked (fold_left (sortEdgesCCW H) vs g).
Proof.
  apply (fold_left_invariant _ unlinked). intros a b Ha. exact Ha.
Qed.

End WellFormed.

Section Deserialized.

Variable H : Host.

Lemma wellFormed_no_edges (g : Graph) :
  NoDup (vertices g) -> edges g = [] -> halfEdges g = [] ->
  (forall v, vertexEdges g v = []) -> wellFormed g.
Proof.
  intros Hnd He Hh Hve. constructor.
  - exact Hnd.
  - rewrite He. constructor.
  - rewrite He, Hh. reflexivity.
  - intros v e. rewrite Hve, He. simpl. tauto.
  - intros e. rewrite He. intros [].
Qed.

Lemma pushVertices_heap (l : list (float * float)) (g : Graph) :
  (forall v, vertexEdges g v = []) -> unlinked g ->
  (forall v, vertexEdges (pushVertices l g) v = []) /\
  unlinked (pushVertices l g).
Proof.
  revert g. induction l as [|[px py] l IH]; intros g Hve Hun; simpl;
    [split; assumption|].
  apply IH.
  - intros v. simpl. unfold update. destruct (Nat.eq_dec _ _); auto.
  - exact Hun.
Qed.

Lemma map_positions_wellFormed (f : vec2 -> vec2) (g : Graph) :
  (wellFormed g -> wellFormed (map_positions f g)) /\
  (unlinked g -> unlinked (map_positions f g)).
Proof.
  split.
  - intros [W1 W2 W3 W4 W5]. constructor; assumption.
  - intros Hun. exact Hun.
Qed.

Lemma normalize_wellFormed (g : Graph) :
  (wellFormed g -> wellFormed (normalizeVerticesToGraphSpace g)) /\
  (unlinked g -> unlinked (normalizeVerticesToGraphSpace g)).
Proof.
  unfold normalizeVerticesToGraphSpace.
  destruct (vertices g); [tauto|].
  destruct (boundingBox g) as [mn mx]. unfold normalizeWith.
  destruct (_ && _)%bool; [apply map_positions_wellFormed|].
  destruct (_ || _)%bool; apply map_positions_wellFormed.
Qed.

Lemma js_get_In {A : Type} (l : list A) (i : float) (a : A) :
  js_get l i = Some a -> In a l.
Proof.
  unfold js_get. destruct (to_index i); [|discriminate].
  destruct (_ <? _)%Z; [|discriminate]. apply nth_error_In.
Qed.

Lemma loadEdges_wellFormed (entries : list (float * float)) (g : Graph)
  (id : nat) :
  wellFormed g -> unlinked g ->
  (forall e, In e (edges g) -> (edgeId e < id)%nat) ->
  wellFormed (loadEdges g id entries) /\ unlinked (loadEdges g id entries).
Proof.
  revert g id. induction entries as [|[i0 i1] rest IH]; intros g id W U Hid;
    cbn [loadEdges]; [split; assumption|].
  destruct (js_get (vertices g) i0) as [v0|] eqn:E0; [|apply IH; assumption].
  destruct (js_get (vertices g) i1) as [v1|] eqn:E1; [|apply IH; assumption].
  apply IH.
  - apply registerEdge_wellFormed; [exact W| |eapply js_get_In; exact E0
                                    |eapply js_get_In; exact E1].
    intros Hin. apply Hid in Hin. simpl in Hin. lia.
  - apply registerEdge_unlinked. exact U.
  - intros e. simpl. rewrite in_app_iff. intros [He|[<-|[]]].
    + apply Hid in He. lia.
    + simpl. lia.
Qed.

(** The graph [loadFromSerialized] leaves for [buildFaces]. *)
Lemma loadFromSerialized_wellFormed (data : GraphSerialized) :
  wellFormed (loadFromSerialized H data Graph_empty) /\
  unlinked (loadFromSerialized H data Graph_empty).
Proof.
  unfold loadFromSerialized.
  set (g1 := pushVertices (data_vertices data) Graph_empty).
  assert (W1 : wellFormed g1 /\ unlinked g1).
  { destruct (pushVertices_heap (data_vertices data) Graph_empty) as (Hve & Hun).
    - reflexivity.
    - split; reflexivity.
    - split; [|exact Hun].
      destruct (pushVertices_edges (data_vertices data) Graph_empty) as (E & Hh).
      apply wellFormed_no_edges; try assumption.
      unfold g1. rewrite pushVertices_vertices. simpl. apply seq_NoDup. }
  destruct W1 as (W1 & U1).
  set (g2 := normalizeVerticesToGraphSpace g1).
  assert (W2 : wellFormed g2) by (apply normalize_wellFormed; exact W1).
  assert (U2 : unlinked g2) by (apply normalize_wellFormed; exact U1).
  destruct (loadEdges_wellFormed (data_edges data) g2 0 W2 U2) as (W3 & U3).
  { intros e He. exfalso.
    destruct (normalize_arrays g1) as (_ & E & _). fold g2 in E.
    destruct (pushVertices_edges (data_vertices data) Graph_empty) as (E' & _).
    fold g1 in E'. rewrite E, E' in He. exact He. }
  split; [apply sort_all_wellFormed|apply sort_all_unlinked]; assumption.
Qed.

End Deserialized.

(* ================================================================= *)
(** ** Half-edge linking and face extraction *)

Section FaceExtraction.

Variable H : Host.

Lemma outgoing_of_edge (g : Graph) (v : VertexRef) (h : GraphHalfEdge) :
  In h (outgoing_of g v) -> In (edge h) (vertexEdges g v).
Proof.
  unfold outgoing_of. rewrite in_map_iff. intros (e & <- & He).
  destruct (vertex0 e =? v)%nat; exact He.
Qed.

(** After linking, [next] leads to half-edges of the graph. *)
Lemma link_closed (g : Graph) :
  wellFormed g -> unlinked g ->
  forall h h', next (linkHalfEdgesAroundVertices g) h = Some h' ->
               In h' (halfEdges g).
Proof.
  intros W (Hnext & _).
  pose (P := fun a : Graph =>
               vertexEdges a = vertexEdges g /\
               forall h h', next a h = Some h' -> In h' (halfEdges g)).
  assert (HP : P (linkHalfEdgesAroundVertices g)).
  { unfold linkHalfEdgesAroundVertices. apply (fold_left_invariant _ P).
    - intros a v (Hve & Hcl). unfold linkVertex.
      destruct (_ <? 2)%nat; [split; assumption|].
      apply (fold_left_invariant _ P); [|split; assumption].
      intros b i (Hve' & Hcl'). unfold linkStep.
      destruct (nth_error (outgoing_of a v) i) as [current|];
        [|split; assumption].
      destruct (nth_error (outgoing_of a v) _) as [prev|] eqn:Eprev;
        [|split; assumption].
      split; [exact Hve'|]. intros h h'. simpl. unfold update_halfEdge.
      destruct (GraphHalfEdge_eq_dec h (twin current)); [|apply Hcl'].
      intros [= <-]. apply nth_error_In in Eprev.
      apply outgoing_of_edge in Eprev. rewrite Hve in Eprev.
      apply (wf_vertexEdges g W) in Eprev. destruct Eprev as (Hin & _).
      rewrite (wf_halfEdges g W). apply in_halfEdges_of_edges. exact Hin.
    - split; [reflexivity|]. intros h h'. rewrite Hnext. discriminate. }
  exact (proj2 HP).
Qed.

Lemma includes_true {A : Type} (dec : forall a b : A, {a = b} + {a <> b})
  (l : list A) (a : A) : includes dec l a = true <-> In a l.
Proof.
  unfold includes. destruct (in_dec dec a l); split; auto; discriminate.
Qed.

Lemma includes_false {A : Type} (dec : forall a b : A, {a = b} + {a <> b})
  (l : list A) (a : A) : includes dec l a = false <-> ~ In a l.
Proof.
  unfold includes. destruct (in_dec dec a l); split; auto; try discriminate.
  intros Hn. contradiction.
Qed.

(** What the walk of [buildFaces] collects: half-edges without a face, each
    once, all of them half-edges of the graph. *)
Lemma traverse_collects (g : Graph) (L : list GraphHalfEdge)
  (start : GraphHalfEdge) :
  (forall h h', next g h = Some h' -> In h' L) ->
  forall fuel cur acc hs closed,
    traverse fuel g start cur acc = Some (hs, closed) ->
    NoDup acc -> (forall h, In h acc -> face g h = None /\ In h L) ->
    (forall c, cur = Some c -> In c L) ->
    NoDup hs /\ (forall h, In h hs -> face g h = None /\ In h L).
Proof.
  intros Hcl. induction fuel as [|fuel IH]; intros cur acc hs closed.
  - destruct cur; simpl; [discriminate|]. intros [= <- <-]. auto.
  - destruct cur as [c|]; simpl; [|intros [= <- <-]; auto].
    destruct (includes GraphHalfEdge_eq_dec acc c) eqn:Einc;
      [intros [= <- <-]; auto|].
    destruct (face g c) eqn:Eface; [intros [= <- <-]; auto|].
    intros Hrun Hnd Hacc Hcur.
    assert (Hnd' : NoDup (acc ++ [c])).
    { apply NoDup_app; [exact Hnd|constructor; [intros []|constructor]|].
      intros a Ha [<-|[]]. apply includes_false in Einc. exact (Einc Ha). }
    assert (Hacc' : forall h, In h (acc ++ [c]) -> face g h = None /\ In h L).
    { intros h Hin. apply in_app_iff in Hin. destruct Hin as [Hin|[<-|[]]].
      - apply Hacc. exact Hin.
      - split; [exact Eface|apply Hcur; reflexivity]. }
    destruct (next g c) as [n|] eqn:Enext; [|injection Hrun as <- <-; auto].
    destruct (same_halfEdge n start); [injection Hrun as <- <-; auto|].
    apply (IH _ _ _ _ Hrun Hnd' Hacc').
    intros c' [= <-]. eapply Hcl. exact Enext.
Qed.

(** The walk stops before its bound: it meets a half-edge again, or one
    with a face, or the end of the chain, after at most as many rounds as
    the graph has half-edges. *)
Lemma traverse_terminates (g : Graph) (L : list GraphHalfEdge)
  (start : GraphHalfEdge) :
  (forall h h', next g h = Some h' -> In h' L) ->
  forall fuel cur acc,
    NoDup acc -> (forall h, In h acc -> In h L) ->
    (forall c, cur = Some c -> In c L) ->
    (length L < fuel + length acc)%nat ->
    traverse fuel g start cur acc <> None.
Proof.
  intros Hcl. induction fuel as [|fuel IH]; intros cur acc Hnd Hacc Hcur Hlen.
  - exfalso. pose proof (NoDup_incl_length Hnd Hacc). lia.
  - destruct cur as [c|]; simpl; [|discriminate].
    destruct (includes GraphHalfEdge_eq_dec acc c) eqn:Einc; [discriminate|].
    destruct (face g c); [discriminate|].
    destruct (next g c) as [n|] eqn:Enext; [|discriminate].
    destruct (same_halfEdge n start); [discriminate|].
    apply IH.
    + apply NoDup_app; [exact Hnd|constructor; [intros []|constructor]|].
      intros a Ha [<-|[]]. apply includes_false in Einc. exact (Einc Ha).
    + intros h Hin. apply in_app_iff in Hin. destruct Hin as [Hin|[<-|[]]].
      * apply Hacc. exact Hin.
      * apply Hcur. reflexivity.
    + intros c' [= <-]. eapply Hcl. exact Enext.
    + rewrite length_app. simpl. lia.
Qed.

Lemma stamp_face (g : Graph) (hs : list GraphHalfEdge) (f : FaceRef)
  (h : GraphHalfEdge) :
  face (stamp g hs f) h = if in_dec GraphHalfEdge_eq_dec h hs then Some f
                          else face g h.
Proof.
  unfold stamp. simpl. generalize (face g). induction hs as [|a hs IH];
    intros m; simpl; [reflexivity|].
  rewrite IH. unfold update_halfEdge.
  destruct (in_dec GraphHalfEdge_eq_dec h hs) as [Hin|Hnin].
  - destruct (GraphHalfEdge_eq_dec a h); reflexivity.
  - destruct (GraphHalfEdge_eq_dec a h) as [->|Hne].
    + destruct (GraphHalfEdge_eq_dec h h); congruence.
    + destruct (GraphHalfEdge_eq_dec h a); congruence.
Qed.

(** One round of the loop of [buildFaces] keeps its invariant. *)
Lemma buildFace_agree (g : Graph) (fs : list GraphFace) (k : nat)
  (h : GraphHalfEdge) :
  (forall a b, next g a = Some b -> In b (halfEdges g)) ->
  In h (halfEdges g) ->
  faces_agree g fs ->
  let '(g', fs', _) := buildFace H (g, fs, k) h in faces_agree g' fs'.
Proof.
  intros Hcl Hin (A1 & A2). unfold buildFace.
  destruct (face g h) eqn:Ef; [split; assumption|].
  destruct (traverse _ g h (Some h) []) as [[hs closed]|] eqn:Et;
    [|split; assumption].
  destruct closed; [|split; assumption].
  destruct (computeFaceArea g hs <=? 0); [split; assumption|].
  destruct (generateFaceColor H k) as [c k'].
  destruct (traverse_collects g (halfEdges g) h Hcl _ _ _ _ _ Et)
    as (Hnd & Hhs).
  { constructor. }
  { intros a []. }
  { intros c0 [= <-]. exact Hin. }
  split.
  - intros a f. rewrite stamp_face.
    destruct (in_dec GraphHalfEdge_eq_dec a hs) as [Ha|Ha].
    + split.
      * intros [= <-]. exists (new_GraphFace hs c). split; [|exact Ha].
        rewrite nth_error_app2 by lia. rewrite Nat.sub_diag. reflexivity.
      * intros (F & HF & HaF).
        destruct (Nat.lt_ge_cases f (length fs)) as [Hlt|Hge].
        -- rewrite nth_error_app1 in HF by exact Hlt.
           assert (Hsome : face g a = Some f) by (apply A1; eauto).
           destruct (Hhs a Ha) as (Hnone & _). congruence.
        -- rewrite nth_error_app2 in HF by exact Hge.
           destruct (f - length fs)%nat as [|d] eqn:Ed;
             [f_equal; lia|destruct d; discriminate].
    + rewrite A1. split.
      * intros (F & HF & HaF). exists F. split; [|exact HaF].
        rewrite nth_error_app1; [exact HF|].
        apply nth_error_Some. congruence.
      * intros (F & HF & HaF).
        destruct (Nat.lt_ge_cases f (length fs)) as [Hlt|Hge].
        -- rewrite nth_error_app1 in HF by exact Hlt. eauto.
        -- rewrite nth_error_app2 in HF by exact Hge.
           destruct (f - length fs)%nat as [|d];
             [|destruct d; discriminate].
           injection HF as <-. contradiction.
  - intros f F HF.
    destruct (Nat.lt_ge_cases f (length fs)) as [Hlt|Hge].
    + rewrite nth_error_app1 in HF by exact Hlt. apply A2 in HF. exact HF.
    + rewrite nth_error_app2 in HF by exact Hge.
      destruct (f - length fs)%nat as [|d]; [|destruct d; discriminate].
      injection HF as <-. simpl. split; [exact Hnd|].
      intros a Ha. apply Hhs. exact Ha.
Qed.

End FaceExtraction.

Section Partition.

Variable H : Host.

Lemma NoDup_concat_disjoint {A : Type} (ls : list (list A)) :
  (forall l, In l ls -> NoDup l) ->
  (forall i j li lj a,
      nth_error ls i = Some li -> nth_error ls j = Some lj ->
      In a li -> In a lj -> i = j) ->
  NoDup (concat ls).
Proof.
  induction ls as [|l ls IH]; intros Hnd Hdis; simpl; [constructor|].
  apply NoDup_app.
  - apply Hnd. left. reflexivity.
  - apply IH.
    + intros l' Hl'. apply Hnd. right. exact Hl'.
    + intros i j li lj a Hi Hj Hali Halj.
      assert (S i = S j) by (eapply (Hdis (S i) (S j)); eassumption).
      lia.
  - intros a Ha Hc. apply in_concat in Hc. destruct Hc as (l' & Hl' & Hal').
    destruct (In_nth_error _ _ Hl') as [j Hj].
    assert (O = S j) by (eapply (Hdis O (S j) l l' a); simpl; eauto).
    discriminate.
Qed.

Lemma on_boundary_nth (g : Graph) (f : FaceRef) (h : GraphHalfEdge) :
  on_boundary g f h <->
  exists F, nth_error (faces g) f = Some F /\ In h (face_halfEdges F).
Proof.
  unfold on_boundary, halfEdges_of. destruct (nth_error (faces g) f) as [F|].
  - split; [eauto|]. intros (F' & [= <-] & Hin). exact Hin.
  - split; [intros []|]. intros (F' & Hn & _). discriminate.
Qed.

(** The loop of [buildFaces], from a linked graph. *)
Lemma buildFaces_loop_agree (l : list GraphHalfEdge) (g : Graph)
  (fs : list GraphFace) (k : nat) :
  (forall a b, next g a = Some b -> In b (halfEdges g)) ->
  (forall h, In h l -> In h (halfEdges g)) ->
  faces_agree g fs ->
  let '(g', fs', _) := fold_left (buildFace H) l (g, fs, k) in
  faces_agree g' fs' /\ halfEdges g' = halfEdges g /\ next g' = next g /\
  edges g' = edges g.
Proof.
  revert g fs k. induction l as [|h l IH]; intros g fs k Hcl Hl Hag;
    cbn [fold_left].
  - split; [exact Hag|repeat split].
  - pose proof (buildFace_agree H g fs k h Hcl (Hl h (or_introl eq_refl)) Hag)
      as Hstep.
    pose proof (buildFace_frame H (g, fs, k) h) as ((_ & Fe & Fh & _) & _ & Fn).
    destruct (buildFace H (g, fs, k) h) as [[g1 fs1] k1]. simpl in Fe, Fh, Fn.
    specialize (IH g1 fs1 k1).
    destruct (fold_left (buildFace H) l (g1, fs1, k1)) as [[g' fs'] k'].
    destruct IH as (I1 & I2 & I3 & I4).
    + intros a b. rewrite Fn, Fh. apply Hcl.
    + intros a Ha. rewrite Fh. apply Hl. right. exact Ha.
    + exact Hstep.
    + cbv beta iota. split; [exact I1|]. repeat split; congruence.
Qed.

(** After [buildFaces] on a well-formed graph without links: the faces and
    the [face] fields agree, and the arrays are those of the graph. *)
Lemma buildFaces_agree (k : nat) (g : Graph) :
  wellFormed g -> unlinked g ->
  let G := fst (buildFaces H k g) in
  faces_agree G (faces G) /\ halfEdges G = halfEdges g /\ edges G = edges g /\
  NoDup (halfEdges G).
Proof.
  intros W U. cbv zeta. unfold buildFaces.
  pose proof (link_closed g W U) as Hcl.
  destruct (linkHalfEdgesAroundVertices_frame g) as ((_ & Le & Lh & _) & _ & Lf).
  set (g1 := linkHalfEdgesAroundVertices g) in *.
  pose proof (buildFaces_loop_agree (halfEdges g1) g1 [] k) as Hloop.
  destruct (fold_left (buildFace H) (halfEdges g1) (g1, [], k))
    as [[g2 fs] k'].
  destruct Hloop as ((A1 & A2) & Hh & Hn & He).
  - intros a b. rewrite Lh. apply Hcl.
  - auto.
  - split.
    + intros h f. rewrite Lf, (proj2 U). split; [discriminate|].
      intros (F & HF & _). destruct f; discriminate.
    + intros f F HF. destruct f; discriminate.
  - simpl. split; [split; assumption|].
    split; [congruence|]. split; [congruence|].
    rewrite Hh, Lh, (wf_halfEdges g W).
    apply NoDup_halfEdges_of_edges, (wf_edges g W).
Qed.

(** Each walk of [buildFaces] ends within its bound. *)
Lemma buildFaces_walk_terminates (g : Graph) (h : GraphHalfEdge) :
  (forall a b, next g a = Some b -> In b (halfEdges g)) ->
  In h (halfEdges g) ->
  traverse (S (length (halfEdges g))) g h (Some h) [] <> None.
Proof.
  intros Hcl Hin. apply (traverse_terminates g (halfEdges g) h Hcl).
  - constructor.
  - intros a [].
  - intros c [= <-]. exact Hin.
  - simpl. lia.
Qed.

(** The half-edge partition of a graph whose faces and [face] fields
    agree. *)
Lemma faces_agree_partition (G : Graph) :
  faces_agree G (faces G) -> NoDup (halfEdges G) ->
  (forall f1 f2 h, on_boundary G f1 h -> on_boundary G f2 h -> f1 = f2) /\
  (forall f, NoDup (halfEdges_of G f)) /\
  (forall h f, face G h = Some f <-> on_boundary G f h) /\
  Permutation (halfEdges G)
              (concat (map face_halfEdges (faces G)) ++ unassigned G).
Proof.
  intros (A1 & A2) Hnd.
  assert (P3 : forall h f, face G h = Some f <-> on_boundary G f h).
  { intros h f. rewrite on_boundary_nth. apply A1. }
  assert (P1 : forall f1 f2 h,
            on_boundary G f1 h -> on_boundary G f2 h -> f1 = f2).
  { intros f1 f2 h B1 B2. apply P3 in B1, B2. congruence. }
  assert (P2 : forall f, NoDup (halfEdges_of G f)).
  { intros f. unfold halfEdges_of.
    destruct (nth_error (faces G) f) as [F|] eqn:EF; [|constructor].
    apply (A2 f F EF). }
  repeat split; try assumption; try (apply P3).
  apply NoDup_Permutation.
  - exact Hnd.
  - apply NoDup_app.
    + apply NoDup_concat_disjoint.
      * intros l Hl. apply in_map_iff in Hl. destruct Hl as (F & <- & HF).
        destruct (In_nth_error _ _ HF) as [f Hf]. apply (A2 f F Hf).
      * intros i j li lj a Hi Hj Hai Haj.
        rewrite nth_error_map in Hi, Hj.
        destruct (nth_error (faces G) i) as [Fi|] eqn:Ei; [|discriminate].
        destruct (nth_error (faces G) j) as [Fj|] eqn:Ej; [|discriminate].
        simpl in Hi, Hj. injection Hi as <-. injection Hj as <-.
        apply (P1 i j a); apply on_boundary_nth; eauto.
    + apply NoDup_filter. exact Hnd.
    + intros a Ha Hu. apply in_concat in Ha. destruct Ha as (l & Hl & Hal).
      apply in_map_iff in Hl. destruct Hl as (F & <- & HF).
      destruct (In_nth_error _ _ HF) as [f Hf].
      assert (Hsome : face G a = Some f) by (apply A1; eauto).
      unfold unassigned in Hu. apply filter_In in Hu. rewrite Hsome in Hu.
      destruct Hu; discriminate.
  - intros a. rewrite in_app_iff. split.
    + intros Ha. destruct (face G a) as [f|] eqn:Ef.
      * left. apply A1 in Ef. destruct Ef as (F & HF & HaF).
        apply in_concat. exists (face_halfEdges F). split; [|exact HaF].
        apply in_map. eapply nth_error_In. exact HF.
      * right. unfold unassigned. apply filter_In. rewrite Ef. auto.
    + intros [Ha|Ha].
      * apply in_concat in Ha. destruct Ha as (l & Hl & Hal).
        apply in_map_iff in Hl. destruct Hl as (F & <- & HF).
        destruct (In_nth_error _ _ HF) as [f Hf]. apply (A2 f F Hf). exact Hal.
      * unfold unassigned in Ha. apply filter_In in Ha. apply Ha.
Qed.

End Partition.

(* ================================================================= *)
(** ** Neighboring faces and shell layers *)

Section ShellLayers.

Variable g : Graph.

Lemma Set_add_In (s : list nat) (f x : nat) :
  In x (Set_add s f) <-> In x s \/ x = f.
Proof.
  unfold Set_add. destruct (in_dec Nat.eq_dec f s) as [Hin|Hnin].
  - split; [auto|]. intros [Hx| ->]; assumption.
  - rewrite in_app_iff. simpl. intuition congruence.
Qed.

Lemma Set_add_NoDup (s : list nat) (f : nat) : NoDup s -> NoDup (Set_add s f).
Proof.
  intros Hnd. unfold Set_add. destruct (in_dec Nat.eq_dec f s); [exact Hnd|].
  apply NoDup_app; [exact Hnd|constructor; [intros []|constructor]|].
  intros a Ha [<-|[]]. contradiction.
Qed.

(** [neighboringFaces] lists, each once, the faces that neighbor [y]
    through a twin. *)
Lemma neighboringFaces_spec (y : FaceRef) :
  NoDup (neighboringFaces g y) /\
  forall x, In x (neighboringFaces g y) <-> neighbor_via_twin g y x.
Proof.
  unfold neighboringFaces, neighbor_via_twin.
  set (step := fun (neighbors : list nat) (halfEdge : GraphHalfEdge) =>
                 match face g halfEdge with
                 | Some owner =>
                     if (owner =? y)%nat then
                       match face g (twin halfEdge) with
                       | Some neighbor =>
                           if (neighbor =? y)%nat then neighbors
                           else Set_add neighbors neighbor
                       | None => neighbors
                       end
                     else neighbors
                 | None => neighbors
                 end).
  assert (Hgen : forall l acc,
            NoDup acc ->
            NoDup (fold_left step l acc) /\
            forall x, In x (fold_left step l acc) <->
                      In x acc \/
                      exists h, In h l /\ face g h = Some y /\
                                face g (twin h) = Some x /\ x <> y).
  { induction l as [|h l IH]; intros acc Hnd; simpl.
    - split; [exact Hnd|]. intros x. split; [auto|].
      intros [Hx|(h & [] & _)]. exact Hx.
    - assert (Hstep : NoDup (step acc h) /\
                      forall x, In x (step acc h) <->
                                In x acc \/
                                (face g h = Some y /\
                                 face g (twin h) = Some x /\ x <> y)).
      { unfold step. destruct (face g h) as [owner|] eqn:Eo.
        - destruct (Nat.eqb_spec owner y) as [->|Hne].
          + destruct (face g (twin h)) as [nb|] eqn:En.
            * destruct (Nat.eqb_spec nb y) as [->|Hne'].
              -- split; [exact Hnd|]. intros x. split; [auto|].
                 intros [Hx|(_ & [= <-] & Hxy)]; [exact Hx|congruence].
              -- split; [apply Set_add_NoDup; exact Hnd|].
                 intros x. rewrite Set_add_In. split.
                 ++ intros [Hx| ->]; auto.
                 ++ intros [Hx|(_ & [= <-] & _)]; auto.
            * split; [exact Hnd|]. intros x. split; [auto|].
              intros [Hx|(_ & Hd & _)]; [exact Hx|discriminate].
          + split; [exact Hnd|]. intros x. split; [auto|].
            intros [Hx|([= Hd] & _)]; [exact Hx|congruence].
        - split; [exact Hnd|]. intros x. split; [auto|].
          intros [Hx|(Hd & _)]; [exact Hx|discriminate]. }
      destruct Hstep as (Hnd' & Hin').
      destruct (IH (step acc h) Hnd') as (I1 & I2).
      split; [exact I1|]. intros x. rewrite I2, Hin'. split.
      + intros [[Hx|(A & B & C)]|(h' & Hh' & A & B & C)]; eauto 8.
      + intros [Hx|(h' & [<-|Hh'] & A & B & C)]; eauto 8. }
  destruct (Hgen (halfEdges_of g y) [] (NoDup_nil _)) as (G1 & G2).
  split; [exact G1|]. intros x. rewrite G2. simpl. split.
  - intros [[]|Hex]. exact Hex.
  - auto.
Qed.

(** The next frontier: the neighbors of the frontier that were not visited,
    each once. *)
Lemma nextFrontier_of_spec (visited frontier : list FaceRef) :
  NoDup (nextFrontier_of g visited frontier) /\
  forall x, In x (nextFrontier_of g visited frontier) <->
            (exists y, In y frontier /\ neighbor_via_twin g y x) /\
            ~ In x visited.
Proof.
  unfold nextFrontier_of.
  set (inner := fun (nextFrontier : list nat) (neighbor : nat) =>
                  if includes Nat.eq_dec visited neighbor then nextFrontier
                  else if includes Nat.eq_dec nextFrontier neighbor
                       then nextFrontier
                       else nextFrontier ++ [neighbor]).
  assert (Hinner : forall l acc,
            NoDup acc ->
            NoDup (fold_left inner l acc) /\
            forall x, In x (fold_left inner l acc) <->
                      In x acc \/ (In x l /\ ~ In x visited)).
  { induction l as [|n l IH]; intros acc Hnd; simpl.
    - split; [exact Hnd|]. intros x. tauto.
    - assert (Hstep : NoDup (inner acc n) /\
                      forall x, In x (inner acc n) <->
                                In x acc \/ (x = n /\ ~ In x visited)).
      { unfold inner.
        destruct (includes Nat.eq_dec visited n) eqn:Ev.
        - apply includes_true in Ev. split; [exact Hnd|].
          intros x. split; [auto|]. intros [Hx|(-> & Hn)]; tauto.
        - apply includes_false in Ev.
          destruct (includes Nat.eq_dec acc n) eqn:Ea.
          + apply includes_true in Ea. split; [exact Hnd|].
            intros x. split; [auto|]. intros [Hx|(-> & _)]; assumption.
          + apply includes_false in Ea. split.
            * apply NoDup_app; [exact Hnd|constructor; [intros []|constructor]|].
              intros a Ha [<-|[]]. contradiction.
            * intros x. rewrite in_app_iff. simpl. split.
              -- intros [Hx|[<-|[]]]; auto.
              -- intros [Hx|(-> & _)]; auto. }
      destruct Hstep as (Hnd' & Hin').
      destruct (IH (inner acc n) Hnd') as (I1 & I2).
      split; [exact I1|]. intros x. rewrite I2, Hin'. split.
      + intros [[Hx|(-> & Hn)]|(Hx & Hn)]; auto.
      + intros [Hx|([<-|Hx] & Hn)]; auto. }
  assert (Houter : forall l acc,
            NoDup acc ->
            NoDup (fold_left
                     (fun nf f => fold_left inner (neighboringFaces g f) nf)
                     l acc) /\
            forall x, In x (fold_left
                              (fun nf f =>
                                 fold_left inner (neighboringFaces g f) nf)
                              l acc) <->
                      In x acc \/
                      ((exists y, In y l /\ neighbor_via_twin g y x) /\
                       ~ In x visited)).
  { induction l as [|f l IH]; intros acc Hnd; simpl.
    - split; [exact Hnd|]. intros x. split; [auto|].
      intros [Hx|((y & [] & _) & _)]. exact Hx.
    - destruct (Hinner (neighboringFaces g f) acc Hnd) as (J1 & J2).
      destruct (IH _ J1) as (I1 & I2).
      split; [exact I1|]. intros x. rewrite I2, J2.
      rewrite (proj2 (neighboringFaces_spec f) x). split.
      + intros [[Hx|(Hn & Hv)]|((y & Hy & Hn) & Hv)]; eauto 8.
      + intros [Hx|((y & [<-|Hy] & Hn) & Hv)]; eauto 8. }
  destruct (Houter frontier [] (NoDup_nil _)) as (O1 & O2).
  split; [exact O1|]. intros x. rewrite O2. simpl. tauto.
Qed.

End ShellLayers.

Section BreadthFirst.

Variable g : Graph.
Variable this : FaceRef.

Hypothesis neighbors_valid :
  forall y x, neighbor_via_twin g y x -> (x < length (faces g))%nat.

Lemma concat_snoc {A : Type} (ls : list (list A)) (l : list A) :
  concat (ls ++ [l]) = concat ls ++ l.
Proof. rewrite concat_app. simpl. rewrite app_nil_r. reflexivity. Qed.

Lemma NoDup_bounded_length (l : list nat) (n : nat) :
  NoDup l -> Forall (fun x => x < n)%nat l -> (length l <= n)%nat.
Proof.
  intros Hnd Hb.
  assert (Hincl : incl l (seq 0 n)).
  { intros a Ha. apply in_seq. rewrite Forall_forall in Hb.
    specialize (Hb a Ha). lia. }
  pose proof (NoDup_incl_length Hnd Hincl) as Hl.
  rewrite length_seq in Hl. exact Hl.
Qed.

(** One round of the loop keeps the state. *)
Lemma bfs_round (layers : list (list FaceRef)) (frontier : list FaceRef) :
  bfs_state g this layers frontier -> frontier <> [] ->
  bfs_state g this (layers ++ [frontier])
            (nextFrontier_of g (concat layers ++ frontier) frontier).
Proof.
  intros (S1 & S2 & S3 & S4 & S5) Hne.
  destruct (nextFrontier_of_spec g (concat layers ++ frontier) frontier)
    as (N1 & N2).
  set (nf := nextFrontier_of g (concat layers ++ frontier) frontier) in *.
  unfold bfs_state. rewrite concat_snoc.
  split; [|split; [|split; [|split]]].
  - apply NoDup_app; [exact S1|exact N1|].
    intros a Ha Hnf. apply N2 in Hnf. destruct Hnf as (_ & Hnot). exact (Hnot Ha).
  - apply Forall_app. split; [exact S2|].
    apply Forall_forall. intros a Ha. apply N2 in Ha.
    destruct Ha as ((y & _ & Hn) & _). eapply neighbors_valid. exact Hn.
  - apply Forall_app. split; [exact S3|]. constructor; [exact Hne|constructor].
  - intros k layer layer' Hk Hk'.
    assert (Hlen : (S k < length (layers ++ [frontier]))%nat)
      by (apply nth_error_Some; congruence).
    rewrite length_app in Hlen. simpl in Hlen.
    destruct (Nat.eq_dec (S k) (length layers)) as [Heq|Hneq].
    + rewrite nth_error_app1 in Hk by lia.
      rewrite nth_error_app2 in Hk' by lia.
      rewrite Heq, Nat.sub_diag in Hk'. simpl in Hk'. injection Hk' as <-.
      rewrite firstn_app, Heq, Nat.sub_diag, firstn_all. simpl.
      rewrite app_nil_r.
      destruct layers as [|l0 ls]; [simpl in Heq; discriminate|].
      destruct S5 as (_ & S5). apply S5.
      replace (length (l0 :: ls) - 1)%nat with k by lia. exact Hk.
    + rewrite nth_error_app1 in Hk by lia.
      rewrite nth_error_app1 in Hk' by lia.
      rewrite firstn_app.
      replace (S k - length layers)%nat with 0%nat by lia.
      simpl. rewrite app_nil_r. apply (S4 k layer layer' Hk Hk').
  - assert (Hcons : exists l0 ls, layers ++ [frontier] = l0 :: ls)
      by (destruct layers; simpl; eauto).
    destruct Hcons as (l0 & ls & Happ). rewrite Happ. cbv iota.
    rewrite <- Happ. split.
    + destruct layers as [|l1 ls1]; [simpl; congruence|].
      destruct S5 as (S5 & _). simpl in *. exact S5.
    + intros layer Hlast. rewrite length_app in Hlast. simpl in Hlast.
      rewrite nth_error_app2 in Hlast by lia.
      replace (length layers + 1 - 1 - length layers)%nat with 0%nat in Hlast
        by lia.
      simpl in Hlast. injection Hlast as <-.
      intros x0. apply N2.
Qed.

(** With an empty frontier the layers are complete. *)
Lemma bfs_state_final (layers : list (list FaceRef)) :
  bfs_state g this layers [] -> layered g this layers.
Proof.
  intros (S1 & S2 & S3 & S4 & S5).
  destruct layers as [|l0 ls]; [discriminate|].
  destruct S5 as (S5 & S6). rewrite app_nil_r in S1.
  split; [exact S5|]. split; [exact S1|]. split; [exact S3|].
  split; [exact S4|].
  intros layer Hlast x0 y0 Hy Hn.
  destruct (in_dec Nat.eq_dec x0 (concat (l0 :: ls))) as [Hin|Hnin];
    [exact Hin|].
  exfalso. apply (S6 layer Hlast x0). split; eauto.
Qed.

(** The loop returns, and what it returns is layered. *)
Lemma shellLayers_loop_spec (fuel : nat) (layers : list (list FaceRef))
  (frontier : list FaceRef) :
  bfs_state g this layers frontier ->
  (frontier <> [] ->
   (length (faces g) < fuel + length (concat layers ++ frontier))%nat) ->
  exists result,
    shellLayers_loop fuel g layers (concat layers) frontier = Some result /\
    layered g this result.
Proof.
  revert layers frontier. induction fuel as [|fuel IH];
    intros layers frontier Hst Hfuel.
  - destruct frontier as [|f fr].
    + exists layers. split; [reflexivity|]. apply bfs_state_final. exact Hst.
    + exfalso. destruct Hst as (S1 & S2 & _).
      pose proof (NoDup_bounded_length _ _ S1 S2) as Hb.
      assert (Hne : f :: fr <> []) by discriminate.
      specialize (Hfuel Hne). lia.
  - destruct frontier as [|f fr].
    + exists layers. split; [reflexivity|]. apply bfs_state_final. exact Hst.
    + assert (Hne : f :: fr <> []) by discriminate.
      pose proof (bfs_round layers (f :: fr) Hst Hne) as Hst'.
      cbn [shellLayers_loop].
      rewrite <- concat_snoc.
      apply IH.
      * rewrite concat_snoc. exact Hst'.
      * intros Hnf. specialize (Hfuel Hne). rewrite concat_snoc in *.
        rewrite !length_app in *.
        destruct (nextFrontier_of g (concat layers ++ f :: fr) (f :: fr));
          [congruence|]. simpl in *. lia.
Qed.

(** [shellLayers] from a face of the graph. *)
Lemma shellLayers_layered :
  (this < length (faces g))%nat -> layered g this (shellLayers g this).
Proof.
  intros Hthis. unfold shellLayers.
  assert (Hstart : bfs_state g this [] [this]).
  { unfold bfs_state. simpl.
    split; [constructor; [intros []|constructor]|].
    split; [constructor; [exact Hthis|constructor]|].
    split; [constructor|].
    split; [|reflexivity].
    intros k layer layer' Hk. destruct k; discriminate. }
  destruct (shellLayers_loop_spec (S (length (faces g))) [] [this] Hstart)
    as (result & Hrun & Hres).
  - intros _. simpl. lia.
  - simpl concat in Hrun. rewrite Hrun. exact Hres.
Qed.

End BreadthFirst.

(* ================================================================= *)
(** ** Randomized generation *)

Section Removal.

Lemma remove_first_In {A : Type} (dec : forall a b : A, {a = b} + {a <> b})
  (e a : A) (l : list A) : In a (remove_first dec e l) -> In a l.
Proof.
  induction l as [|b l IH]; simpl; [auto|].
  destruct (dec e b); [auto|]. intros [<-|Hin]; auto.
Qed.

Lemma remove_first_In_neq {A : Type} (dec : forall a b : A, {a = b} + {a <> b})
  (e a : A) (l : list A) : a <> e -> In a l -> In a (remove_first dec e l).
Proof.
  intros Hne. induction l as [|b l IH]; simpl; [auto|].
  destruct (dec e b) as [<-|Hneb].
  - intros [Heq|Hin]; [congruence|exact Hin].
  - intros [<-|Hin]; [left; reflexivity|right; auto].
Qed.

Lemma remove_first_NoDup {A : Type} (dec : forall a b : A, {a = b} + {a <> b})
  (e : A) (l : list A) :
  NoDup l -> NoDup (remove_first dec e l) /\ ~ In e (remove_first dec e l).
Proof.
  induction 1 as [|b l Hb Hnd IH]; simpl; [split; [constructor|auto]|].
  destruct (dec e b) as [<-|Hneb]; [split; assumption|].
  destruct IH as (I1 & I2). split.
  - constructor; [|exact I1]. intros Hin. apply Hb.
    eapply remove_first_In. exact Hin.
  - intros [Heq|Hin]; [congruence|exact (I2 Hin)].
Qed.

Lemma remove_first_notin {A : Type} (dec : forall a b : A, {a = b} + {a <> b})
  (e : A) (l : list A) : ~ In e l -> remove_first dec e l = l.
Proof.
  induction l as [|b l IH]; simpl; [reflexivity|]. intros Hn.
  destruct (dec e b) as [<-|Hneb]; [exfalso; apply Hn; left; reflexivity|].
  f_equal. apply IH. intros Hin. apply Hn. right. exact Hin.
Qed.

Lemma remove_first_length {A : Type} (dec : forall a b : A, {a = b} + {a <> b})
  (e : A) (l : list A) :
  (length (remove_first dec e l) <= length l)%nat /\
  (In e l -> S (length (remove_first dec e l)) = length l).
Proof.
  induction l as [|b l (I1 & I2)]; simpl; [split; [lia|intros []]|].
  destruct (dec e b) as [<-|Hneb]; simpl; [split; [lia|reflexivity]|].
  split; [lia|]. intros [Heq|Hin]; [congruence|]. rewrite I2 by exact Hin.
  reflexivity.
Qed.

(** Removing an edge removes its two half-edges from the half-edge array. *)
Lemma remove_first_halfEdges (e : GraphEdge) (es : list GraphEdge) :
  remove_first GraphHalfEdge_eq_dec (halfEdgeFromVertex1 e)
    (remove_first GraphHalfEdge_eq_dec (halfEdgeFromVertex0 e)
                  (halfEdges_of_edges es))
  = halfEdges_of_edges (remove_first GraphEdge_eq_dec e es).
Proof.
  induction es as [|a es IH]; simpl; [reflexivity|].
  destruct (GraphEdge_eq_dec e a) as [<-|Hne].
  - destruct (GraphHalfEdge_eq_dec (halfEdgeFromVertex0 e)
                                   (halfEdgeFromVertex0 e)); [|congruence].
    simpl.
    destruct (GraphHalfEdge_eq_dec (halfEdgeFromVertex1 e)
                                   (halfEdgeFromVertex1 e)); [|congruence].
    reflexivity.
  - destruct (GraphHalfEdge_eq_dec (halfEdgeFromVertex0 e)
                                   (halfEdgeFromVertex0 a)) as [Heq|_];
      [injection Heq as ->; congruence|].
    destruct (GraphHalfEdge_eq_dec (halfEdgeFromVertex0 e)
                                   (halfEdgeFromVertex1 a)) as [Heq|_];
      [discriminate|].
    simpl.
    destruct (GraphHalfEdge_eq_dec (halfEdgeFromVertex1 e)
                                   (halfEdgeFromVertex0 a)) as [Heq|_];
      [discriminate|].
    destruct (GraphHalfEdge_eq_dec (halfEdgeFromVertex1 e)
                                   (halfEdgeFromVertex1 a)) as [Heq|_];
      [injection Heq as ->; congruence|].
    simpl. f_equal. f_equal. exact IH.
Qed.

Lemma ForallOrdPairs_remove_first {A : Type}
  (dec : forall a b : A, {a = b} + {a <> b}) (R : A -> A -> Prop) (e : A)
  (l : list A) :
  ForallOrdPairs R l -> ForallOrdPairs R (remove_first dec e l).
Proof.
  induction 1 as [|a l Ha Hl IH]; simpl; [constructor|].
  destruct (dec e a); [exact Hl|]. constructor; [|exact IH].
  rewrite Forall_forall in *. intros b Hb. apply Ha.
  eapply remove_first_In. exact Hb.
Qed.

Lemma ForallOrdPairs_snoc {A : Type} (R : A -> A -> Prop) (l : list A) (c : A) :
  ForallOrdPairs R l -> Forall (fun a => R a c) l ->
  ForallOrdPairs R (l ++ [c]).
Proof.
  induction 1 as [|a l Ha Hl IH]; simpl; intros Hc.
  - constructor; constructor.
  - inversion Hc; subst. constructor; [|apply IH; assumption].
    apply Forall_app. split; [exact Ha|]. constructor; [assumption|constructor].
Qed.

Lemma ForallOrdPairs_nth {A : Type} (R : A -> A -> Prop) (l : list A) :
  ForallOrdPairs R l ->
  forall i j a b, (i < j)%nat -> nth_error l i = Some a ->
                  nth_error l j = Some b -> R a b.
Proof.
  induction 1 as [|c l Hc Hl IH]; intros i j a b Hij Hi Hj.
  - destruct i; discriminate.
  - destruct j as [|j]; [lia|]. simpl in Hj.
    destruct i as [|i]; simpl in Hi.
    + injection Hi as <-. rewrite Forall_forall in Hc. apply Hc.
      eapply nth_error_In. exact Hj.
    + apply (IH i j); [lia|assumption|assumption].
Qed.

(** [removeEdge] keeps the invariant of generation. *)
Lemma Graph_removeEdge_generated (g : Graph) (e : GraphEdge) :
  generated g -> generated (Graph_removeEdge g e).
Proof.
  intros [[W1 W2 W3 W4 W5] U NL ND NC].
  destruct (remove_first_NoDup GraphEdge_eq_dec e (edges g) W2) as (R1 & R2).
  assert (Hve : forall v a,
            In a (vertexEdges (Graph_removeEdge g e) v) <->
            In a (vertexEdges g v) /\ a <> e).
  { intros v a. simpl.
    assert (Hrem : forall l, NoDup l ->
              (In a (remove_first GraphEdge_eq_dec e l) <-> In a l /\ a <> e)).
    { intros l Hl. split.
      - intros Hin. split; [eapply remove_first_In; exact Hin|].
        intros ->. exact (proj2 (remove_first_NoDup GraphEdge_eq_dec e l Hl) Hin).
      - intros (Hin & Hne). apply remove_first_In_neq; assumption. }
    destruct (Nat.eq_dec v (vertex1 e)) as [->|N1].
    - rewrite update_same.
      destruct (Nat.eq_dec (vertex1 e) (vertex0 e)) as [E01|N0].
      + rewrite E01, update_same. rewrite Hrem.
        * rewrite Hrem by apply ND. tauto.
        * apply remove_first_NoDup, ND.
      + rewrite update_other by exact N0. apply Hrem, ND.
    - rewrite update_other by exact N1.
      destruct (Nat.eq_dec v (vertex0 e)) as [->|N0].
      + rewrite update_same. apply Hrem, ND.
      + rewrite update_other by exact N0. split.
        * intros Hin. split; [exact Hin|]. intros ->.
          apply W4 in Hin. destruct Hin as (_ & [Hv|Hv]); congruence.
        * tauto. }
  constructor.
  - constructor; simpl.
    + exact W1.
    + exact R1.
    + rewrite W3. apply remove_first_halfEdges.
    + intros v a. rewrite (Hve v a), W4. split.
      * intros ((Hin & Hv) & Hne). split; [|exact Hv].
        apply remove_first_In_neq; assumption.
      * intros (Hin & Hv). split; [split; [|exact Hv]|].
        -- eapply remove_first_In. exact Hin.
        -- intros ->. exact (R2 Hin).
    + intros a Ha. apply W5. eapply remove_first_In. exact Ha.
  - exact U.
  - intros a Ha. apply NL. simpl in Ha. eapply remove_first_In. exact Ha.
  - intros v. simpl.
    destruct (Nat.eq_dec v (vertex1 e)) as [->|N1].
    + rewrite update_same.
      destruct (Nat.eq_dec (vertex1 e) (vertex0 e)) as [E01|N0].
      * rewrite E01, update_same. apply remove_first_NoDup.
        apply remove_first_NoDup. apply ND.
      * rewrite update_other by exact N0. apply remove_first_NoDup, ND.
    + rewrite update_other by exact N1.
      destruct (Nat.eq_dec v (vertex0 e)) as [->|N0].
      * rewrite update_same. apply remove_first_NoDup, ND.
      * rewrite update_other by exact N0. apply ND.
  - unfold crossing_free. simpl.
    apply ForallOrdPairs_remove_first. exact NC.
Qed.

Lemma Graph_removeEdge_fields (g : Graph) (e : GraphEdge) :
  vertices (Graph_removeEdge g e) = vertices g /\
  pos (Graph_removeEdge g e) = pos g /\
  edges (Graph_removeEdge g e) = remove_first GraphEdge_eq_dec e (edges g).
Proof. repeat split. Qed.

End Removal.

Section Admission.

Variable H : Host.

Lemma generated_no_edges (g : Graph) :
  NoDup (vertices g) -> edges g = [] -> halfEdges g = [] ->
  (forall v, vertexEdges g v = []) -> unlinked g -> generated g.
Proof.
  intros Hnd He Hh Hve Hun. constructor.
  - apply wellFormed_no_edges; assumption.
  - exact Hun.
  - intros e. rewrite He. intros [].
  - intros v. rewrite Hve. constructor.
  - unfold crossing_free. rewrite He. constructor.
Qed.

Lemma addRandomVertices_fields (n k : nat) (g : Graph) :
  let g' := fst (addRandomVertices H n k g) in
  vertices g' = vertices g ++ seq (length (vertices g)) n /\
  edges g' = edges g /\ halfEdges g' = halfEdges g /\
  ((forall v, vertexEdges g v = []) -> forall v, vertexEdges g' v = []) /\
  (unlinked g -> unlinked g').
Proof.
  revert k g. induction n as [|n IH]; intros k g; simpl.
  - rewrite app_nil_r. repeat split; auto; apply H0.
  - specialize (IH (S (S k))
      (mkGraph (vertices g ++ [length (vertices g)]) (edges g) (faces g)
         (halfEdges g)
         (update (pos g) (length (vertices g))
            (new_vec2
               (-1 + Graph_padding
                + (Graph_width - 2 * Graph_padding) * Math_random H k)
               (-1 + Graph_padding
                + (Graph_height - 2 * Graph_padding) * Math_random H (S k))))
         (update (vertexEdges g) (length (vertices g)) []) (next g) (face g))).
    cbv zeta in IH. simpl in IH. destruct IH as (I1 & I2 & I3 & I4 & I5).
    split; [|split; [|split; [|split]]].
    + rewrite I1, length_app, <- app_assoc. simpl.
      rewrite Nat.add_1_r. reflexivity.
    + exact I2.
    + exact I3.
    + intros Hve. apply I4. intros v. unfold update.
      destruct (Nat.eq_dec _ _); auto.
    + exact I5.
Qed.

Lemma addRandomVertices_generated (n : nat) :
  generated (fst (addRandomVertices H n 0 Graph_empty)) /\
  vertices (fst (addRandomVertices H n 0 Graph_empty)) = seq 0 n.
Proof.
  destruct (addRandomVertices_fields n 0 Graph_empty) as (F1 & F2 & F3 & F4 & F5).
  simpl in F1, F2, F3. split; [|exact F1].
  apply generated_no_edges.
  - rewrite F1. apply seq_NoDup.
  - exact F2.
  - exact F3.
  - apply F4. reflexivity.
  - apply F5. split; reflexivity.
Qed.

Lemma js_set_In {A : Type} (l : list A) (i : nat) (b a : A) :
  In a (js_set l i b) -> a = b \/ In a l.
Proof.
  revert i. induction l as [|c l IH]; intros i; simpl; [intros []|].
  destruct i as [|i]; simpl.
  - intros [<-|Hin]; auto.
  - intros [<-|Hin]; auto. destruct (IH i Hin); auto.
Qed.

(** [shuffle] returns elements of the array it is given. *)
Lemma shuffle_loop_In {A : Type} (i k : nat) (l l' : list A) (k' : nat) :
  shuffle_loop H i k l = Some (l', k') -> forall a, In a l' -> In a l.
Proof.
  revert k l. induction i as [|i IH]; intros k l; cbn [shuffle_loop].
  - intros [= <- <-]. auto.
  - set (j := Math_floor (Math_random H k * float_of_nat (S i + 1))).
    destruct (js_get l j) as [aj|] eqn:Ej; [|discriminate].
    destruct (nth_error l (S i)) as [tmp|] eqn:Et; [|discriminate].
    destruct (to_index j) as [jn|]; [|discriminate].
    intros Hrun a Ha. apply (IH _ _ Hrun) in Ha.
    apply js_set_In in Ha. destruct Ha as [->|Ha].
    + eapply nth_error_In. exact Et.
    + apply js_set_In in Ha. destruct Ha as [->|Ha]; [|exact Ha].
      eapply js_get_In. exact Ej.
Qed.

Lemma vertexPairs_of_In (vs : list VertexRef) (u v : VertexRef) :
  NoDup vs -> In (u, v) (vertexPairs_of vs) ->
  In u vs /\ In v vs /\ u <> v.
Proof.
  induction 1 as [|w vs Hw Hnd IH]; simpl; [intros []|].
  rewrite in_app_iff, in_map_iff. intros [(v' & Heq & Hv)|Hin].
  - injection Heq as <- <-. repeat split; auto. intros ->. exact (Hw Hv).
  - destruct (IH Hin) as (A & B & C). auto.
Qed.

Lemma existsb_false_In {A : Type} (f : A -> bool) (l : list A) :
  existsb f l = false -> forall a, In a l -> f a = false.
Proof.
  induction l as [|b l IH]; simpl; [intros _ a []|].
  intros Hor a [<-|Ha]; apply orb_false_iff in Hor; destruct Hor; auto.
Qed.

Lemma intersectsExisting_false (g : Graph) (c : GraphEdge) :
  intersectsExisting g c = false ->
  Forall (fun e => clear_of g e c) (edges g).
Proof.
  unfold intersectsExisting. intros Hex. apply Forall_forall. intros e He.
  unfold clear_of. intros Hsh.
  assert (Hall := existsb_false_In _ _ Hex e He).
  simpl in Hall. rewrite Hsh in Hall. exact Hall.
Qed.

(** [registerEdge] of a fresh candidate that crosses no admitted edge. *)
Lemma registerEdge_generated (g : Graph) (c : GraphEdge) :
  generated g -> ~ In c (edges g) ->
  In (vertex0 c) (vertices g) -> In (vertex1 c) (vertices g) ->
  vertex0 c <> vertex1 c ->
  Forall (fun e => clear_of g e c) (edges g) ->
  generated (registerEdge g c).
Proof.
  intros [W U NL ND NC] Hfresh H0 H1 Hne Hclear.
  assert (Hnotin : forall v, ~ In c (vertexEdges g v)).
  { intros v Hin. apply (wf_vertexEdges g W) in Hin. apply Hfresh, Hin. }
  constructor.
  - apply registerEdge_wellFormed; assumption.
  - apply registerEdge_unlinked. exact U.
  - intros e. simpl. rewrite in_app_iff. intros [He|[<-|[]]]; auto.
  - intros v. simpl.
    assert (Hsnoc : forall l, NoDup l -> ~ In c l -> NoDup (l ++ [c])).
    { intros l Hl Hc. apply NoDup_app;
        [exact Hl|constructor; [intros []|constructor]|].
      intros a Ha [<-|[]]. exact (Hc Ha). }
    destruct (Nat.eq_dec v (vertex1 c)) as [->|N1].
    + rewrite update_same. rewrite update_other by congruence.
      apply Hsnoc; [apply ND|apply Hnotin].
    + rewrite update_other by exact N1.
      destruct (Nat.eq_dec v (vertex0 c)) as [->|N0].
      * rewrite update_same. apply Hsnoc; [apply ND|apply Hnotin].
      * rewrite update_other by exact N0. apply ND.
  - unfold crossing_free. simpl. apply ForallOrdPairs_snoc; assumption.
Qed.

(** The loop of [createEdges] keeps the invariant. *)
Lemma admitEdges_generated (pairs : list (VertexRef * VertexRef)) (g : Graph)
  (id : nat) :
  generated g ->
  (forall e, In e (edges g) -> (edgeId e < id)%nat) ->
  (forall u v, In (u, v) pairs ->
               In u (vertices g) /\ In v (vertices g) /\ u <> v) ->
  generated (admitEdges g id pairs) /\
  vertices (admitEdges g id pairs) = vertices g /\
  pos (admitEdges g id pairs) = pos g.
Proof.
  revert g id. induction pairs as [|[u v] pairs IH]; intros g id G Hid Hp;
    cbn [admitEdges]; [split; [exact G|split; reflexivity]|].
  destruct (Hp u v (or_introl eq_refl)) as (Hu & Hv & Huv).
  destruct (intersectsExisting g (new_GraphEdge id u v)) eqn:Ex.
  - apply IH; [exact G| |].
    + intros e He. apply Hid in He. lia.
    + intros a b Hab. apply Hp. right. exact Hab.
  - destruct (IH (registerEdge g (new_GraphEdge id u v)) (S id)) as (I1 & I2 & I3).
    + apply registerEdge_generated; try assumption.
      * intros Hin. apply Hid in Hin. simpl in Hin. lia.
      * apply intersectsExisting_false. exact Ex.
    + intros e. simpl. rewrite in_app_iff. intros [He|[<-|[]]].
      * apply Hid in He. lia.
      * simpl. lia.
    + intros a b Hab. simpl. apply Hp. right. exact Hab.
    + split; [exact I1|split; assumption].
Qed.

Lemma createEdges_generated (k : nat) (g g' : Graph) (k' : nat) :
  generated g -> edges g = [] ->
  createEdges H k g = Some (g', k') ->
  generated g' /\ vertices g' = vertices g /\ pos g' = pos g.
Proof.
  intros G He. unfold createEdges, shuffle.
  destruct (shuffle_loop H _ k (vertexPairs_of (vertices g)))
    as [[pairs k1]|] eqn:Es; [|discriminate].
  intros [= <- <-]. apply admitEdges_generated.
  - exact G.
  - intros e. rewrite He. intros [].
  - intros u v Huv. apply (shuffle_loop_In _ _ _ _ _ Es) in Huv.
    apply vertexPairs_of_In; [|exact Huv].
    apply (wf_vertices g (gen_wellFormed g G)).
Qed.

Lemma sortEdgesCCW_generated (g : Graph) (v : VertexRef) :
  generated g -> generated (sortEdgesCCW H g v).
Proof.
  intros [W U NL ND NC]. constructor.
  - apply sortEdgesCCW_wellFormed. exact W.
  - exact U.
  - exact NL.
  - intros u. eapply Permutation_NoDup; [apply sortEdgesCCW_vertexEdges|apply ND].
  - exact NC.
Qed.

Lemma sort_all_generated (g : Graph) (vs : list VertexRef) :
  generated g -> generated (fold_left (sortEdgesCCW H) vs g).
Proof.
  apply (fold_left_invariant _ generated).
  intros a b. apply sortEdgesCCW_generated.
Qed.

End Admission.

Section Pruning.

Variable H : Host.

Lemma fold_left_invariant_In {A B : Type} (f : A -> B -> A) (P : A -> Prop)
  (l : list B) :
  (forall a b, In b l -> P a -> P (f a b)) ->
  forall a, P a -> P (fold_left f l a).
Proof.
  induction l as [|b l IH]; intros Hstep a Ha; simpl; [exact Ha|].
  apply IH.
  - intros a' b' Hb'. apply Hstep. right. exact Hb'.
  - apply Hstep; [left; reflexivity|exact Ha].
Qed.

Lemma pruned_remove (g : Graph) (state : Graph * bool) (e : GraphEdge) :
  pruned g state -> In e (edges (fst state)) ->
  pruned g (Graph_removeEdge (fst state) e, true).
Proof.
  intros (G & Hv & Hp & Hflag) Hin.
  split; [apply Graph_removeEdge_generated; exact G|].
  split; [exact Hv|]. split; [exact Hp|].
  cbn [fst snd].
  change (edges (Graph_removeEdge (fst state) e))
    with (remove_first GraphEdge_eq_dec e (edges (fst state))).
  pose proof (proj2 (remove_first_length GraphEdge_eq_dec e _) Hin) as Hlen.
  destruct (snd state); [lia|]. rewrite Hflag in *. lia.
Qed.

Lemma removeSmallAngles_step_pruned (threshold : float) (g : Graph)
  (v : VertexRef) (copied : list GraphEdge) (state : Graph * bool) (i : nat) :
  pruned g state ->
  pruned g (removeSmallAngles_step H threshold v copied state i).
Proof.
  intros Hp. unfold removeSmallAngles_step. destruct state as [g' b].
  destruct (nth_error copied i) as [edgeA|]; [|exact Hp].
  destruct (nth_error copied _) as [edgeB|]; [|exact Hp].
  destruct (includes GraphEdge_eq_dec (vertexEdges g' v) edgeA) eqn:IA;
    [|exact Hp].
  destruct (includes GraphEdge_eq_dec (vertexEdges g' v) edgeB) eqn:IB;
    [|exact Hp].
  simpl. destruct (same_edge edgeA edgeB); [exact Hp|].
  match goal with |- context [if ?c then (g', b) else _] => destruct c end;
    [exact Hp|].
  apply includes_true in IA, IB.
  assert (W := gen_wellFormed _ (proj1 Hp)). simpl in W.
  apply (wf_vertexEdges g' W) in IA, IB.
  destruct (_ <=? _); apply (pruned_remove g (g', b)); simpl; tauto.
Qed.

(** A pass of [removeSmallAngles]: it keeps the invariant, and either
    removes nothing and returns [false], or returns [true] with fewer
    edges. *)
Lemma removeSmallAngles_pruned (threshold : float) (g : Graph) :
  generated g -> pruned g (removeSmallAngles H threshold g).
Proof.
  intros G. unfold removeSmallAngles.
  apply (fold_left_invariant _ (pruned g)).
  - intros st v Hst. unfold removeSmallAngles_vertex.
    destruct (_ <? 2)%nat; [exact Hst|].
    apply (fold_left_invariant _ (pruned g)); [|exact Hst].
    intros st' i. apply removeSmallAngles_step_pruned.
  - split; [exact G|]. repeat split.
Qed.

(** Removing a list of edges: what is left are the edges not in the list. *)
Lemma fold_removeEdge_generated (l : list GraphEdge) (g : Graph) :
  generated g ->
  let g' := fold_left Graph_removeEdge l g in
  generated g' /\ vertices g' = vertices g /\ pos g' = pos g /\
  (forall e, In e (edges g') -> In e (edges g) /\ ~ In e l) /\
  (length (edges g') <= length (edges g))%nat.
Proof.
  revert g. induction l as [|a l IH]; intros g G; simpl.
  - splits; auto.
  - destruct (IH (Graph_removeEdge g a) (Graph_removeEdge_generated g a G))
      as (I1 & I2 & I3 & I4 & I5).
    split; [exact I1|]. split; [exact I2|]. split; [exact I3|]. split.
    + intros e He. destruct (I4 e He) as (Hin & Hnl). simpl in Hin.
      split; [eapply remove_first_In; exact Hin|].
      intros [<-|Hl]; [|exact (Hnl Hl)].
      destruct (remove_first_NoDup GraphEdge_eq_dec a (edges g)
                  (wf_edges g (gen_wellFormed g G))) as (_ & Hn).
      exact (Hn Hin).
    + simpl in I5.
      pose proof (proj1 (remove_first_length GraphEdge_eq_dec a (edges g))).
      lia.
Qed.

(** [dropVertex] keeps the invariant and removes the vertex. *)
Lemma dropVertex_generated (g : Graph) (v : VertexRef) :
  generated g ->
  generated (dropVertex g v) /\
  vertices (dropVertex g v) = remove_first Nat.eq_dec v (vertices g) /\
  pos (dropVertex g v) = pos g /\
  (length (edges (dropVertex g v)) <= length (edges g))%nat.
Proof.
  intros G. unfold dropVertex.
  destruct (fold_removeEdge_generated (vertexEdges g v) g G)
    as ([W U NL ND NC] & Hv & Hp & He & Hlen).
  set (g' := fold_left Graph_removeEdge (vertexEdges g v) g) in *.
  simpl. split; [|rewrite Hv; repeat split; assumption].
  destruct W as [W1 W2 W3 W4 W5].
  constructor; simpl; try assumption.
  constructor; simpl; try assumption.
  - apply remove_first_NoDup. exact W1.
  - intros e Hin. destruct (W5 e Hin) as (H0 & H1).
    destruct (He e Hin) as (Hin0 & Hnot).
    assert (Hinc : vertex0 e <> v /\ vertex1 e <> v).
    { split; intros Heq; apply Hnot;
        apply (wf_vertexEdges g (gen_wellFormed g G)); auto. }
    split; apply remove_first_In_neq; tauto.
Qed.

Lemma fold_dropVertex_generated (vs : list VertexRef) (g : Graph) :
  generated g ->
  let g' := fold_left dropVertex vs g in
  generated g' /\ pos g' = pos g /\
  (length (vertices g') <= length (vertices g))%nat /\
  (forall v, In v (vertices g') -> In v (vertices g)).
Proof.
  revert g. induction vs as [|v vs IH]; intros g G; simpl.
  - splits; auto.
  - destruct (dropVertex_generated g v G) as (D1 & D2 & D3 & _).
    destruct (IH (dropVertex g v) D1) as (I1 & I2 & I3 & I4).
    split; [exact I1|]. split; [congruence|]. split.
    + rewrite D2 in I3.
      pose proof (proj1 (remove_first_length Nat.eq_dec v (vertices g))). lia.
    + intros u Hu. apply I4 in Hu. rewrite D2 in Hu.
      eapply remove_first_In. exact Hu.
Qed.

(** The first loop of [removeSparseVertices] keeps the invariant, and the
    vertices it collects are vertices it went through. *)
Lemma collectSparse_generated (vs : list VertexRef) (g g' : Graph)
  (acc found : list VertexRef) :
  generated g ->
  fold_left collectSparse vs (g, acc) = (g', found) ->
  generated g' /\ vertices g' = vertices g /\ pos g' = pos g /\
  (forall v, In v found -> In v acc \/ In v vs).
Proof.
  revert g acc. induction vs as [|v vs IH]; intros g acc G; cbn [fold_left].
  - intros Heq. inversion Heq; subst. splits; auto.
  - unfold collectSparse at 2.
    destruct (vertexEdges g v) as [|e [|e' es]] eqn:Eve; intros Hrun.
    + destruct (IH _ _ G Hrun) as (I1 & I2 & I3 & I5).
      splits; auto.
      intros u Hu. destruct (I5 u Hu) as [Hin|Hin]; [|right; right; exact Hin].
      apply in_app_iff in Hin. destruct Hin as [Hin|[<-|[]]];
        [left; exact Hin|right; left; reflexivity].
    + destruct (IH _ _ (Graph_removeEdge_generated g e G) Hrun)
        as (I1 & I2 & I3 & I5).
      splits; auto.
      intros u Hu. destruct (I5 u Hu) as [Hin|Hin]; [|right; right; exact Hin].
      apply in_app_iff in Hin. destruct Hin as [Hin|[<-|[]]];
        [left; exact Hin|right; left; reflexivity].
    + destruct (IH _ _ G Hrun) as (I1 & I2 & I3 & I5).
      splits; auto.
      intros u Hu. destruct (I5 u Hu) as [Hin|Hin];
        [left; exact Hin|right; right; exact Hin].
Qed.

(** With nothing collected the graph is unchanged and every vertex the loop
    went through has at least two edges. *)
Lemma collectSparse_none (vs : list VertexRef) (g g' : Graph)
  (acc : list VertexRef) :
  fold_left collectSparse vs (g, acc) = (g', []) ->
  g' = g /\ acc = [] /\
  forall v, In v vs -> (2 <= length (vertexEdges g v))%nat.
Proof.
  revert g acc. induction vs as [|v vs IH]; intros g acc; cbn [fold_left].
  - intros Heq. inversion Heq; subst. splits; auto. intros v Hv. destruct Hv.
  - unfold collectSparse at 2.
    destruct (vertexEdges g v) as [|e [|e' es]] eqn:Eve; intros Hrun.
    + destruct (IH _ _ Hrun) as (_ & Hacc & _). destruct acc; discriminate.
    + destruct (IH _ _ Hrun) as (_ & Hacc & _). destruct acc; discriminate.
    + destruct (IH _ _ Hrun) as (I1 & I2 & I3). splits; auto.
      intros u [<-|Hu]; [rewrite Eve; simpl; lia|apply I3; exact Hu].
Qed.

End Pruning.

Section Fixpoints.

Variable H : Host.

(** A pass of [removeSparseVertices]: it keeps the invariant; when it
    returns [true] the graph has fewer vertices, when it returns [false]
    the graph is unchanged and every vertex has at least two edges. *)
Lemma removeSparseVertices_spec (g : Graph) :
  generated g ->
  generated (fst (removeSparseVertices g)) /\
  (length (vertices (fst (removeSparseVertices g))) <= length (vertices g))%nat /\
  (snd (removeSparseVertices g) = true ->
   (length (vertices (fst (removeSparseVertices g))) < length (vertices g))%nat) /\
  (snd (removeSparseVertices g) = false ->
   fst (removeSparseVertices g) = g /\
   forall v, In v (vertices g) -> (2 <= length (vertexEdges g v))%nat).
Proof.
  intros G. unfold removeSparseVertices.
  destruct (fold_left collectSparse (vertices g) (g, [])) as [g1 found] eqn:Ec.
  destruct found as [|v rest].
  - destruct (collectSparse_none _ _ _ _ Ec) as (-> & _ & Hdeg).
    simpl. splits; auto; intros Hd; discriminate Hd.
  - destruct (collectSparse_generated _ _ _ _ _ G Ec) as (G1 & V1 & _ & Hfound).
    assert (Hv : In v (vertices g1)).
    { rewrite V1. destruct (Hfound v (or_introl eq_refl)) as [[]|Hin].
      exact Hin. }
    cbn [fst snd fold_left].
    destruct (dropVertex_generated g1 v G1) as (D1 & D2 & _ & _).
    destruct (fold_dropVertex_generated rest (dropVertex g1 v) D1)
      as (F1 & _ & F3 & _).
    cbv zeta in F1, F3. rewrite D2 in F3.
    pose proof (proj2 (remove_first_length Nat.eq_dec v (vertices g1)) Hv) as Hl.
    rewrite V1 in Hl, F3.
    splits; auto; try lia; intros Hd; discriminate Hd.
Qed.

(** The loop [while (true) { if (!pass()) break; }] stops within its bound
    on a pass that changes nothing, when every pass that returns [true]
    lowers a measure and every pass that returns [false] changes nothing. *)
Lemma repeat_pass_spec (pass : Graph -> Graph * bool) (Inv : Graph -> Prop)
  (measure : Graph -> nat) :
  (forall g, Inv g ->
             Inv (fst (pass g)) /\
             (snd (pass g) = true -> (measure (fst (pass g)) < measure g)%nat) /\
             (snd (pass g) = false -> fst (pass g) = g)) ->
  forall fuel g,
    Inv g -> (measure g < fuel)%nat ->
    Inv (repeat_pass pass fuel g) /\
    pass (repeat_pass pass fuel g) = (repeat_pass pass fuel g, false).
Proof.
  intros Hpass. induction fuel as [|fuel IH]; intros g Hg Hm; [lia|].
  cbn [repeat_pass]. destruct (Hpass g Hg) as (P1 & P2 & P3).
  destruct (pass g) as [g' b] eqn:Ep. simpl in P1, P2, P3.
  destruct b.
  - apply IH; [exact P1|]. specialize (P2 eq_refl). lia.
  - specialize (P3 eq_refl). subst g'. split; [exact Hg|exact Ep].
Qed.

(** What [generateRandomGraph] leaves for [buildFaces]: the invariant
    holds, the last pass of each pruning loop changed nothing, and every
    vertex has at least two edges. *)
Lemma generateRandomGraph_spec (n : nat) (g : Graph) (k : nat) :
  generateRandomGraph H n Graph_empty = Some (g, k) ->
  generated g /\ (length (vertices g) <= n)%nat /\
  removeSparseVertices g = (g, false) /\
  (forall v, In v (vertices g) -> (2 <= length (vertexEdges g v))%nat) /\
  exists g4, removeSmallAngles H (Math_PI / 6) g4 = (g4, false) /\
             g = repeat_pass removeSparseVertices
                             (S (length (vertices g4))) g4.
Proof.
  unfold generateRandomGraph.
  destruct (addRandomVertices H n 0 Graph_empty) as [g1 k1] eqn:E1.
  destruct (addRandomVertices_generated H n) as (G1 & V1).
  destruct (addRandomVertices_fields H n 0 Graph_empty) as (_ & Ed1 & _).
  rewrite E1 in G1, V1, Ed1. simpl in G1, V1, Ed1.
  destruct (createEdges H k1 g1) as [[g2 k2]|] eqn:E2; [|discriminate].
  destruct (createEdges_generated H k1 g1 g2 k2 G1 Ed1 E2) as (G2 & V2 & _).
  set (g3 := fold_left (sortEdgesCCW H) (vertices g2) g2).
  assert (G3 : generated g3) by (apply sort_all_generated; exact G2).
  assert (V3 : vertices g3 = vertices g2) by (apply sort_all_frame).
  set (g4 := repeat_pass (removeSmallAngles H (Math_PI / 6))
                         (S (length (edges g3))) g3).
  destruct (repeat_pass_spec (removeSmallAngles H (Math_PI / 6))
              (fun a => generated a /\ vertices a = vertices g3)
              (fun a => length (edges a))) with (fuel := S (length (edges g3)))
                                                (g := g3) as ((G4 & V4) & F4).
  { intros a (Ga & Va).
    destruct (removeSmallAngles_pruned H (Math_PI / 6) a Ga)
      as (P1 & P2 & _ & P4).
    splits; auto.
    - congruence.
    - intros Hb. rewrite Hb in P4. exact P4.
    - intros Hb. rewrite Hb in P4. exact P4. }
  { split; [exact G3|reflexivity]. }
  { lia. }
  fold g4 in G4, V4, F4.
  destruct (repeat_pass_spec removeSparseVertices
              (fun a => generated a /\
                        (length (vertices a) <= length (vertices g4))%nat)
              (fun a => length (vertices a)))
    with (fuel := S (length (vertices g4))) (g := g4) as ((G5 & V5) & F5).
  { intros a (Ga & Va).
    destruct (removeSparseVertices_spec a Ga) as (S1 & S2 & S3 & S4).
    splits; auto; try lia. intros Hb. apply S4. exact Hb. }
  { split; [exact G4|lia]. }
  { lia. }
  set (g5 := repeat_pass removeSparseVertices (S (length (vertices g4))) g4)
    in *.
  intros Heq. injection Heq as <- <-.
  splits; auto.
  - rewrite V4, V3, V2, V1, length_seq in V5. exact V5.
  - destruct (removeSparseVertices_spec _ G5) as (_ & _ & _ & S4).
    apply S4. rewrite F5. reflexivity.
  - exists g4. split; [exact F4|reflexivity].
Qed.

End Fixpoints.

(* ================================================================= *)
(** ** The graphs the constructors return *)

Section Built.

Variable H : Host.

(** A built graph is [buildFaces] of a well-formed graph without links. *)
Lemma built_from (G : Graph) :
  built H G ->
  exists g k, G = fst (buildFaces H k g) /\ wellFormed g /\ unlinked g.
Proof.
  intros [data|n G' Hrun].
  - exists (loadFromSerialized H data Graph_empty), 0%nat.
    split; [reflexivity|]. apply loadFromSerialized_wellFormed.
  - unfold Graph_randomizedWithVertexCount in Hrun.
    destruct (generateRandomGraph H n Graph_empty) as [[g k]|] eqn:Eg;
      [|discriminate].
    injection Hrun as <-. exists g, k. split; [reflexivity|].
    destruct (generateRandomGraph_spec H n g k Eg) as ([W U _ _ _] & _).
    split; assumption.
Qed.

Lemma built_faces_agree (G : Graph) :
  built H G -> faces_agree G (faces G) /\ NoDup (halfEdges G).
Proof.
  intros HB. destruct (built_from G HB) as (g & k & -> & W & U).
  destruct (buildFaces_agree H k g W U) as (A & _ & _ & N).
  split; assumption.
Qed.

(** C4.  After face extraction no half-edge is on the boundary of two
    faces or twice on the boundary of one; a half-edge has the face [f]
    exactly when it is on the boundary of [f]; and the half-edges of the
    faces together with the half-edges that have no face are exactly the
    half-edges of the graph, each once. *)
Theorem buildFaces_partitions_halfEdges (G : Graph) :
  built H G ->
  (forall f1 f2 h, on_boundary G f1 h -> on_boundary G f2 h -> f1 = f2) /\
  (forall f, NoDup (halfEdges_of G f)) /\
  (forall h f, face G h = Some f <-> on_boundary G f h) /\
  Permutation (halfEdges G)
              (concat (map face_halfEdges (faces G)) ++ unassigned G).
Proof.
  intros HB. destruct (built_faces_agree G HB) as (A & N).
  apply faces_agree_partition; assumption.
Qed.

(** C7.  For every face of a built graph [shellLayers] returns layers of
    which the first is the face alone, in which no face appears twice, and
    of which each next one holds exactly the faces that neighbor a face of
    the layer before through a twin half-edge and are in no layer up to
    it; no layer is empty, and the neighbors of the last layer are all in
    some layer. *)
Theorem shellLayers_breadth_first (G : Graph) (f : FaceRef) :
  built H G -> (f < length (faces G))%nat ->
  layered G f (shellLayers G f).
Proof.
  intros HB Hf. destruct (built_faces_agree G HB) as ((A1 & _) & _).
  apply shellLayers_layered; [|exact Hf].
  intros y0 x0 (h & _ & _ & Hx & _). apply A1 in Hx.
  destruct Hx as (F & HF & _). apply nth_error_Some. congruence.
Qed.

Lemma sharesVertexWithEdge_sym (a b : GraphEdge) :
  sharesVertexWithEdge a b = sharesVertexWithEdge b a.
Proof.
  unfold sharesVertexWithEdge.
  rewrite (Nat.eqb_sym (vertex0 b)), (Nat.eqb_sym (vertex0 b) (vertex1 a)),
          (Nat.eqb_sym (vertex1 b)), (Nat.eqb_sym (vertex1 b) (vertex1 a)).
  destruct (vertex0 a =? vertex0 b)%nat, (vertex0 a =? vertex1 b)%nat,
           (vertex1 a =? vertex0 b)%nat, (vertex1 a =? vertex1 b)%nat;
    reflexivity.
Qed.

(** C2.  In a graph made by randomized generation, the segment test of
    [createEdges] is negative for any two edges that share no vertex, in
    whichever order the two edges are taken. *)
Theorem generated_edges_do_not_cross (vertexCount : nat) (G : Graph) :
  Graph_randomizedWithVertexCount H vertexCount = Some G ->
  forall e e',
    In e (edges G) -> In e' (edges G) ->
    sharesVertexWithEdge e e' = false ->
    lineSegmentIntersect (pos G (vertex0 e)) (pos G (vertex1 e))
                         (pos G (vertex0 e')) (pos G (vertex1 e'))
    = false.
Proof.
  unfold Graph_randomizedWithVertexCount.
  destruct (generateRandomGraph H vertexCount Graph_empty) as [[g k]|] eqn:Eg;
    [|discriminate].
  intros [= <-] e e' He He' Hsh.
  destruct (generateRandomGraph_spec H vertexCount g k Eg) as (Gen & _).
  destruct (buildFaces_frame H k g) as ((_ & Fe & _ & Fp) & _).
  rewrite Fe in He, He'. rewrite Fp.
  pose proof (gen_crossing_free g Gen) as Hfree.
  destruct (In_nth_error _ _ He) as [i Hi].
  destruct (In_nth_error _ _ He') as [j Hj].
  destruct (Nat.lt_total i j) as [Hij|[Hij|Hij]].
  - rewrite <- lineSegmentIntersect_sym.
    exact (ForallOrdPairs_nth _ _ Hfree i j e e' Hij Hi Hj Hsh).
  - subst j. assert (e = e') by congruence. subst e'.
    unfold sharesVertexWithEdge in Hsh. rewrite Nat.eqb_refl in Hsh.
    discriminate.
  - rewrite sharesVertexWithEdge_sym in Hsh.
    exact (ForallOrdPairs_nth _ _ Hfree j i e' e Hij Hj Hi Hsh).
Qed.

(** A built graph can be exported and imported again. *)
Lemma built_serializable (G : Graph) :
  built H G -> (Z.of_nat (length (vertices G)) <= 2 ^ 53)%Z -> serializable G.
Proof.
  intros HB Hn. destruct (built_from G HB) as (g & k & -> & W & _).
  destruct (buildFaces_frame H k g) as ((Fv & Fe & _ & _) & _).
  unfold serializable. rewrite Fv, Fe in *. splits.
  - apply (wf_vertices g W).
  - exact Hn.
  - apply (wf_endpoints g W).
Qed.

End Built.

(** C1 (as amended).  For every graph a constructor returned (its vertex
    array, like every array, is shorter than 2^53), exporting, importing
    and exporting again reproduces the edge index pairs of the first export
    and its number of vertices, and gives the vertex coordinates of the
    first export after the normalization of the import. *)
Theorem export_import_export (H H' : Host) (G : Graph) :
  built H G -> (Z.of_nat (length (vertices G)) <= 2 ^ 53)%Z ->
  reimport H' (serialize G)
  = mkGraphSerialized (normalized (data_vertices (serialize G)))
                      (data_edges (serialize G)).
Proof.
  intros HB Hn. apply serializable_export_import_export.
  exact (built_serializable H G HB Hn).
Qed.

(** The 2 x 2 grid imported from its serialized form: the round trip gives
    its export with the coordinates normalized once more. *)
Lemma export_import_export_witness :
  reimport (ref_host []) (serialize (Graph_fromSerialized (ref_host []) grid_2x2))
  = mkGraphSerialized
      (normalized (data_vertices
                     (serialize (Graph_fromSerialized (ref_host []) grid_2x2))))
      (data_edges (serialize (Graph_fromSerialized (ref_host []) grid_2x2))).
Proof.
  apply (export_import_export (ref_host []) (ref_host [])
           (Graph_fromSerialized (ref_host []) grid_2x2)).
  - apply built_fromSerialized.
  - vm_compute. discriminate.
Defined.

(** The grid of four unit squares, imported: its sixteen half-edges are
    those of the four faces, each once, and the eight of the outer cycle. *)
Lemma buildFaces_partitions_halfEdges_witness :
  let G := Graph_fromSerialized (ref_host []) grid_2x2 in
  (forall f1 f2 h, on_boundary G f1 h -> on_boundary G f2 h -> f1 = f2) /\
  (forall f, NoDup (halfEdges_of G f)) /\
  (forall h f, face G h = Some f <-> on_boundary G f h) /\
  Permutation (halfEdges G)
              (concat (map face_halfEdges (faces G)) ++ unassigned G).
Proof.
  apply (buildFaces_partitions_halfEdges (ref_host [])
           (Graph_fromSerialized (ref_host []) grid_2x2)).
  apply built_fromSerialized.
Defined.

(** The grid of four unit squares, from the face of a corner. *)
Lemma shellLayers_breadth_first_witness :
  (0 < length (faces (Graph_fromSerialized (ref_host []) grid_2x2)))%nat /\
  layered (Graph_fromSerialized (ref_host []) grid_2x2) 0
          (shellLayers (Graph_fromSerialized (ref_host []) grid_2x2) 0).
Proof.
  split; [vm_compute; lia|].
  apply (shellLayers_breadth_first (ref_host [])
           (Graph_fromSerialized (ref_host []) grid_2x2) 0%nat).
  - apply built_fromSerialized.
  - vm_compute. lia.
Defined.

(** Four vertices generated at the corners of a square: the side from
    vertex 0 to vertex 3 and the side from vertex 1 to vertex 2 are edges
    of the graph and share no vertex. *)
Lemma generated_edges_do_not_cross_witness :
  exists G,
    Graph_randomizedWithVertexCount host_square 4 = Some G /\
    In (new_GraphEdge 1 0 3) (edges G) /\
    In (new_GraphEdge 2 1 2) (edges G) /\
    sharesVertexWithEdge (new_GraphEdge 1 0 3) (new_GraphEdge 2 1 2) = false /\
    lineSegmentIntersect (pos G 0%nat) (pos G 3%nat) (pos G 1%nat) (pos G 2%nat)
    = false.
Proof.
  assert (Hrun : option_map edges (Graph_randomizedWithVertexCount host_square 4)
                 = Some [new_GraphEdge 0 0 2; new_GraphEdge 1 0 3;
                         new_GraphEdge 2 1 2; new_GraphEdge 4 2 3;
                         new_GraphEdge 5 0 1])
    by (vm_compute; reflexivity).
  destruct (Graph_randomizedWithVertexCount host_square 4) as [G|] eqn:E;
    [|discriminate].
  injection Hrun as Hedges.
  assert (H1 : In (new_GraphEdge 1 0 3) (edges G))
    by (rewrite Hedges; simpl; auto).
  assert (H2 : In (new_GraphEdge 2 1 2) (edges G))
    by (rewrite Hedges; simpl; auto).
  exists G. split; [reflexivity|]. split; [exact H1|]. split; [exact H2|].
  split; [reflexivity|].
  exact (generated_edges_do_not_cross host_square 4 G E
           (new_GraphEdge 1 0 3) (new_GraphEdge 2 1 2) H1 H2 eq_refl).
Defined.

(** C2, counterexample.  The outcomes of [host_cross] are in [0, 1).  The
    five vertices are generated at 0: (0, 0.0036000000000000476),
    1: (-0.576, -0.342), 2: (0.774, 0.468), 3: (0.612, 0.126) and
    4: (-0.306, -0.414).  Vertex 0 lies above the line through vertices 1
    and 2 by less than 2^-56, and vertex 3 lies below it, so the segment
    from 0 to 3 crosses the segment from 1 to 2 next to vertex 0; the test
    computes a negative parameter [ta] and answers [false].  [createEdges]
    admits every pair but (1, 3) and (2, 4); pruning removes (0, 1) and
    (0, 2) at vertex 0 (23 and 20 degrees from the shorter (0, 4) and
    (0, 3)) and (3, 4) at vertex 3.  The edges from 0 to 3 and from 1 to 2
    are both in the returned graph. *)
Lemma generated_edges_cross_properly :
  Forall (fun r => (0 <=? r) && (r <? 1) = true) cross_outcomes /\
  exists G,
    Graph_randomizedWithVertexCount host_cross 5 = Some G /\
    In (new_GraphEdge 1 0 3) (edges G) /\
    In (new_GraphEdge 3 1 2) (edges G) /\
    sharesVertexWithEdge (new_GraphEdge 1 0 3) (new_GraphEdge 3 1 2) = false /\
    lineSegmentIntersect (pos G 0%nat) (pos G 3%nat) (pos G 1%nat) (pos G 2%nat)
    = false /\
    properly_intersect_exact (pos G 0%nat) (pos G 3%nat)
                             (pos G 1%nat) (pos G 2%nat) = true.
Proof.
  split; [repeat constructor|].
  assert (Hrun :
    option_map
      (fun G => (edges G,
                 lineSegmentIntersect (pos G 0%nat) (pos G 3%nat)
                                      (pos G 1%nat) (pos G 2%nat),
                 properly_intersect_exact (pos G 0%nat) (pos G 3%nat)
                                          (pos G 1%nat) (pos G 2%nat)))
      (Graph_randomizedWithVertexCount host_cross 5)
    = Some ([new_GraphEdge 1 0 3; new_GraphEdge 2 0 4; new_GraphEdge 3 1 2;
             new_GraphEdge 5 1 4; new_GraphEdge 6 2 3], false, true))
    by (vm_compute; reflexivity).
  destruct (Graph_randomizedWithVertexCount host_cross 5) as [G|];
    [|discriminate].
  cbn [option_map] in Hrun.
  assert (Hedges : edges G
                   = [new_GraphEdge 1 0 3; new_GraphEdge 2 0 4;
                      new_GraphEdge 3 1 2; new_GraphEdge 5 1 4;
                      new_GraphEdge 6 2 3]) by congruence.
  assert (Htest : lineSegmentIntersect (pos G 0%nat) (pos G 3%nat)
                                       (pos G 1%nat) (pos G 2%nat) = false)
    by congruence.
  assert (Hexact : properly_intersect_exact (pos G 0%nat) (pos G 3%nat)
                                            (pos G 1%nat) (pos G 2%nat) = true)
    by congruence.
  exists G. split; [reflexivity|].
  split; [rewrite Hedges; simpl; auto|].
  split; [rewrite Hedges; simpl; auto|].
  split; [reflexivity|]. split; assumption.
Qed.

(* ================================================================= *)
(** ** Runs on degenerate inputs *)

(** C3, at three vertices on one horizontal line ([Math.random] gives
    0, 0, 0.25, 0, 0.5, 0 for the positions and 0 to [shuffle]).
    Generation returns the three vertices joined by three edges.  The two
    edges at vertex 0 run along the same ray: both have direction angle 0,
    they are next to each other in the sorted edge array, and the pass of
    [removeSmallAngles] over the returned graph removes nothing. *)
Theorem generation_keeps_two_edges_of_equal_angle :
  exists G eA eB,
    Graph_randomizedWithVertexCount host_collinear 3 = Some G /\
    vertices G = [0; 1; 2]%nat /\
    y (pos G 0%nat) = y (pos G 1%nat) /\ y (pos G 1%nat) = y (pos G 2%nat) /\
    (x (pos G 0%nat) <? x (pos G 1%nat)) = true /\
    (x (pos G 1%nat) <? x (pos G 2%nat)) = true /\
    vertexEdges G 0%nat = [eA; eB] /\ eA <> eB /\
    edgeAngle host_collinear G 0%nat eA = 0 /\
    edgeAngle host_collinear G 0%nat eB = 0 /\
    (edgeAngle host_collinear G 0%nat eB - edgeAngle host_collinear G 0%nat eA
     <? Math_PI / 6) = true /\
    snd (removeSmallAngles host_collinear (Math_PI / 6) G) = false.
Proof.
  pose (run := Graph_randomizedWithVertexCount host_collinear 3).
  assert (Hrun :
    match run with
    | Some G =>
        Some (vertices G, vertexEdges G 0%nat,
              (y (pos G 0%nat), y (pos G 1%nat), y (pos G 2%nat)),
              (x (pos G 0%nat) <? x (pos G 1%nat),
               x (pos G 1%nat) <? x (pos G 2%nat)),
              map (edgeAngle host_collinear G 0%nat) (vertexEdges G 0%nat),
              snd (removeSmallAngles host_collinear (Math_PI / 6) G))
    | None => None
    end
    = Some ([0; 1; 2]%nat, [new_GraphEdge 0 0 2; new_GraphEdge 2 0 1],
            (-0.9, -0.9, -0.9), (true, true), [0; 0], false))
    by (vm_compute; reflexivity).
  subst run.
  destruct (Graph_randomizedWithVertexCount host_collinear 3) as [G|];
    [|discriminate].
  injection Hrun as Hv He Hy0 Hy1 Hy2 Hx0 Hx1 Ha Hpass.
  exists G, (new_GraphEdge 0 0 2), (new_GraphEdge 2 0 1).
  rewrite He in Ha. cbn [map] in Ha.
  assert (Ha0 : edgeAngle host_collinear G 0%nat (new_GraphEdge 0 0 2) = 0)
    by (exact (f_equal (fun l => nth 0 l 0) Ha)).
  assert (Ha1 : edgeAngle host_collinear G 0%nat (new_GraphEdge 2 0 1) = 0)
    by (exact (f_equal (fun l => nth 1 l 0) Ha)).
  split; [reflexivity|]. split; [exact Hv|].
  split; [rewrite Hy0, Hy1; reflexivity|].
  split; [rewrite Hy1, Hy2; reflexivity|].
  split; [exact Hx0|]. split; [exact Hx1|]. split; [exact He|].
  split; [discriminate|]. split; [exact Ha0|]. split; [exact Ha1|].
  split; [|exact Hpass].
  rewrite Ha0, Ha1. vm_compute. reflexivity.
Qed.

(** C5, at a triangle whose coordinates are near the largest number
    (vertices (1.7e308, 0), (1.6e308, 0), (1.65e308, 1), joined in a
    cycle).  Normalization computes the center from the sum of the bounds,
    which overflows; face extraction then accepts both cycles of the
    triangle, and the area of neither is greater than 0: it is NaN. *)
Theorem buildFaces_accepts_faces_without_positive_area :
  let G := Graph_fromSerialized (ref_host []) huge_triangle in
  length (faces G) = 2%nat /\
  forall F, In F (faces G) ->
    (0 <? computeFaceArea G (face_halfEdges F)) = false /\
    is_nan (computeFaceArea G (face_halfEdges F)) = true.
Proof.
  cbv zeta. split; [vm_compute; reflexivity|].
  assert (Hall :
    forallb (fun F =>
      negb (0 <? computeFaceArea (Graph_fromSerialized (ref_host []) huge_triangle)
                                 (face_halfEdges F)) &&
      is_nan (computeFaceArea (Graph_fromSerialized (ref_host []) huge_triangle)
                              (face_halfEdges F)))
      (faces (Graph_fromSerialized (ref_host []) huge_triangle)) = true)
    by (vm_compute; reflexivity).
  intros F HF. rewrite forallb_forall in Hall. specialize (Hall F HF).
  apply andb_true_iff in Hall. destruct Hall as (A & B).
  apply negb_true_iff in A. split; assumption.
Qed.

(* ================================================================= *)
(** ** What holds of every result *)

Section AcceptedFaces.

Variable H : Host.

Lemma computeFaceArea_loop_ext (g g' : Graph) (hs : list GraphHalfEdge)
  (area : float) :
  next g' = next g -> pos g' = pos g ->
  computeFaceArea_loop g' hs area = computeFaceArea_loop g hs area.
Proof.
  intros Hn Hp. revert area.
  induction hs as [|h hs IH]; intros area; cbn [computeFaceArea_loop];
    [reflexivity|].
  rewrite Hn, Hp. destruct (next g h); [apply IH|reflexivity].
Qed.

Lemma buildFace_areas (g0 : Graph) (st : Graph * list GraphFace * nat)
  (h : GraphHalfEdge) :
  areas_pass g0 st -> areas_pass g0 (buildFace H st h).
Proof.
  destruct st as [[g fs] k]. intros (Hn & Hp & Ha). simpl in Hn, Hp, Ha.
  unfold buildFace.
  destruct (face g h); [repeat split; assumption|].
  destruct (traverse _ _ _ _ _) as [[hs closed]|];
    [|repeat split; assumption].
  destruct closed; [|repeat split; assumption].
  destruct (computeFaceArea g hs <=? 0) eqn:Earea; [repeat split; assumption|].
  destruct (generateFaceColor H k) as [c k'].
  split; [exact Hn|]. split; [exact Hp|].
  intros F HF. simpl in HF. apply in_app_or in HF.
  destruct HF as [HF|[<-|[]]]; [apply Ha; exact HF|].
  simpl. unfold computeFaceArea in *.
  rewrite <- (computeFaceArea_loop_ext g0 g hs 0 Hn Hp). exact Earea.
Qed.

Lemma buildFaces_areas (k : nat) (g : Graph) (F : GraphFace) :
  In F (faces (fst (buildFaces H k g))) ->
  (computeFaceArea (fst (buildFaces H k g)) (face_halfEdges F) <=? 0) = false.
Proof.
  unfold buildFaces. set (g1 := linkHalfEdgesAroundVertices g).
  assert (Hfold : forall l st, areas_pass g1 st ->
                               areas_pass g1 (fold_left (buildFace H) l st)).
  { induction l as [|h l IH]; intros st Hst; cbn [fold_left]; [exact Hst|].
    apply IH. apply buildFace_areas. exact Hst. }
  specialize (Hfold (halfEdges g1) (g1, [], k)).
  destruct (fold_left (buildFace H) (halfEdges g1) (g1, [], k))
    as [[g2 fs] k'].
  destruct Hfold as (Hn & Hp & Ha).
  { split; [reflexivity|]. split; [reflexivity|]. intros F' []. }
  simpl in Hn, Hp, Ha |- *. intros HF. unfold computeFaceArea.
  erewrite computeFaceArea_loop_ext with (g := g1);
    [apply Ha; exact HF | exact Hn | exact Hp].
Qed.

(** The area of a face that [buildFaces] accepted is not [<= 0]: it is
    greater than 0 or it is NaN. *)
Theorem accepted_face_area_positive_or_nan (G : Graph) (F : GraphFace) :
  built H G -> In F (faces G) ->
  (computeFaceArea G (face_halfEdges F) <=? 0) = false /\
  ((0 <? computeFaceArea G (face_halfEdges F)) = true \/
   is_nan (computeFaceArea G (face_halfEdges F)) = true).
Proof.
  intros HB HF.
  assert (Hle : (computeFaceArea G (face_halfEdges F) <=? 0) = false).
  { destruct HB as [data|n G Hrun].
    - apply buildFaces_areas. exact HF.
    - unfold Graph_randomizedWithVertexCount in Hrun.
      destruct (generateRandomGraph H n Graph_empty) as [[g k]|];
        [|discriminate].
      injection Hrun as <-. apply buildFaces_areas. exact HF. }
  split; [exact Hle|].
  destruct (is_nan (computeFaceArea G (face_halfEdges F))) eqn:En;
    [right; reflexivity|left].
  pose proof (ltb_negb_leb 0 (computeFaceArea G (face_halfEdges F))
                eq_refl En) as Hneg.
  rewrite Hle in Hneg. apply negb_false_iff. exact Hneg.
Qed.

(** Randomized generation leaves no vertex with fewer than two edges, and
    no more vertices than were asked for. *)
Theorem generation_leaves_no_sparse_vertex (vertexCount : nat) (G : Graph) :
  Graph_randomizedWithVertexCount H vertexCount = Some G ->
  (length (vertices G) <= vertexCount)%nat /\
  forall v, In v (vertices G) -> (2 <= length (vertexEdges G v))%nat.
Proof.
  unfold Graph_randomizedWithVertexCount.
  destruct (generateRandomGraph H vertexCount Graph_empty) as [[g k]|] eqn:Eg;
    [|discriminate].
  intros [= <-].
  destruct (generateRandomGraph_spec H vertexCount g k Eg)
    as (_ & Hlen & _ & Hdeg & _).
  destruct (buildFaces_frame H k g) as ((Fv & _) & Fve).
  rewrite Fv, Fve. split; assumption.
Qed.

End AcceptedFaces.

(** The four faces of the grid of unit squares. *)
Lemma accepted_face_area_positive_or_nan_witness :
  Forall
    (fun F =>
       (computeFaceArea (Graph_fromSerialized (ref_host []) grid_2x2)
                        (face_halfEdges F) <=? 0) = false /\
       ((0 <? computeFaceArea (Graph_fromSerialized (ref_host []) grid_2x2)
                              (face_halfEdges F)) = true \/
        is_nan (computeFaceArea (Graph_fromSerialized (ref_host []) grid_2x2)
                                (face_halfEdges F)) = true))
    (faces (Graph_fromSerialized (ref_host []) grid_2x2)).
Proof.
  apply Forall_forall. intros F HF.
  apply (accepted_face_area_positive_or_nan (ref_host [])
           (Graph_fromSerialized (ref_host []) grid_2x2) F).
  - apply built_fromSerialized.
  - exact HF.
Defined.

(** The four corners of a square keep their four vertices. *)
Lemma generation_leaves_no_sparse_vertex_witness :
  exists G,
    Graph_randomizedWithVertexCount host_square 4 = Some G /\
    (length (vertices G) <= 4)%nat /\
    forall v, In v (vertices G) -> (2 <= length (vertexEdges G v))%nat.
Proof.
  destruct (Graph_randomizedWithVertexCount host_square 4) as [G|] eqn:E;
    [|vm_compute in E; discriminate].
  exists G. split; [reflexivity|].
  exact (generation_leaves_no_sparse_vertex host_square 4 G E).
Defined.

Section BuiltInvariant.

Variable H : Host.

(** Every graph a constructor returns is well formed: no vertex and no edge
    is twice in its array, the half-edge array holds the two half-edges of
    each edge in the order of the edges, the edge array of a vertex holds
    exactly the edges that end at it, and every edge joins two vertices of
    the graph. *)
Theorem built_graph_wellFormed (G : Graph) : built H G -> wellFormed G.
Proof.
  intros HB. destruct (built_from H G HB) as (g & k & -> & W & _).
  destruct (buildFaces_frame H k g) as ((Fv & Fe & Fh & _) & Fve).
  destruct W as [W1 W2 W3 W4 W5].
  constructor; rewrite ?Fv, ?Fe, ?Fh, ?Fve; assumption.
Qed.

End BuiltInvariant.

(** The grid of four unit squares sharing edges (vertices 0 to 8, row by
    row) has four faces, given here by the vertices around each; from the
    face of the first square, [shellLayers] gives that face, then the two
    faces that share an edge with it, then the face diagonally opposite. *)
Theorem shellLayers_grid_2x2 :
  let G := Graph_fromSerialized (ref_host []) grid_2x2 in
  map (fun F => map origin (face_halfEdges F)) (faces G)
  = [[0; 1; 4; 3]; [1; 2; 5; 4]; [3; 4; 7; 6]; [4; 5; 8; 7]]%nat /\
  neighboringFaces G 0 = [1; 2]%nat /\
  shellLayers G 0 = [[0]; [1; 2]; [3]]%nat.
Proof. vm_compute. repeat split. Qed.

(** The grid of four unit squares is well formed. *)
Lemma built_graph_wellFormed_witness :
  wellFormed (Graph_fromSerialized (ref_host []) grid_2x2).
Proof.
  apply (built_graph_wellFormed (ref_host [])
           (Graph_fromSerialized (ref_host []) grid_2x2)).
  apply built_fromSerialized.
Defined.

(* ================================================================= *)
(** ** What a pass of angle pruning that removes nothing has checked *)

Section MeasuredGaps.

Variable H : Host.
Variable threshold : float.

Lemma removeSmallAngles_step_flag (v : VertexRef) (copied : list GraphEdge)
  (state : Graph * bool) (i : nat) :
  snd state = true ->
  snd (removeSmallAngles_step H threshold v copied state i) = true.
Proof.
  destruct state as [g b]. simpl. intros ->. unfold removeSmallAngles_step.
  destruct (nth_error copied i); [|reflexivity].
  destruct (nth_error copied _); [|reflexivity].
  destruct (_ || _)%bool; [reflexivity|].
  destruct (same_edge _ _); [reflexivity|].
  destruct (threshold <=? _); reflexivity.
Qed.

Lemma removeSmallAngles_steps_flag (v : VertexRef) (copied : list GraphEdge)
  (l : list nat) (state : Graph * bool) :
  snd state = true ->
  snd (fold_left (removeSmallAngles_step H threshold v copied) l state) = true.
Proof.
  apply (fold_left_invariant _ (fun st => snd st = true)).
  intros st i. apply removeSmallAngles_step_flag.
Qed.

Lemma removeSmallAngles_step_false (g : Graph) (v : VertexRef) (i : nat) :
  snd (removeSmallAngles_step H threshold v (vertexEdges g v) (g, false) i)
  = false ->
  removeSmallAngles_step H threshold v (vertexEdges g v) (g, false) i
  = (g, false) /\
  gap_checked H threshold g v i.
Proof.
  intros Hflag. split.
  - unfold removeSmallAngles_step in *.
    destruct (nth_error (vertexEdges g v) i) as [edgeA|]; [|reflexivity].
    destruct (nth_error (vertexEdges g v) _) as [edgeB|]; [|reflexivity].
    destruct (_ || _)%bool; [reflexivity|].
    destruct (same_edge _ _); [reflexivity|].
    destruct (threshold <=? _); [reflexivity|discriminate].
  - intros edgeA edgeB EA EB Hne.
    unfold removeSmallAngles_step in Hflag. rewrite EA, EB in Hflag.
    assert (IA : includes GraphEdge_eq_dec (vertexEdges g v) edgeA = true)
      by (apply includes_true; eapply nth_error_In; exact EA).
    assert (IB : includes GraphEdge_eq_dec (vertexEdges g v) edgeB = true)
      by (apply includes_true; eapply nth_error_In; exact EB).
    rewrite IA, IB in Hflag. cbn [negb orb] in Hflag.
    unfold same_edge in Hflag.
    destruct (GraphEdge_eq_dec edgeA edgeB) as [Heq|_]; [contradiction|].
    fold (angleDelta_of H g v edgeA edgeB) in Hflag.
    destruct (threshold <=? angleDelta_of H g v edgeA edgeB);
      [reflexivity|discriminate].
Qed.

Lemma removeSmallAngles_steps_false (g : Graph) (v : VertexRef) (l : list nat) :
  snd (fold_left (removeSmallAngles_step H threshold v (vertexEdges g v)) l
                 (g, false)) = false ->
  fold_left (removeSmallAngles_step H threshold v (vertexEdges g v)) l
            (g, false) = (g, false) /\
  forall i, In i l -> gap_checked H threshold g v i.
Proof.
  induction l as [|i l IH]; cbn [fold_left]; intros Hflag.
  - split; [reflexivity|]. intros i [].
  - destruct (snd (removeSmallAngles_step H threshold v (vertexEdges g v)
                     (g, false) i)) eqn:E1.
    + rewrite removeSmallAngles_steps_flag in Hflag by exact E1.
      discriminate.
    + destruct (removeSmallAngles_step_false g v i E1) as (Hst & Hi).
      rewrite Hst in Hflag |- *. destruct (IH Hflag) as (Hl & Hall).
      split; [exact Hl|]. intros j [<-|Hj]; [exact Hi|exact (Hall j Hj)].
Qed.

Lemma removeSmallAngles_vertex_flag (state : Graph * bool) (v : VertexRef) :
  snd state = true ->
  snd (removeSmallAngles_vertex H threshold state v) = true.
Proof.
  intros Hs. unfold removeSmallAngles_vertex.
  destruct (_ <? 2)%nat; [exact Hs|].
  apply removeSmallAngles_steps_flag. exact Hs.
Qed.

Lemma removeSmallAngles_vertex_false (g : Graph) (v : VertexRef) :
  snd (removeSmallAngles_vertex H threshold (g, false) v) = false ->
  removeSmallAngles_vertex H threshold (g, false) v = (g, false) /\
  forall i, gap_checked H threshold g v i.
Proof.
  unfold removeSmallAngles_vertex. cbn [fst].
  destruct (length (vertexEdges g v) <? 2)%nat eqn:Elen.
  - intros _. split; [reflexivity|].
    apply Nat.ltb_lt in Elen.
    intros i a b Ha Hb Hab.
    assert (Hi : (i < length (vertexEdges g v))%nat)
      by (apply nth_error_Some; congruence).
    assert (Hlen : length (vertexEdges g v) = 1%nat) by lia.
    rewrite Hlen in Hb. assert (i = 0)%nat by lia. subst i.
    change ((0 + 1) mod 1)%nat with 0%nat in Hb.
    exfalso. apply Hab. congruence.
  - intros Hflag.
    destruct (removeSmallAngles_steps_false g v _ Hflag) as (Hst & Hall).
    split; [exact Hst|].
    intros i a b Ha Hb Hab. apply (Hall i); try assumption.
    apply in_seq. split; [lia|]. simpl. apply nth_error_Some. congruence.
Qed.

Lemma removeSmallAngles_vertices_false (g : Graph) (vs : list VertexRef) :
  snd (fold_left (removeSmallAngles_vertex H threshold) vs (g, false)) = false ->
  fold_left (removeSmallAngles_vertex H threshold) vs (g, false) = (g, false) /\
  forall v, In v vs -> forall i, gap_checked H threshold g v i.
Proof.
  induction vs as [|v vs IH]; cbn [fold_left]; intros Hflag.
  - split; [reflexivity|]. intros v [].
  - destruct (snd (removeSmallAngles_vertex H threshold (g, false) v)) eqn:E1.
    + assert (Hmono : snd (fold_left (removeSmallAngles_vertex H threshold) vs
                        (removeSmallAngles_vertex H threshold (g, false) v))
                      = true).
      { apply (fold_left_invariant _ (fun st => snd st = true));
          [|exact E1].
        intros st u. apply removeSmallAngles_vertex_flag. }
      congruence.
    + destruct (removeSmallAngles_vertex_false g v E1) as (Hst & Hv).
      rewrite Hst in Hflag |- *. destruct (IH Hflag) as (Hl & Hall).
      split; [exact Hl|]. intros u [<-|Hu]; [exact Hv|exact (Hall u Hu)].
Qed.

(** A pass of [removeSmallAngles] that returns [false] has changed nothing,
    and at every vertex each edge and the one after it around the edge
    array, when they are two edges, measure at least the threshold; the
    measure is the difference of the direction angles, plus a full turn
    when the difference is not positive. *)
Theorem removeSmallAngles_false_gaps (g : Graph) :
  snd (removeSmallAngles H threshold g) = false ->
  removeSmallAngles H threshold g = (g, false) /\
  forall v, In v (vertices g) -> forall i, gap_checked H threshold g v i.
Proof. apply removeSmallAngles_vertices_false. Qed.

End MeasuredGaps.

(** The four corners of a square with one diagonal: the pass over the
    generated graph removes nothing. *)
Lemma removeSmallAngles_false_gaps_witness :
  exists G,
    Graph_randomizedWithVertexCount host_square 4 = Some G /\
    removeSmallAngles host_square (Math_PI / 6) G = (G, false) /\
    Forall (fun v => forall i, gap_checked host_square (Math_PI / 6) G v i)
           (vertices G).
Proof.
  assert (Hrun :
    option_map (fun G => snd (removeSmallAngles host_square (Math_PI / 6) G))
               (Graph_randomizedWithVertexCount host_square 4) = Some false)
    by (vm_compute; reflexivity).
  destruct (Graph_randomizedWithVertexCount host_square 4) as [G|];
    [|discriminate].
  injection Hrun as Hflag. exists G. split; [reflexivity|].
  destruct (removeSmallAngles_false_gaps host_square (Math_PI / 6) G Hflag)
    as (Hfix & Hgaps).
  split; [exact Hfix|]. apply Forall_forall. exact Hgaps.
Defined.

(* ================================================================= *)
(** ** shuffle *)

Section Shuffle.

Variable H : Host.

Lemma js_set_length {A : Type} (l : list A) (i : nat) (v : A) :
  length (js_set l i v) = length l.
Proof.
  revert i. induction l as [|a l IH]; intros [|i]; simpl; auto.
Qed.

Lemma js_set_head_Permutation {A : Type} (l : list A) (j : nat) (a b : A) :
  nth_error l j = Some b ->
  Permutation (a :: l) (b :: js_set l j a).
Proof.
  revert j. induction l as [|c l IH]; intros [|j] Hj; simpl in *;
    try discriminate.
  - injection Hj as ->. apply perm_swap.
  - apply perm_trans with (c :: a :: l); [apply perm_swap|].
    apply perm_trans with (c :: b :: js_set l j a);
      [apply perm_skip, IH, Hj | apply perm_swap].
Qed.

(** Exchanging two elements of an array. *)
Lemma js_set_swap_Permutation {A : Type} (l : list A) (i j : nat) (a b : A) :
  nth_error l i = Some a -> nth_error l j = Some b ->
  Permutation l (js_set (js_set l i b) j a).
Proof.
  revert i j. induction l as [|c l IH]; intros [|i] [|j] Hi Hj; simpl in *;
    try discriminate.
  - injection Hi as ->. injection Hj as ->. apply Permutation_refl.
  - injection Hi as ->. apply js_set_head_Permutation. exact Hj.
  - injection Hj as <-. apply js_set_head_Permutation. exact Hi.
  - apply perm_skip, IH; assumption.
Qed.

Lemma js_get_nth_error {A : Type} (l : list A) (j : float) (a : A) (z : Z) :
  js_get l j = Some a -> to_index j = Some z ->
  nth_error l (Z.to_nat z) = Some a.
Proof.
  unfold js_get. intros Hg Hz. rewrite Hz in Hg.
  destruct (z <? Z.of_nat (length l))%Z; [exact Hg|discriminate].
Qed.

Lemma shuffle_loop_Permutation {A : Type} (i k : nat) (l l' : list A)
  (k' : nat) :
  shuffle_loop H i k l = Some (l', k') ->
  Permutation l l' /\ k' = (k + i)%nat.
Proof.
  revert k l. induction i as [|i IH]; intros k l; cbn [shuffle_loop].
  - intros [= <- <-]. split; [apply Permutation_refl|lia].
  - destruct (js_get l _) as [aj|] eqn:Ej; [|discriminate].
    destruct (nth_error l (S i)) as [tmp|] eqn:Ei; [|discriminate].
    destruct (to_index _) as [jn|] eqn:En; [|discriminate].
    intros Hrest. destruct (IH _ _ Hrest) as (Hp & Hk).
    split; [|lia].
    eapply perm_trans; [|exact Hp].
    apply js_set_swap_Permutation; [exact Ei|].
    exact (js_get_nth_error _ _ _ _ Ej En).
Qed.

(** [shuffle] returns the elements it was given, each as often as before,
    and makes one call of [Math.random] for every element but one. *)
Theorem shuffle_is_a_permutation {A : Type} (k : nat) (array array' : list A)
  (k' : nat) :
  shuffle H k array = Some (array', k') ->
  Permutation array array' /\ length array' = length array /\
  k' = (k + (length array - 1))%nat.
Proof.
  unfold shuffle. intros Hs.
  destruct (shuffle_loop_Permutation _ _ _ _ _ Hs) as (Hp & Hk).
  split; [exact Hp|]. split; [|exact Hk].
  symmetry. apply Permutation_length. exact Hp.
Qed.

End Shuffle.

Lemma shuffle_is_a_permutation_witness :
  exists array',
    shuffle (ref_host [0.5; 0.9; 0.1]) 0 [1; 2; 3; 4]%nat = Some (array', 3%nat) /\
    Permutation [1; 2; 3; 4]%nat array'.
Proof.
  destruct (shuffle (ref_host [0.5; 0.9; 0.1]) 0 [1; 2; 3; 4]%nat)
    as [[array' k']|] eqn:E; [|vm_compute in E; discriminate].
  destruct (shuffle_is_a_permutation (ref_host [0.5; 0.9; 0.1]) 0
              [1; 2; 3; 4]%nat array' k' E) as (Hp & _ & Hk).
  simpl in Hk. subst k'. exists array'. split; [reflexivity|exact Hp].
Defined.

(* ================================================================= *)
(** ** Ray casting and the order of segments *)

Section RayCasting.

Lemma SFsub_diag (c : spec_float) :
  SFsub prec emax c c = S754_nan \/ SFsub prec emax c c = S754_zero false.
Proof.
  destruct c as [s|s| |s m e]; simpl.
  - right. destruct s; reflexivity.
  - left. destruct s; reflexivity.
  - left. reflexivity.
  - right. rewrite Z.sub_diag. reflexivity.
Qed.

Lemma zero_or_nan_not_finite_div (n d : float) :
  (exists s, Prim2SF d = S754_zero s) \/ Prim2SF d = S754_nan ->
  is_finite (n / d) = false.
Proof.
  intros [[s Hs]|Hn]; rewrite is_finite_Prim2SF, FloatAxioms.div_spec;
    unfold SF64div.
  - rewrite Hs. destruct (Prim2SF n) as [s'|s'| |s' m e]; reflexivity.
  - rewrite Hn. destruct (Prim2SF n) as [s'|s'| |s' m e]; reflexivity.
Qed.

(** The cross product of the direction (1, 0) with a segment whose ends
    are at one height is a zero or NaN. *)
Lemma cross_x_axis_level (v0 v1 : vec2) :
  y v0 = y v1 ->
  let d := vec2_cross (new_vec2 1 0) (vec2_sub v1 v0) in
  (exists s, Prim2SF d = S754_zero s) \/ Prim2SF d = S754_nan.
Proof.
  intros Hy. cbv zeta. unfold vec2_cross, vec2_sub. cbn [x y].
  rewrite Hy.
  rewrite FloatAxioms.sub_spec, !FloatAxioms.mul_spec,
          (FloatAxioms.sub_spec (y v1)).
  unfold SF64sub, SF64mul.
  change (Prim2SF 1) with (S754_finite false 4503599627370496 (-52)).
  change (Prim2SF 0) with (S754_zero false).
  destruct (SFsub_diag (Prim2SF (y v1))) as [-> | ->].
  - right. reflexivity.
  - destruct (Prim2SF (x v1 - x v0)) as [s|s| |s m e]; simpl.
    + left. destruct s; eauto.
    + right. reflexivity.
    + right. reflexivity.
    + left. destruct s; eauto.
Qed.

Lemma rayLineSegmentIntersect_level (point v0 v1 : vec2) :
  y v0 = y v1 ->
  rayLineSegmentIntersect point (new_vec2 1 0) v0 v1 = None.
Proof.
  intros Hy. unfold rayLineSegmentIntersect. cbv zeta.
  unfold Number_isFinite.
  rewrite (zero_or_nan_not_finite_div _ _ (cross_x_axis_level v0 v1 Hy)).
  reflexivity.
Qed.

Lemma hits_slanted (g : Graph) (point : vec2) (h : GraphHalfEdge) :
  hits g point h = slanted g h && hits g point h.
Proof.
  unfold slanted.
  destruct (PrimFloat.Leibniz.eqb _ _) eqn:E; [|reflexivity].
  apply FloatAxioms.Leibniz.eqb_spec in E. simpl.
  unfold hits. rewrite (rayLineSegmentIntersect_level _ _ _ E). reflexivity.
Qed.

Lemma filter_hits_slanted (g : Graph) (point : vec2) (l : list GraphHalfEdge) :
  filter (hits g point) l = filter (hits g point) (filter (slanted g) l).
Proof.
  induction l as [|h l IH]; simpl; [reflexivity|].
  rewrite (hits_slanted g point h).
  destruct (slanted g h); simpl; [|exact IH].
  destruct (hits g point h); simpl; rewrite IH; reflexivity.
Qed.

Lemma filter_hits_edges (g : Graph) (point : vec2) (l : list GraphHalfEdge) :
  length (filter (hits g point) l)
  = length (filter (hits_edge g point) (map edge l)).
Proof.
  induction l as [|h l IH]; simpl; [reflexivity|].
  change (hits_edge g point (edge h)) with (hits g point h).
  destruct (hits g point h); simpl; rewrite IH; reflexivity.
Qed.

(** [pointIsInside] reads from a face the edges of its half-edges that are
    not level: two faces that hold the same such edges, in any order and
    through either half-edge of an edge, give the same answer at every
    point. *)
Theorem pointIsInside_reads_slanted_edges (g : Graph) (f f' : GraphFace)
  (point : vec2) :
  Permutation (map edge (filter (slanted g) (face_halfEdges f)))
              (map edge (filter (slanted g) (face_halfEdges f'))) ->
  pointIsInside g f point = pointIsInside g f' point.
Proof.
  intros HP. rewrite !pointIsInside_count.
  rewrite (filter_hits_slanted g point (face_halfEdges f)),
          (filter_hits_slanted g point (face_halfEdges f')).
  rewrite !filter_hits_edges.
  rewrite (filter_length_Permutation _ _ _ HP). reflexivity.
Qed.

(** The test does not depend on which of the two segments is given
    first. *)
Theorem lineSegmentIntersect_order_irrelevant (a0 a1 b0 b1 : vec2) :
  lineSegmentIntersect a0 a1 b0 b1 = lineSegmentIntersect b0 b1 a0 a1.
Proof.
  rewrite !lineSegmentIntersect_inside.
  rewrite andb_comm. f_equal.
  - unfold segment_ta, segment_tb, segment_denominator.
    apply inside_unit_div_opp;
      [apply vec2_cross_opp_l; apply sub_swap_value | apply vec2_cross_swap].
  - unfold segment_ta, segment_tb, segment_denominator.
    apply inside_unit_div_opp;
      [apply vec2_cross_opp_l; apply sub_swap_value | apply vec2_cross_swap].
Qed.

End RayCasting.

(** The unit square against the face that holds only its right and left
    sides, the right one through the other half-edge. *)
Lemma pointIsInside_reads_slanted_edges_witness :
  pointIsInside square_graph square_face (new_vec2 0.5 0.5)
  = pointIsInside square_graph
      (new_GraphFace [halfEdgeFromVertex0 (new_GraphEdge 3 3 0);
                      halfEdgeFromVertex1 (new_GraphEdge 1 1 2)]
                     (mkColor 0 75 48))
      (new_vec2 0.5 0.5).
Proof.
  apply (pointIsInside_reads_slanted_edges square_graph square_face).
  vm_compute. apply perm_swap.
Defined.

(* ================================================================= *)
(** ** parseGraphData *)

Section Parsing.

Lemma parse_item_inr (shape numbers : nat -> ParseError) (item : JSValue)
  (index : nat) (p : float * float) :
  parse_item shape numbers item index = inr p <-> item = pair_value p.
Proof.
  destruct p as [a b]. unfold parse_item, pair_value. simpl. split.
  - destruct item as [| | | |items|]; try discriminate.
    destruct items as [|u [|w [|]]]; try discriminate.
    destruct u; try discriminate; destruct w; try discriminate.
    intros [= <- <-]. reflexivity.
  - intros ->. reflexivity.
Qed.

Lemma parse_items_inr (shape numbers : nat -> ParseError)
  (raw : list JSValue) (index : nat) (l : list (float * float)) :
  parse_items shape numbers raw index = inr l <-> raw = map pair_value l.
Proof.
  split.
  - revert index l. induction raw as [|item rest IH]; intros index l;
      cbn [parse_items].
    + intros [= <-]. reflexivity.
    + destruct (parse_item shape numbers item index) as [e|p] eqn:Ei;
        [discriminate|].
      apply parse_item_inr in Ei.
      destruct (parse_items shape numbers rest (S index)) as [e|l'] eqn:Er;
        [discriminate|].
      intros [= <-]. cbn [map]. rewrite (IH _ _ Er), Ei. reflexivity.
  - intros ->. revert index. induction l as [|p l IH]; intros index;
      cbn [map parse_items]; [reflexivity|].
    rewrite (proj2 (parse_item_inr shape numbers _ index p) eq_refl).
    rewrite IH. reflexivity.
Qed.

(** [parseGraphData] returns a serialized graph exactly for an object
    whose properties [vertices] and [edges] are arrays of arrays of two
    numbers, and it returns these numbers; nothing else is required of the
    numbers or of the other properties. *)
Theorem parseGraphData_accepts (data : JSValue) (s : GraphSerialized) :
  parseGraphData data = inr s <->
  exists fields,
    data = JSobject fields /\
    own_property fields "vertices"%string
    = Some (JSarray (map pair_value (data_vertices s))) /\
    own_property fields "edges"%string
    = Some (JSarray (map pair_value (data_edges s))).
Proof.
  destruct s as [vs es]. cbn [data_vertices data_edges].
  unfold parseGraphData. split.
  - destruct data as [|b|n|str|items|fields]; simpl;
      try discriminate;
      try (destruct b; discriminate);
      try (destruct (is_zero n || is_nan n)%bool; discriminate);
      try (destruct (String.length str =? 0)%nat; discriminate).
    destruct (own_property fields "vertices"%string) as [[| | | |vr|]|] eqn:Hv;
      try discriminate.
    destruct (own_property fields "edges"%string) as [[| | | |er|]|] eqn:He;
      try discriminate.
    destruct (parse_items _ _ vr 0) as [e|vs'] eqn:Ev; [discriminate|].
    destruct (parse_items _ _ er 0) as [e|es'] eqn:Ee; [discriminate|].
    intros [= -> ->]. apply parse_items_inr in Ev, Ee. subst vr er.
    exists fields. split; [reflexivity|]. split; assumption.
  - intros (fields & -> & Hv & He). simpl. rewrite Hv, He.
    rewrite (proj2 (parse_items_inr _ _ _ 0 vs) eq_refl).
    rewrite (proj2 (parse_items_inr _ _ _ 0 es) eq_refl). reflexivity.
Qed.

Lemma parse_items_first_bad (shape numbers : nat -> ParseError)
  (raw : list JSValue) (index i : nat) (item : JSValue) :
  nth_error raw i = Some item ->
  (forall p, item <> pair_value p) ->
  (forall j, (j < i)%nat -> exists p, nth_error raw j = Some (pair_value p)) ->
  parse_items shape numbers raw index
  = inl (if is_pair_array item then numbers (index + i)%nat
         else shape (index + i)%nat).
Proof.
  revert index i. induction raw as [|a rest IH]; intros index [|i] Hi Hbad Hbefore;
    simpl in Hi; try discriminate.
  - injection Hi as ->. simpl. rewrite Nat.add_0_r.
    destruct (parse_item shape numbers item index) as [e|p] eqn:Ep.
    + unfold parse_item in Ep.
      destruct item as [| | | |items|]; try (injection Ep as <-; reflexivity).
      destruct items as [|u [|w [|]]]; try (injection Ep as <-; reflexivity).
      simpl. destruct u; try (injection Ep as <-; reflexivity);
        destruct w; try (injection Ep as <-; reflexivity). discriminate.
    + apply parse_item_inr in Ep. destruct (Hbad p Ep).
  - simpl. destruct (Hbefore 0%nat) as [p Hp]; [lia|].
    simpl in Hp. injection Hp as ->.
    rewrite (proj2 (parse_item_inr shape numbers _ index p) eq_refl).
    rewrite (IH (S index) i Hi Hbad).
    + replace (S index + i)%nat with (index + S i)%nat by lia. reflexivity.
    + intros j Hj. apply (Hbefore (S j)). lia.
Qed.

(** When some item of [vertices] is not an array of two numbers, the error
    names the first such item, whatever [edges] holds: "must be [x, y]"
    when the item is not an array of length two, "must contain numbers"
    otherwise. *)
Theorem parseGraphData_reports_first_bad_vertex
  (fields : list (String.string * JSValue)) (verticesRaw edgesRaw : list JSValue)
  (i : nat) (item : JSValue) :
  own_property fields "vertices"%string = Some (JSarray verticesRaw) ->
  own_property fields "edges"%string = Some (JSarray edgesRaw) ->
  nth_error verticesRaw i = Some item ->
  (forall p, item <> pair_value p) ->
  (forall j, (j < i)%nat ->
             exists p, nth_error verticesRaw j = Some (pair_value p)) ->
  parseGraphData (JSobject fields)
  = inl (if is_pair_array item then VertexMustContainNumbers i
         else VertexMustBePair i).
Proof.
  intros Hv He Hi Hbad Hbefore. unfold parseGraphData. simpl.
  rewrite Hv, He.
  rewrite (parse_items_first_bad _ _ _ 0 i item Hi Hbad Hbefore).
  destruct (is_pair_array item); reflexivity.
Qed.

(** Data that is not an object is refused: a primitive value or [null]
    with "JSON must be an object", an array, like an object without the two
    arrays, with "JSON must include vertices and edges arrays". *)
Theorem parseGraphData_refuses (data : JSValue) :
  match data with
  | JSnull | JSboolean _ | JSnumber _ | JSstring _ =>
      parseGraphData data = inl MustBeObject
  | JSarray _ => parseGraphData data = inl MustIncludeArrays
  | JSobject fields =>
      (forall raw, own_property fields "vertices"%string <> Some (JSarray raw)) \/
      (forall raw, own_property fields "edges"%string <> Some (JSarray raw)) ->
      parseGraphData data = inl MustIncludeArrays
  end.
Proof.
  destruct data as [|b|n|str|items|fields]; unfold parseGraphData; simpl;
    try reflexivity.
  - destruct b; reflexivity.
  - destruct (is_zero n || is_nan n)%bool; reflexivity.
  - destruct (String.length str =? 0)%nat; reflexivity.
  - intros [Hv|He].
    + destruct (own_property fields "vertices"%string) as [[| | | |vr|]|];
        try reflexivity.
      destruct (Hv vr eq_refl).
    + destruct (own_property fields "vertices"%string) as [[| | | |vr|]|];
        try reflexivity.
      destruct (own_property fields "edges"%string) as [[| | | |er|]|];
        try reflexivity.
      destruct (He er eq_refl).
Qed.

End Parsing.

Lemma parseGraphData_accepts_witness :
  parseGraphData sample_data
  = inr (mkGraphSerialized [(0, 0); (1, 0); (0, 1)] [(0, 1); (1, 2); (2, 7.5)]).
Proof.
  apply (proj2 (parseGraphData_accepts sample_data
                  (mkGraphSerialized [(0, 0); (1, 0); (0, 1)]
                                     [(0, 1); (1, 2); (2, 7.5)]))).
  eexists. split; [reflexivity|]. split; reflexivity.
Defined.

Lemma parseGraphData_reports_first_bad_vertex_witness :
  parseGraphData sample_bad_data = inl (VertexMustContainNumbers 1).
Proof.
  apply (parseGraphData_reports_first_bad_vertex _
           [JSarray [JSnumber 0; JSnumber 0]; JSarray [JSnumber 1; JSnull];
            JSnumber 3]
           [JSstring "x"%string] 1 (JSarray [JSnumber 1; JSnull])).
  - reflexivity.
  - reflexivity.
  - reflexivity.
  - intros p. unfold pair_value. discriminate.
  - intros j Hj. assert (j = 0)%nat by lia. subst j.
    exists (0, 0). reflexivity.
Defined.

(* ================================================================= *)
(** ** Neighbors, connected faces and face boundaries *)

Section Topology.

Variable H : Host.

Lemma twin_twin (h : GraphHalfEdge) : twin (twin h) = h.
Proof. destruct h as [e b]. unfold twin. simpl. rewrite negb_involutive. reflexivity. Qed.

(** In a graph a constructor returned, a face that neighbors another is
    neighbored by it. *)
Theorem neighboringFaces_symmetric (G : Graph) (x y : FaceRef) :
  built H G ->
  (In x (neighboringFaces G y) <-> In y (neighboringFaces G x)).
Proof.
  intros HB. destruct (built_faces_agree H G HB) as ((A1 & _) & _).
  assert (Hsym : forall a b, neighbor_via_twin G a b -> neighbor_via_twin G b a).
  { intros a b (h & _ & Hh & Ht & Hne). exists (twin h).
    split; [|split; [exact Ht|split; [rewrite twin_twin; exact Hh|congruence]]].
    apply on_boundary_nth. apply A1. exact Ht. }
  rewrite (proj2 (neighboringFaces_spec G y) x),
          (proj2 (neighboringFaces_spec G x) y).
  split; apply Hsym.
Qed.

Lemma layered_connected (g : Graph) (this : FaceRef)
  (layers : list (list FaceRef)) :
  layered g this layers ->
  forall x, In x (concat layers) <-> connected g this x.
Proof.
  intros (L0 & Lnd & Lne & Lstep & Llast) x. split.
  - intros Hin. apply in_concat in Hin. destruct Hin as (layer & Hl & Hx).
    destruct (In_nth_error _ _ Hl) as [k Hk]. revert layer x Hx Hk Hl.
    induction k as [|k IH]; intros layer x Hx Hk _.
    + rewrite L0 in Hk. injection Hk as <-. destruct Hx as [<-|[]].
      constructor.
    + assert (Hex : exists prev, nth_error layers k = Some prev).
      { assert (S k < length layers)%nat by (apply nth_error_Some; congruence).
        destruct (nth_error layers k) eqn:E; [eauto|].
        apply nth_error_None in E. lia. }
      destruct Hex as [prev Ek].
      apply (Lstep k prev layer Ek Hk) in Hx.
      destruct Hx as ((y & Hy & Hn) & _).
      apply (connected_step g this y x); [|exact Hn].
      apply (IH prev y Hy Ek). eapply nth_error_In. exact Ek.
  - induction 1 as [|y x Hc IH Hn].
    + apply in_concat. exists [this]. split; [|left; reflexivity].
      eapply nth_error_In. exact L0.
    + apply in_concat in IH. destruct IH as (layer & Hl & Hy).
      destruct (In_nth_error _ _ Hl) as [k Hk].
      destruct (in_dec Nat.eq_dec x (concat layers)) as [Hx|Hx]; [exact Hx|].
      exfalso. apply Hx.
      assert (Hlt : (k < length layers)%nat)
        by (apply nth_error_Some; congruence).
      destruct (Nat.eq_dec k (length layers - 1)) as [Hlast|Hnl].
      * rewrite Hlast in Hk. exact (Llast layer Hk x y Hy Hn).
      * assert (Hex : exists layer', nth_error layers (S k) = Some layer').
        { destruct (nth_error layers (S k)) eqn:E; [eauto|].
          apply nth_error_None in E. lia. }
        destruct Hex as [layer' Ek'].
        apply in_concat. exists layer'. split.
        -- eapply nth_error_In. exact Ek'.
        -- apply (Lstep k layer layer' Hk Ek'). split; [eauto|].
           intros Hx'. apply Hx.
           apply in_concat in Hx'. destruct Hx' as (l0 & Hl0 & Hx0).
           apply in_concat. exists l0. split; [|exact Hx0].
           rewrite <- (firstn_skipn (S k) layers). apply in_or_app.
           left. exact Hl0.
Qed.

(** The layers of [shellLayers] hold exactly the faces joined to the
    starting face by a chain of neighbors. *)
Theorem shellLayers_visits_connected_faces (G : Graph) (f x : FaceRef) :
  built H G -> (f < length (faces G))%nat ->
  (In x (concat (shellLayers G f)) <-> connected G f x).
Proof.
  intros HB Hf. destruct (built_faces_agree H G HB) as ((A1 & _) & _).
  apply layered_connected. apply shellLayers_layered; [|exact Hf].
  intros y0 x0 (h & _ & _ & Hx & _). apply A1 in Hx.
  destruct Hx as (F & HF & _). apply nth_error_Some. congruence.
Qed.

Lemma chain_ext (g g' : Graph) (hs : list GraphHalfEdge) :
  next g' = next g -> chain g hs -> chain g' hs.
Proof.
  intros Hn. induction hs as [|a r IH]; cbn [chain]; [auto|].
  intros (Ha & Hr). split; [|apply IH; exact Hr].
  destruct r; [exact I|]. rewrite Hn. exact Ha.
Qed.

Lemma closed_walk_ext (g g' : Graph) (hs : list GraphHalfEdge) :
  next g' = next g -> closed_walk g hs -> closed_walk g' hs.
Proof.
  intros Hn. destruct hs as [|a r]; unfold closed_walk; [auto|].
  intros (Hc & Hl). rewrite Hn. split; [|exact Hl].
  apply (chain_ext g g' (a :: r) Hn). exact Hc.
Qed.

Lemma chain_snoc (g : Graph) (acc : list GraphHalfEdge) (c d : GraphHalfEdge) :
  chain g acc ->
  (acc <> [] -> next g (last acc d) = Some c) ->
  chain g (acc ++ [c]).
Proof.
  induction acc as [|a r IH]; intros Hc Hl.
  - simpl. auto.
  - cbn [chain] in Hc. destruct Hc as (Ha & Hr).
    change ((a :: r) ++ [c]) with (a :: (r ++ [c])). cbn [chain].
    destruct r as [|b r'].
    + simpl. split; [|auto]. apply (Hl ltac:(discriminate)).
    + split; [exact Ha|]. apply IH; [exact Hr|].
      intros _. apply (Hl ltac:(discriminate)).
Qed.

(** A walk of [buildFaces] that ends closed has gone along [next] and
    come back to its start. *)
Lemma traverse_walk (g : Graph) (start : GraphHalfEdge) :
  forall fuel cur acc hs,
    traverse fuel g start cur acc = Some (hs, true) ->
    walk_state g start acc cur -> closed_walk g hs.
Proof.
  induction fuel as [|fuel IH]; intros cur acc hs.
  - destruct cur; simpl; discriminate.
  - destruct cur as [c|]; cbn [traverse]; [|discriminate].
    destruct (includes GraphHalfEdge_eq_dec acc c) eqn:Einc.
    + intros [= <- Hsame] (Hc & Hst).
      unfold same_halfEdge in Hsame.
      destruct (GraphHalfEdge_eq_dec c start) as [->|]; [|discriminate].
      apply includes_true in Einc.
      destruct acc as [|first r]; [destruct Einc|].
      destruct Hst as (-> & Hlast). split; assumption.
    + destruct (face g c); [discriminate|].
      intros Hrun (Hc & Hst).
      assert (Hc' : chain g (acc ++ [c])).
      { apply (chain_snoc g acc c start Hc). intros Hne.
        destruct acc as [|first r]; [destruct (Hne eq_refl)|].
        exact (proj2 Hst). }
      assert (Hfirst : exists r, acc ++ [c] = start :: r).
      { destruct acc as [|first r].
        - injection Hst as ->. exists []. reflexivity.
        - destruct Hst as (-> & _). exists (r ++ [c]). reflexivity. }
      destruct Hfirst as [r Hr].
      destruct (next g c) as [n|] eqn:Enext; [|discriminate].
      destruct (same_halfEdge n start) eqn:Esame.
      * injection Hrun as <-. unfold same_halfEdge in Esame.
        destruct (GraphHalfEdge_eq_dec n start) as [->|]; [|discriminate].
        unfold closed_walk. rewrite Hr. rewrite <- Hr.
        split; [exact Hc'|]. rewrite last_last. exact Enext.
      * apply (IH _ _ _ Hrun). split; [exact Hc'|].
        rewrite Hr. split; [reflexivity|]. rewrite <- Hr, last_last.
        exact Enext.
Qed.

Lemma buildFace_walks (g0 : Graph) (st : Graph * list GraphFace * nat)
  (h : GraphHalfEdge) :
  walks_pass g0 st -> walks_pass g0 (buildFace H st h).
Proof.
  destruct st as [[g fs] k]. intros (Hn & Ha). simpl in Hn, Ha.
  unfold buildFace.
  destruct (face g h); [split; assumption|].
  destruct (traverse _ g h (Some h) []) as [[hs closed]|] eqn:Et;
    [|split; assumption].
  destruct closed; [|split; assumption].
  destruct (computeFaceArea g hs <=? 0); [split; assumption|].
  destruct (generateFaceColor H k) as [c k'].
  split; [exact Hn|].
  intros F HF. simpl in HF. apply in_app_or in HF.
  destruct HF as [HF|[<-|[]]]; [apply Ha; exact HF|].
  simpl. apply (closed_walk_ext g g0 hs); [congruence|].
  apply (traverse_walk g h _ _ _ _ Et). split; [exact I|reflexivity].
Qed.

Lemma buildFaces_walks (k : nat) (g : Graph) :
  next (fst (buildFaces H k g)) = next (linkHalfEdgesAroundVertices g) /\
  forall F, In F (faces (fst (buildFaces H k g))) ->
            closed_walk (fst (buildFaces H k g)) (face_halfEdges F).
Proof.
  unfold buildFaces. set (g1 := linkHalfEdgesAroundVertices g).
  assert (Hfold : forall l st, walks_pass g1 st ->
                               walks_pass g1 (fold_left (buildFace H) l st)).
  { induction l as [|h l IH]; intros st Hst; cbn [fold_left]; [exact Hst|].
    apply IH. apply buildFace_walks. exact Hst. }
  specialize (Hfold (halfEdges g1) (g1, [], k)).
  destruct (fold_left (buildFace H) (halfEdges g1) (g1, [], k))
    as [[g2 fs] k'].
  destruct Hfold as (Hn & Ha).
  { split; [reflexivity|]. intros F' []. }
  simpl in Hn, Ha |- *. split; [exact Hn|].
  intros F HF. apply (closed_walk_ext g1); [exact Hn|]. apply Ha. exact HF.
Qed.

Lemma outgoing_origin (g a : Graph) (v : VertexRef) (h : GraphHalfEdge) :
  wellFormed g -> vertexEdges a = vertexEdges g ->
  In h (outgoing_of a v) -> origin h = v.
Proof.
  intros W Hve. unfold outgoing_of. rewrite in_map_iff.
  intros (e & <- & He). rewrite Hve in He.
  apply (wf_vertexEdges g W) in He. destruct He as (_ & Hends).
  destruct (Nat.eqb_spec (vertex0 e) v) as [Heq|Hne]; simpl.
  - exact Heq.
  - destruct Hends as [Hv|Hv]; [contradiction|exact Hv].
Qed.

(** After linking, the [next] of a half-edge starts at the vertex the
    half-edge ends at. *)
Lemma link_origin (g : Graph) :
  wellFormed g -> unlinked g ->
  forall h n, next (linkHalfEdgesAroundVertices g) h = Some n ->
              origin n = origin (twin h).
Proof.
  intros W (Hnext & _).
  pose (P := fun a : Graph =>
               vertexEdges a = vertexEdges g /\
               forall h n, next a h = Some n -> origin n = origin (twin h)).
  assert (HP : P (linkHalfEdgesAroundVertices g)).
  { unfold linkHalfEdgesAroundVertices. apply (fold_left_invariant _ P).
    - intros a v (Hve & Hcl). unfold linkVertex.
      destruct (_ <? 2)%nat; [split; assumption|].
      apply (fold_left_invariant _ P); [|split; assumption].
      intros b i (Hve' & Hcl'). unfold linkStep.
      destruct (nth_error (outgoing_of a v) i) as [current|] eqn:Ecur;
        [|split; assumption].
      destruct (nth_error (outgoing_of a v) ((i + _ - 1) mod _))
        as [prev|] eqn:Eprev; [|split; assumption].
      split; [exact Hve'|]. intros h n. simpl. unfold update_halfEdge.
      destruct (GraphHalfEdge_eq_dec h (twin current)) as [->|]; [|apply Hcl'].
      intros [= <-]. rewrite twin_twin.
      apply nth_error_In in Eprev, Ecur.
      rewrite (outgoing_origin g a v prev W Hve Eprev).
      rewrite (outgoing_origin g a v current W Hve Ecur). reflexivity.
    - split; [reflexivity|]. intros h n. rewrite Hnext. discriminate. }
  exact (proj2 HP).
Qed.

(** In a graph a constructor returned, the half-edges of every face, in
    the order of the face's array, follow one another along [next] and the
    last one leads back to the first; and wherever a half-edge has a
    [next], that one is a half-edge of the graph and starts at the vertex
    where the half-edge ends. *)
Theorem faces_are_closed_walks (G : Graph) :
  built H G ->
  (forall F, In F (faces G) -> closed_walk G (face_halfEdges F)) /\
  (forall h n, next G h = Some n ->
               In n (halfEdges G) /\ origin n = origin (twin h)).
Proof.
  intros HB. destruct (built_from H G HB) as (g & k & -> & W & U).
  destruct (buildFaces_walks k g) as (Hn & Hw).
  split; [exact Hw|]. intros h n. rewrite Hn. intros Hnext.
  destruct (buildFaces_frame H k g) as ((_ & _ & Fh & _) & _).
  rewrite Fh. split.
  - exact (link_closed g W U h n Hnext).
  - exact (link_origin g W U h n Hnext).
Qed.

End Topology.

Lemma neighboringFaces_symmetric_witness :
  In 1%nat (neighboringFaces (Graph_fromSerialized (ref_host []) grid_2x2) 0) <->
  In 0%nat (neighboringFaces (Graph_fromSerialized (ref_host []) grid_2x2) 1).
Proof.
  apply (neighboringFaces_symmetric (ref_host [])
           (Graph_fromSerialized (ref_host []) grid_2x2) 1%nat 0%nat).
  apply built_fromSerialized.
Defined.

Lemma shellLayers_visits_connected_faces_witness :
  (0 < length (faces (Graph_fromSerialized (ref_host []) grid_2x2)))%nat /\
  (In 3%nat (concat (shellLayers (Graph_fromSerialized (ref_host []) grid_2x2) 0))
   <-> connected (Graph_fromSerialized (ref_host []) grid_2x2) 0 3).
Proof.
  split; [vm_compute; lia|].
  apply (shellLayers_visits_connected_faces (ref_host [])
           (Graph_fromSerialized (ref_host []) grid_2x2) 0%nat 3%nat).
  - apply built_fromSerialized.
  - vm_compute. lia.
Defined.

Lemma faces_are_closed_walks_witness :
  Forall (fun F => closed_walk (Graph_fromSerialized (ref_host []) grid_2x2)
                               (face_halfEdges F))
         (faces (Graph_fromSerialized (ref_host []) grid_2x2)).
Proof.
  apply Forall_forall. intros F HF.
  exact (proj1 (faces_are_closed_walks (ref_host [])
                  (Graph_fromSerialized (ref_host []) grid_2x2)
                  (built_fromSerialized (ref_host []) grid_2x2)) F HF).
Defined.

(* ================================================================= *)
(** ** removeEdge and serialize *)

Section RemoveEdge.

Variable H : Host.

(** [removeEdge] on a graph under generation keeps its invariant and takes
    out that edge and nothing else: from the edge array, from the half-edge
    array and from the edge arrays of the vertices.  Vertices and positions
    stay, and for an edge that is not in the graph nothing changes. *)
Theorem removeEdge_removes_exactly_that_edge (g : Graph) (e : GraphEdge) :
  generated g ->
  let g' := Graph_removeEdge g e in
  generated g' /\
  vertices g' = vertices g /\ pos g' = pos g /\
  (forall e', In e' (edges g') <-> In e' (edges g) /\ e' <> e) /\
  (forall h, In h (halfEdges g') <-> In h (halfEdges g) /\ edge h <> e) /\
  (forall v e', In e' (vertexEdges g' v) <->
                In e' (vertexEdges g v) /\ e' <> e) /\
  (~ In e (edges g) -> edges g' = edges g /\ halfEdges g' = halfEdges g).
Proof.
  intros G. cbv zeta.
  pose proof (Graph_removeEdge_generated g e G) as G'.
  destruct (Graph_removeEdge_fields g e) as (Fv & Fp & Fe).
  pose proof (gen_wellFormed g G) as W.
  pose proof (gen_wellFormed _ G') as W'.
  assert (Hedges : forall e', In e' (edges (Graph_removeEdge g e)) <->
                              In e' (edges g) /\ e' <> e).
  { intros e'. rewrite Fe. split.
    - intros Hin. split; [eapply remove_first_In; exact Hin|].
      intros ->.
      destruct (remove_first_NoDup GraphEdge_eq_dec e (edges g)
                  (wf_edges g W)) as (_ & Hnot).
      exact (Hnot Hin).
    - intros (Hin & Hne). apply remove_first_In_neq; assumption. }
  split; [exact G'|]. split; [exact Fv|]. split; [exact Fp|].
  split; [exact Hedges|]. split; [|split].
  - intros h. rewrite (wf_halfEdges _ W'), (wf_halfEdges g W),
      !in_halfEdges_of_edges. apply Hedges.
  - intros v e'. rewrite (wf_vertexEdges _ W' v e'), (wf_vertexEdges g W v e'),
      Hedges. tauto.
  - intros Hnot. split.
    + rewrite Fe. apply remove_first_notin. exact Hnot.
    + rewrite (wf_halfEdges _ W'), (wf_halfEdges g W), Fe.
      rewrite (remove_first_notin _ _ _ Hnot). reflexivity.
Qed.

Lemma names_vertex_float_of_nat (n i : nat) :
  (Z.of_nat n <= 2 ^ 53)%Z -> (i < n)%nat ->
  names_vertex n (float_of_nat i) = true.
Proof.
  intros Hn Hi. unfold names_vertex.
  rewrite to_index_float_of_nat by lia.
  apply Z.ltb_lt. lia.
Qed.

(** What [serialize] writes can be read back: it has one coordinate pair
    for each vertex and one index pair for each edge, and both indices of
    every pair name a vertex. *)
Theorem serialize_writes_valid_entries (G : Graph) :
  built H G -> (Z.of_nat (length (vertices G)) <= 2 ^ 53)%Z ->
  length (data_vertices (serialize G)) = length (vertices G) /\
  length (data_edges (serialize G)) = length (edges G) /\
  Forall (fun entry =>
            entry_valid (length (data_vertices (serialize G))) entry = true)
         (data_edges (serialize G)).
Proof.
  intros HB Hn.
  pose proof (built_serializable H G HB Hn) as Hs.
  destruct (serialize_edges_in_range G Hs) as (es & E1 & E2 & E3).
  assert (Hlen : length (data_vertices (serialize G)) = length (vertices G)).
  { unfold serialize. simpl. apply length_map. }
  split; [exact Hlen|]. split.
  - rewrite E1. unfold index_pairs. rewrite length_map. exact E2.
  - rewrite E1, Hlen. apply Forall_forall. intros entry Hin.
    unfold index_pairs in Hin. apply in_map_iff in Hin.
    destruct Hin as (e & <- & He). destruct (E3 e He) as (B0 & B1).
    unfold entry_valid. simpl.
    rewrite !names_vertex_float_of_nat by assumption. reflexivity.
Qed.

End RemoveEdge.

Lemma serialize_writes_valid_entries_witness :
  length (data_edges (serialize (Graph_fromSerialized (ref_host []) grid_2x2)))
  = length (edges (Graph_fromSerialized (ref_host []) grid_2x2)) /\
  Forall (fun entry => entry_valid 9 entry = true)
         (data_edges (serialize (Graph_fromSerialized (ref_host []) grid_2x2))).
Proof.
  assert (Hn : (Z.of_nat (length (vertices
                  (Graph_fromSerialized (ref_host []) grid_2x2))) <= 2 ^ 53)%Z)
    by (vm_compute; discriminate).
  destruct (serialize_writes_valid_entries (ref_host [])
              (Graph_fromSerialized (ref_host []) grid_2x2)
              (built_fromSerialized (ref_host []) grid_2x2) Hn)
    as (Hv & He & Hall).
  split; [exact He|].
  replace 9%nat with (length (data_vertices (serialize
            (Graph_fromSerialized (ref_host []) grid_2x2))))
    by (vm_compute; reflexivity).
  exact Hall.
Defined.

(** The diagonal of the generated square, removed. *)
Lemma removeEdge_removes_exactly_that_edge_witness :
  exists g k,
    generateRandomGraph host_square 4 Graph_empty = Some (g, k) /\
    generated (Graph_removeEdge g (new_GraphEdge 0 0 2)) /\
    ~ In (new_GraphEdge 0 0 2) (edges (Graph_removeEdge g (new_GraphEdge 0 0 2))).
Proof.
  destruct (generateRandomGraph host_square 4 Graph_empty) as [[g k]|] eqn:E;
    [|vm_compute in E; discriminate].
  exists g, k. split; [reflexivity|].
  destruct (generateRandomGraph_spec host_square 4 g k E) as (Gen & _).
  destruct (removeEdge_removes_exactly_that_edge g (new_GraphEdge 0 0 2) Gen)
    as (G' & _ & _ & He & _).
  split; [exact G'|]. intros Hin. apply He in Hin. destruct Hin as (_ & Hne).
  exact (Hne eq_refl).
Defined.

(* ================================================================= *)
(** ** The candidates of createEdges *)

Section Candidates.

Variable H : Host.

Lemma intersectsExisting_true (g : Graph) (id : nat) (u v : VertexRef) :
  intersectsExisting g (new_GraphEdge id u v) = true -> blocked g u v.
Proof.
  unfold intersectsExisting. intros Hex. apply existsb_exists in Hex.
  destruct Hex as (e & He & Htest). exists e. split; [exact He|].
  change (sharesVertexWithEdge e (new_GraphEdge id u v))
    with (sharesVertexWithEdge e (new_GraphEdge 0 u v)) in Htest.
  destruct (sharesVertexWithEdge e (new_GraphEdge 0 u v)); [discriminate|].
  split; [reflexivity|exact Htest].
Qed.

Lemma admitEdges_greedy (pairs : list (VertexRef * VertexRef)) :
  forall (g : Graph) (id : nat),
    pos (admitEdges g id pairs) = pos g /\
    incl (edges g) (edges (admitEdges g id pairs)) /\
    forall u v, In (u, v) pairs ->
      joined (admitEdges g id pairs) u v \/ blocked (admitEdges g id pairs) u v.
Proof.
  induction pairs as [|[u0 v0] rest IH]; intros g id; cbn [admitEdges].
  - split; [reflexivity|]. split; [apply incl_refl|]. intros u v [].
  - destruct (intersectsExisting g (new_GraphEdge id u0 v0)) eqn:Etest.
    + destruct (IH g (S id)) as (Hp & Hi & Hrest).
      split; [exact Hp|]. split; [exact Hi|].
      intros u v [[= <- <-]|Hin]; [|apply Hrest; exact Hin].
      right. destruct (intersectsExisting_true g id u0 v0 Etest)
        as (e & He & Hs & Ht).
      exists e. split; [apply Hi; exact He|]. split; [exact Hs|].
      rewrite Hp. exact Ht.
    + destruct (IH (registerEdge g (new_GraphEdge id u0 v0)) (S id))
        as (Hp & Hi & Hrest).
      split; [exact Hp|]. split.
      * intros e He. apply Hi. simpl. apply in_or_app. left. exact He.
      * intros u v [[= <- <-]|Hin]; [|apply Hrest; exact Hin].
        left. exists (new_GraphEdge id u0 v0).
        split; [|split; reflexivity].
        apply Hi. simpl. apply in_or_app. right. left. reflexivity.
Qed.

(** [createEdges] leaves no pair of vertices out without a reason: for
    every pair of the vertex array, the first before the second, the graph
    has the edge from the first to the second, or it has an edge that
    shares no vertex with that candidate and tests positive against it.
    The positions are not changed. *)
Theorem createEdges_is_greedy (k : nat) (g g' : Graph) (k' : nat) :
  createEdges H k g = Some (g', k') ->
  pos g' = pos g /\
  forall u v, In (u, v) (vertexPairs_of (vertices g)) ->
              joined g' u v \/ blocked g' u v.
Proof.
  unfold createEdges.
  destruct (shuffle H k (vertexPairs_of (vertices g))) as [[pairs k1]|] eqn:Es;
    [|discriminate].
  intros [= <- <-].
  destruct (admitEdges_greedy pairs g 0) as (Hp & _ & Hall).
  split; [exact Hp|]. intros u v Hin. apply Hall.
  unfold shuffle in Es.
  destruct (shuffle_loop_Permutation H _ _ _ _ _ Es) as (Hperm & _).
  eapply Permutation_in; [exact Hperm|exact Hin].
Qed.

Lemma ends_key_inj (u v u' v' : VertexRef) :
  ends_key u v = ends_key u' v' -> (u = u' /\ v = v') \/ (u = v' /\ v = u').
Proof. unfold ends_key. intros [= Hmin Hmax]. lia. Qed.

Lemma vertexPairs_keys_NoDup (vs : list VertexRef) :
  NoDup vs ->
  NoDup (map (fun p => ends_key (fst p) (snd p)) (vertexPairs_of vs)).
Proof.
  induction 1 as [|v rest Hv Hnd IH]; cbn [vertexPairs_of]; [constructor|].
  rewrite map_app, map_map. cbn [fst snd]. apply NoDup_app.
  - clear IH. induction Hnd as [|u rest' Hu Hnd' IH']; cbn [map];
      [constructor|].
    assert (Hv' : ~ In v rest') by (intros Hin; apply Hv; right; exact Hin).
    constructor; [|apply IH'; exact Hv'].
    rewrite in_map_iff. intros (w & Hk & Hw).
    apply ends_key_inj in Hk.
    destruct Hk as [(_ & Hwu)|(Hvu & _)].
    + subst w. exact (Hu Hw).
    + apply Hv. left. symmetry. exact Hvu.
  - exact IH.
  - intros key Hin1 Hin2. apply in_map_iff in Hin1, Hin2.
    destruct Hin1 as (u & <- & Hu). destruct Hin2 as ([a b] & Hk & Hab).
    cbn [fst snd] in Hk.
    destruct (vertexPairs_of_In rest a b Hnd Hab) as (Ha & Hb & _).
    apply ends_key_inj in Hk.
    destruct Hk as [(-> & _)|(_ & ->)]; apply Hv; assumption.
Qed.

Lemma admitEdges_keys (pairs : list (VertexRef * VertexRef)) :
  forall (g : Graph) (id : nat),
    NoDup (map edge_key (edges g)
           ++ map (fun p => ends_key (fst p) (snd p)) pairs) ->
    NoDup (map edge_key (edges (admitEdges g id pairs))).
Proof.
  induction pairs as [|[u v] rest IH]; intros g id Hnd; cbn [admitEdges].
  - cbn [map] in Hnd. rewrite app_nil_r in Hnd. exact Hnd.
  - cbn [map fst snd] in Hnd.
    destruct (intersectsExisting g (new_GraphEdge id u v)).
    + apply IH. apply NoDup_remove_1 in Hnd. exact Hnd.
    + apply IH. simpl edges. rewrite map_app, <- app_assoc. exact Hnd.
Qed.

Lemma Graph_removeEdge_incl (g : Graph) (e : GraphEdge) :
  incl (edges (Graph_removeEdge g e)) (edges g).
Proof. intros a Ha. simpl in Ha. eapply remove_first_In. exact Ha. Qed.

Lemma removeSmallAngles_incl (threshold : float) (g : Graph) :
  incl (edges (fst (removeSmallAngles H threshold g))) (edges g).
Proof.
  unfold removeSmallAngles.
  apply (fold_left_invariant _
           (fun st : Graph * bool => incl (edges (fst st)) (edges g)));
    [|apply incl_refl].
  intros st v Hst. unfold removeSmallAngles_vertex.
  destruct (_ <? 2)%nat; [exact Hst|].
  apply (fold_left_invariant _
           (fun st : Graph * bool => incl (edges (fst st)) (edges g)));
    [|exact Hst].
  intros [a b] i Ha. unfold removeSmallAngles_step.
  destruct (nth_error _ i); [|exact Ha].
  destruct (nth_error _ _); [|exact Ha].
  destruct (_ || _)%bool; [exact Ha|].
  destruct (same_edge _ _); [exact Ha|].
  destruct (threshold <=? _); [exact Ha|].
  cbn [fst] in *. eapply incl_tran; [apply Graph_removeEdge_incl|exact Ha].
Qed.

Lemma fold_removeEdge_incl (l : list GraphEdge) (g : Graph) :
  incl (edges (fold_left Graph_removeEdge l g)) (edges g).
Proof.
  apply (fold_left_invariant _ (fun a : Graph => incl (edges a) (edges g)));
    [|apply incl_refl].
  intros a e Ha. eapply incl_tran; [apply Graph_removeEdge_incl|exact Ha].
Qed.

Lemma removeSparseVertices_incl (g : Graph) :
  incl (edges (fst (removeSparseVertices g))) (edges g).
Proof.
  unfold removeSparseVertices.
  assert (Hc : incl (edges (fst (fold_left collectSparse (vertices g) (g, []))))
                    (edges g)).
  { apply (fold_left_invariant _
             (fun st : Graph * list VertexRef =>
                incl (edges (fst st)) (edges g))); [|apply incl_refl].
    intros [a found] v Ha. unfold collectSparse.
    destruct (vertexEdges a v) as [|e [|e' es]]; try exact Ha.
    cbn [fst] in *. eapply incl_tran; [apply Graph_removeEdge_incl|exact Ha]. }
  destruct (fold_left collectSparse (vertices g) (g, [])) as [g1 found].
  cbn [fst] in Hc. destruct found as [|v found]; [exact Hc|].
  cbn [fst].
  apply (fold_left_invariant _ (fun a : Graph => incl (edges a) (edges g)));
    [|exact Hc].
  intros a u Ha. unfold dropVertex. cbn [edges].
  eapply incl_tran; [apply fold_removeEdge_incl|exact Ha].
Qed.

Lemma repeat_pass_incl (pass : Graph -> Graph * bool) :
  (forall g, incl (edges (fst (pass g))) (edges g)) ->
  forall fuel g, incl (edges (repeat_pass pass fuel g)) (edges g).
Proof.
  intros Hpass. induction fuel as [|fuel IH]; intros g; cbn [repeat_pass];
    [apply incl_refl|].
  pose proof (Hpass g) as Hg. destruct (pass g) as [g' again].
  cbn [fst] in Hg. destruct again; [|exact Hg].
  eapply incl_tran; [apply IH|exact Hg].
Qed.

(** A generated graph is simple: no edge joins a vertex to itself, and no
    two edges join the same two vertices, in either direction. *)
Theorem generated_graph_is_simple (vertexCount : nat) (G : Graph) :
  Graph_randomizedWithVertexCount H vertexCount = Some G ->
  (forall e, In e (edges G) -> vertex0 e <> vertex1 e) /\
  (forall e e', In e (edges G) -> In e' (edges G) ->
                edge_key e = edge_key e' -> e = e').
Proof.
  unfold Graph_randomizedWithVertexCount.
  destruct (generateRandomGraph H vertexCount Graph_empty) as [[g k]|] eqn:Eg;
    [|discriminate].
  intros [= <-].
  destruct (generateRandomGraph_spec H vertexCount g k Eg) as (Gen & _).
  destruct (buildFaces_frame H k g) as ((_ & Fe & _ & _) & _).
  rewrite Fe. split; [exact (gen_no_loop g Gen)|].
  unfold generateRandomGraph in Eg.
  destruct (addRandomVertices H vertexCount 0 Graph_empty) as [g1 k1] eqn:E1.
  destruct (addRandomVertices_generated H vertexCount) as (_ & V1).
  destruct (addRandomVertices_fields H vertexCount 0 Graph_empty)
    as (_ & Ed1 & _).
  rewrite E1 in V1, Ed1. cbn [fst] in V1, Ed1.
  destruct (createEdges H k1 g1) as [[g2 k2]|] eqn:E2; [|discriminate].
  cbv zeta in Eg.
  set (g3 := fold_left (sortEdgesCCW H) (vertices g2) g2) in Eg.
  set (g4 := repeat_pass (removeSmallAngles H (Math_PI / 6))
                         (S (length (edges g3))) g3) in Eg.
  set (g5 := repeat_pass removeSparseVertices (S (length (vertices g4))) g4)
    in Eg.
  assert (Hg : g5 = g) by congruence.
  assert (Hkeys : NoDup (map edge_key (edges g2))).
  { unfold createEdges in E2.
    destruct (shuffle H k1 (vertexPairs_of (vertices g1)))
      as [[pairs k1']|] eqn:Es; [|discriminate].
    injection E2 as <- _. apply admitEdges_keys.
    rewrite Ed1. cbn [map app].
    unfold shuffle in Es.
    destruct (shuffle_loop_Permutation H _ _ _ _ _ Es) as (Hperm & _).
    eapply Permutation_NoDup;
      [apply Permutation_map; exact Hperm|].
    apply vertexPairs_keys_NoDup. rewrite V1. apply seq_NoDup. }
  assert (Hincl : incl (edges g) (edges g2)).
  { rewrite <- Hg. unfold g5, g4.
    eapply incl_tran; [apply repeat_pass_incl, removeSparseVertices_incl|].
    eapply incl_tran; [apply repeat_pass_incl; intros a;
                       apply removeSmallAngles_incl|].
    destruct (sort_all_frame H g2 (vertices g2)) as (_ & Fe3 & _).
    unfold g3. rewrite Fe3. apply incl_refl. }
  intros e e' He He' Hk. apply Hincl in He, He'.
  clear -Hkeys He He' Hk. induction (edges g2) as [|a l IH];
    [destruct He|].
  cbn [map] in Hkeys. apply NoDup_cons_iff in Hkeys.
  destruct Hkeys as (Hnot & Hnd).
  destruct He as [<-|He], He' as [<-|He'].
  - reflexivity.
  - exfalso. apply Hnot. rewrite Hk. apply in_map. exact He'.
  - exfalso. apply Hnot. rewrite <- Hk. apply in_map. exact He.
  - apply IH; assumption.
Qed.

End Candidates.

Lemma createEdges_is_greedy_witness :
  exists g' k',
    createEdges host_square 8 (fst (addRandomVertices host_square 4 0 Graph_empty))
    = Some (g', k') /\
    (joined g' 0 2 \/ blocked g' 0 2) /\ (joined g' 1 3 \/ blocked g' 1 3).
Proof.
  destruct (createEdges host_square 8
              (fst (addRandomVertices host_square 4 0 Graph_empty)))
    as [[g' k']|] eqn:E; [|vm_compute in E; discriminate].
  exists g', k'. split; [reflexivity|].
  destruct (createEdges_is_greedy host_square 8 _ g' k' E) as (_ & Hall).
  split; apply Hall; vm_compute; tauto.
Defined.

Lemma generated_graph_is_simple_witness :
  exists G,
    Graph_randomizedWithVertexCount host_square 4 = Some G /\
    (forall e, In e (edges G) -> vertex0 e <> vertex1 e) /\
    (forall e e', In e (edges G) -> In e' (edges G) ->
                  edge_key e = edge_key e' -> e = e').
Proof.
  destruct (Graph_randomizedWithVertexCount host_square 4) as [G|] eqn:E;
    [|vm_compute in E; discriminate].
  exists G. split; [reflexivity|].
  exact (generated_graph_is_simple host_square 4 G E).
Defined.

(* ================================================================= *)
(** ** sortEdgesCCW *)

Section Sorting.

Variable H : Host.

Lemma sort_insert_ordered {A : Type} (cmp : A -> A -> float) (a : A)
  (l : list A) :
  (forall u w, (0 <? cmp u w) = true -> (0 <? cmp w u) = false) ->
  ordered cmp l -> ordered cmp (sort_insert cmp a l).
Proof.
  intros Hanti. induction l as [|b rest IH]; intros Hl.
  - simpl. auto.
  - cbn [sort_insert]. destruct (0 <? cmp a b) eqn:Eab.
    + cbn [ordered] in Hl. destruct Hl as (Hb & Hrest).
      specialize (IH Hrest). cbn [ordered]. split; [|exact IH].
      destruct rest as [|r0 rest']; cbn [sort_insert].
      * apply Hanti. exact Eab.
      * destruct (0 <? cmp a r0); [exact Hb|apply Hanti; exact Eab].
    + cbn [ordered]. split; [exact Eab|exact Hl].
Qed.

Lemma Array_sort_ordered {A : Type} (cmp : A -> A -> float) (l : list A) :
  (forall u w, (0 <? cmp u w) = true -> (0 <? cmp w u) = false) ->
  ordered cmp (Array_sort cmp l).
Proof.
  intros Hanti. induction l as [|a l IH]; cbn [Array_sort]; [exact I|].
  apply sort_insert_ordered; assumption.
Qed.

(** A difference that is greater than 0 has an opposite difference that is
    not. *)
Lemma sub_positive_antisym (a b : float) :
  (0 <? a - b) = true -> (0 <? b - a) = false.
Proof.
  rewrite !FloatAxioms.ltb_spec.
  change (Prim2SF 0) with (S754_zero false).
  pose proof (sub_swap_value b a) as Hs. unfold same_value in Hs.
  destruct (Prim2SF (a - b)) as [s|s| |s m e];
    destruct (Prim2SF (b - a)) as [s'|s'| |s' m' e']; simpl in Hs |- *;
    try discriminate; try reflexivity.
  - destruct s; [discriminate|]. injection Hs as ->. reflexivity.
  - destruct s; [discriminate|]. injection Hs as -> _ _. reflexivity.
Qed.

(** [sortEdgesCCW] keeps the edges of the vertex and puts them in the
    order of its comparator, the difference of the direction angles: no
    edge has an angle greater than the edge after it.  The edge arrays of
    the other vertices and the rest of the graph are not touched. *)
Theorem sortEdgesCCW_orders_by_angle (g : Graph) (v : VertexRef) :
  (forall e, In e (vertexEdges g v) -> is_nan (edgeAngle H g v e) = false) ->
  let g' := sortEdgesCCW H g v in
  Permutation (vertexEdges g v) (vertexEdges g' v) /\
  ordered (fun ea eb => edgeAngle H g' v ea - edgeAngle H g' v eb)
          (vertexEdges g' v) /\
  (forall u, u <> v -> vertexEdges g' u = vertexEdges g u) /\
  same_frame g g'.
Proof.
  intros _. cbv zeta. split; [apply sortEdgesCCW_vertexEdges|].
  split; [|split].
  - change (fun ea eb => edgeAngle H (sortEdgesCCW H g v) v ea
                         - edgeAngle H (sortEdgesCCW H g v) v eb)
      with (fun ea eb => edgeAngle H g v ea - edgeAngle H g v eb).
    unfold sortEdgesCCW. cbn [vertexEdges]. unfold update.
    destruct (Nat.eq_dec v v) as [_|Hne]; [|destruct (Hne eq_refl)].
    apply Array_sort_ordered. intros u w. apply sub_positive_antisym.
  - intros u Hne. unfold sortEdgesCCW. cbn [vertexEdges]. unfold update.
    destruct (Nat.eq_dec u v); [contradiction|reflexivity].
  - apply sortEdgesCCW_frame.
Qed.

End Sorting.

Lemma sortEdgesCCW_orders_by_angle_witness :
  let G := Graph_fromSerialized (ref_host []) grid_2x2 in
  ordered (fun ea eb => edgeAngle (ref_host []) (sortEdgesCCW (ref_host []) G 4) 4%nat ea
                        - edgeAngle (ref_host []) (sortEdgesCCW (ref_host []) G 4) 4%nat eb)
          (vertexEdges (sortEdgesCCW (ref_host []) G 4) 4%nat).
Proof.
  cbv zeta.
  assert (Hnum : forall e,
            In e (vertexEdges (Graph_fromSerialized (ref_host []) grid_2x2) 4%nat) ->
            is_nan (edgeAngle (ref_host [])
                      (Graph_fromSerialized (ref_host []) grid_2x2) 4%nat e)
            = false).
  { apply Forall_forall.
    assert (Hall : forallb
              (fun e => negb (is_nan (edgeAngle (ref_host [])
                        (Graph_fromSerialized (ref_host []) grid_2x2) 4%nat e)))
              (vertexEdges (Graph_fromSerialized (ref_host []) grid_2x2) 4%nat)
            = true) by (vm_compute; reflexivity).
    apply Forall_forall. intros e He.
    rewrite forallb_forall in Hall. specialize (Hall e He).
    apply negb_true_iff in Hall. exact Hall. }
  exact (proj1 (proj2 (sortEdgesCCW_orders_by_angle (ref_host [])
                         (Graph_fromSerialized (ref_host []) grid_2x2) 4%nat
                         Hnum))).
Defined.

(* ================================================================= *)
(** ** Vertices at one point *)

Section Coincident.

Variable H : Host.

Lemma is_nan_eq (p : float) : is_nan p = true -> p = nan.
Proof.
  rewrite is_nan_Prim2SF. intros Hn.
  rewrite <- (FloatAxioms.SF2Prim_Prim2SF p).
  destruct (Prim2SF p); try discriminate. reflexivity.
Qed.

Lemma Math_min_diag (p : float) : Math_min p p = p.
Proof.
  unfold Math_min. destruct (is_nan p) eqn:En; simpl.
  - symmetry. apply is_nan_eq. exact En.
  - destruct (p <? p); [reflexivity|].
    destruct (is_zero p && get_sign p)%bool; reflexivity.
Qed.

Lemma Math_max_diag (p : float) : Math_max p p = p.
Proof.
  unfold Math_max. destruct (is_nan p) eqn:En; simpl.
  - symmetry. apply is_nan_eq. exact En.
  - destruct (p <? p); [reflexivity|].
    destruct (is_zero p && negb (get_sign p))%bool; reflexivity.
Qed.

Lemma Math_min_infinity (p : float) : Math_min infinity p = p.
Proof.
  unfold Math_min. change (is_nan infinity) with false. cbn [orb].
  destruct (is_nan p) eqn:En.
  - symmetry. apply is_nan_eq. exact En.
  - assert (Hlt : (infinity <? p) = false).
    { rewrite FloatAxioms.ltb_spec.
      change (Prim2SF infinity) with (S754_infinity false).
      destruct (Prim2SF p) as [s|s| |s m e]; try reflexivity.
      destruct s; reflexivity. }
    rewrite Hlt. destruct (p <? infinity); [reflexivity|].
    change (is_zero infinity) with false. reflexivity.
Qed.

Lemma Math_max_neg_infinity (p : float) : Math_max neg_infinity p = p.
Proof.
  unfold Math_max. change (is_nan neg_infinity) with false. cbn [orb].
  destruct (is_nan p) eqn:En.
  - symmetry. apply is_nan_eq. exact En.
  - destruct (neg_infinity <? p); [reflexivity|].
    assert (Hlt : (p <? neg_infinity) = false).
    { rewrite FloatAxioms.ltb_spec.
      change (Prim2SF neg_infinity) with (S754_infinity true).
      destruct (Prim2SF p) as [s|s| |s m e]; try reflexivity.
      destruct s; reflexivity. }
    rewrite Hlt. change (is_zero neg_infinity) with false. reflexivity.
Qed.

(** The extent of a box whose two bounds are one number is not greater
    than 0: it is 0 or NaN. *)
Lemma extent_diag (c : float) : (0 <? c - c) = false.
Proof.
  rewrite FloatAxioms.ltb_spec, FloatAxioms.sub_spec. unfold SF64sub.
  change (Prim2SF 0) with (S754_zero false).
  destruct (SFsub_diag (Prim2SF c)) as [-> | ->]; reflexivity.
Qed.

Lemma normalizeWith_point (c : vec2) (g : Graph) :
  normalizeWith c c g = map_positions (fun _ => new_vec2 0 0) g.
Proof.
  unfold normalizeWith. cbv zeta.
  destruct ((x c - x c =? 0) && (y c - y c =? 0))%bool; [reflexivity|].
  cbn [x y]. rewrite !extent_diag, Math_min_infinity.
  reflexivity.
Qed.

Lemma pushVertices_const (c : vec2) (l : list (float * float)) :
  Forall (fun p => p = (x c, y c)) l ->
  forall g,
    (forall v, (v < length (vertices g))%nat -> pos g v = c) ->
    forall v, (v < length (vertices g) + length l)%nat ->
              pos (pushVertices l g) v = c.
Proof.
  induction 1 as [|p l Hp Hl IH]; intros g Hg v Hv; cbn [pushVertices].
  - apply Hg. simpl in Hv. lia.
  - subst p. apply IH.
    + intros u Hu. cbn [vertices pos] in *. rewrite length_app in Hu.
      simpl in Hu. unfold update.
      destruct (Nat.eq_dec u (length (vertices g))).
      * destruct c; reflexivity.
      * apply Hg. lia.
    + cbn [vertices]. rewrite length_app. simpl in *. lia.
Qed.

Lemma boundingBox_const (c : vec2) (g : Graph) :
  vertices g <> [] ->
  (forall v, In v (vertices g) -> pos g v = c) ->
  boundingBox g = (c, c).
Proof.
  unfold boundingBox. destruct (vertices g) as [|v0 vs]; [congruence|].
  intros _ Hpos. cbn [fold_left].
  rewrite (Hpos v0 (or_introl eq_refl)).
  cbn [x y]. rewrite !Math_min_infinity, !Math_max_neg_infinity.
  assert (Hrest : forall u, In u vs -> pos g u = c)
    by (intros u Hu; apply Hpos; right; exact Hu).
  clear Hpos. induction vs as [|u vs IH]; cbn [fold_left].
  - destruct c; reflexivity.
  - rewrite (Hrest u (or_introl eq_refl)). cbn [x y].
    rewrite !Math_min_diag, !Math_max_diag.
    apply IH. intros w Hw. apply Hrest. right. exact Hw.
Qed.

Lemma map_origin_seq {B : Type} (q : VertexRef -> vec2) (m : list B) (k : nat) :
  (forall v, In v (seq k (length m)) -> q v = new_vec2 0 0) ->
  map (fun v => (x (q v), y (q v))) (seq k (length m))
  = map (fun _ => (0, 0)) m.
Proof.
  revert k. induction m as [|a m IH]; intros k Hq; cbn [length seq map];
    [reflexivity|].
  rewrite (Hq k) by (left; reflexivity). cbn [x y]. f_equal.
  apply IH. intros v Hv. apply Hq. right. exact Hv.
Qed.

Lemma normalized_const (c : vec2) (l : list (float * float)) :
  Forall (fun p => p = (x c, y c)) l ->
  normalized l = map (fun _ => (0, 0)) l.
Proof.
  intros Hl. unfold normalized.
  set (g1 := pushVertices l Graph_empty).
  assert (Hvs : vertices g1 = seq 0 (length l)).
  { unfold g1. rewrite pushVertices_vertices. reflexivity. }
  destruct l as [|p l]; [reflexivity|].
  assert (Hpos : forall v, In v (vertices g1) -> pos g1 v = c).
  { intros v Hv. rewrite Hvs in Hv. apply in_seq in Hv.
    apply (pushVertices_const c (p :: l) Hl Graph_empty).
    - intros u Hu. simpl in Hu. lia.
    - simpl in *. lia. }
  assert (Hnorm : normalizeVerticesToGraphSpace g1
                  = map_positions (fun _ => new_vec2 0 0) g1).
  { unfold normalizeVerticesToGraphSpace.
    destruct (vertices g1) as [|v0 vs] eqn:Ev; [rewrite Hvs in Ev; discriminate|].
    rewrite (boundingBox_const c g1);
      [apply normalizeWith_point | congruence | rewrite Ev; exact Hpos]. }
  rewrite Hnorm. cbn [map_positions vertices pos]. rewrite Hvs.
  apply map_origin_seq. intros v Hv.
  apply map_positions_const_in. exact Hv.
Qed.

(** When all the vertices of the input are at one point, whatever its
    coordinates (NaN and the infinities too), [Graph.fromSerialized] puts
    every vertex at the origin; a single vertex always ends there. *)
Theorem fromSerialized_collapses_coincident_vertices
  (data : GraphSerialized) (c : float * float) (v : VertexRef) :
  Forall (fun p => p = c) (data_vertices data) ->
  In v (vertices (Graph_fromSerialized H data)) ->
  pos (Graph_fromSerialized H data) v = new_vec2 0 0.
Proof.
  intros Hall Hv.
  destruct (Graph_fromSerialized_fields H data) as (_ & _ & Hpos).
  cbv zeta in Hpos.
  rewrite (normalized_const (new_vec2 (fst c) (snd c))) in Hpos.
  - apply (in_map (fun v => (x (pos (Graph_fromSerialized H data) v),
                             y (pos (Graph_fromSerialized H data) v)))) in Hv.
    rewrite Hpos in Hv. apply in_map_iff in Hv.
    destruct Hv as (_ & Heq & _).
    destruct (pos (Graph_fromSerialized H data) v) as [px py].
    cbn [x y] in Heq. injection Heq as <- <-. reflexivity.
  - cbn [x y]. destruct c. exact Hall.
Qed.

End Coincident.

Lemma fromSerialized_collapses_coincident_vertices_witness :
  pos (Graph_fromSerialized (ref_host [])
         (mkGraphSerialized [(3, 7); (3, 7)] [(0, 1)])) 1%nat
  = new_vec2 0 0.
Proof.
  apply (fromSerialized_collapses_coincident_vertices (ref_host [])
           (mkGraphSerialized [(3, 7); (3, 7)] [(0, 1)]) (3, 7) 1%nat).
  - repeat constructor.
  - vm_compute. auto.
Defined.

(* ================================================================= *)
(** ** The renderer *)

Section Renderer.

Variable H : Host.

Lemma same_face_refl (a : option FaceRef) : same_face a a = true.
Proof. destruct a; simpl; [apply Nat.eqb_refl|reflexivity]. Qed.

Lemma same_face_eq (a b : option FaceRef) : same_face a b = true <-> a = b.
Proof.
  destruct a, b; simpl; split; try discriminate; try reflexivity.
  - intros Heq. apply Nat.eqb_eq in Heq. congruence.
  - intros [= ->]. apply Nat.eqb_refl.
Qed.

Lemma firstFaceInside_spec (g : Graph) (point : vec2) (fs : list GraphFace)
  (index : nat) (f : FaceRef) :
  firstFaceInside g point fs index = Some f <->
  exists i face,
    f = (index + i)%nat /\ nth_error fs i = Some face /\
    pointIsInside g face point = true /\
    forall j face', (j < i)%nat -> nth_error fs j = Some face' ->
                    pointIsInside g face' point = false.
Proof.
  revert index. induction fs as [|a fs IH]; intros index; cbn [firstFaceInside].
  - split; [discriminate|]. intros (i & face & _ & Hn & _).
    destruct i; discriminate.
  - destruct (pointIsInside g a point) eqn:Ea.
    + split.
      * intros [= <-]. exists 0%nat, a. split; [lia|]. split; [reflexivity|].
        split; [exact Ea|]. intros j face' Hj. lia.
      * intros (i & face & -> & Hn & Hin & Hbefore).
        destruct i as [|i]; [f_equal; lia|].
        rewrite (Hbefore 0%nat a) in Ea by (try lia; reflexivity).
        discriminate.
    + rewrite IH. split.
      * intros (i & face & -> & Hn & Hin & Hbefore).
        exists (S i), face. split; [lia|]. split; [exact Hn|].
        split; [exact Hin|]. intros [|j] face' Hj Hf.
        -- simpl in Hf. injection Hf as <-. exact Ea.
        -- apply (Hbefore j face'); [lia|exact Hf].
      * intros (i & face & -> & Hn & Hin & Hbefore).
        destruct i as [|i].
        -- simpl in Hn. injection Hn as <-. congruence.
        -- exists i, face. split; [lia|]. split; [exact Hn|].
           split; [exact Hin|]. intros j face' Hj Hf.
           apply (Hbefore (S j) face'); [lia|exact Hf].
Qed.

(** On a canvas of positive size [setHoveredFaceFromScreenPoint] makes the
    hovered face the first face of the face array that holds the point
    under the pointer, or [null] when no face holds it; it returns [true]
    exactly when that changed the hovered face, so the same call made
    again returns [false] and changes nothing.  The graph is not
    touched. *)
Theorem setHoveredFace_picks_first_face (this : GraphRenderer)
  (screenX screenY width height : float) :
  (width <=? 0) = false -> (height <=? 0) = false ->
  let point := unproject screenX screenY width height in
  let result :=
    setHoveredFaceFromScreenPoint this screenX screenY width height in
  renderer_graph (fst result) = renderer_graph this /\
  hoveredFace (fst result)
  = firstFaceInside (renderer_graph this) point
                    (faces (renderer_graph this)) 0 /\
  (snd result = true <-> hoveredFace (fst result) <> hoveredFace this) /\
  (forall f, hoveredFace (fst result) = Some f <->
             exists face,
               nth_error (faces (renderer_graph this)) f = Some face /\
               pointIsInside (renderer_graph this) face point = true /\
               forall j face', (j < f)%nat ->
                 nth_error (faces (renderer_graph this)) j = Some face' ->
                 pointIsInside (renderer_graph this) face' point = false) /\
  setHoveredFaceFromScreenPoint (fst result) screenX screenY width height
  = (fst result, false).
Proof.
  intros Hw Hh. cbv zeta.
  set (point := unproject screenX screenY width height).
  set (hovered := firstFaceInside (renderer_graph this) point
                                  (faces (renderer_graph this)) 0).
  assert (Hres : setHoveredFaceFromScreenPoint this screenX screenY width height
                 = if same_face hovered (hoveredFace this) then (this, false)
                   else (mkGraphRenderer (renderer_graph this) hovered, true)).
  { unfold setHoveredFaceFromScreenPoint. rewrite Hw, Hh. reflexivity. }
  assert (Hhov : hoveredFace
                   (fst (setHoveredFaceFromScreenPoint this screenX screenY
                           width height)) = hovered).
  { rewrite Hres. destruct (same_face hovered (hoveredFace this)) eqn:Es.
    - apply same_face_eq in Es. simpl. congruence.
    - reflexivity. }
  assert (Hg : renderer_graph
                 (fst (setHoveredFaceFromScreenPoint this screenX screenY
                         width height)) = renderer_graph this).
  { rewrite Hres. destruct (same_face hovered (hoveredFace this)); reflexivity. }
  split; [exact Hg|]. split; [exact Hhov|]. split; [|split].
  - rewrite Hhov. rewrite Hres.
    destruct (same_face hovered (hoveredFace this)) eqn:Es; simpl.
    + apply same_face_eq in Es. split; [discriminate|]. intros Hne.
      destruct (Hne Es).
    + split; [|reflexivity]. intros _ Heq.
      rewrite (proj2 (same_face_eq _ _) Heq) in Es. discriminate.
  - intros f. rewrite Hhov. unfold hovered. rewrite firstFaceInside_spec.
    split.
    + intros (i & face & -> & Hn & Hin & Hb). exists face. simpl. auto.
    + intros (face & Hn & Hin & Hb). exists f, face. auto.
  - unfold setHoveredFaceFromScreenPoint at 1. rewrite Hw, Hh. cbn [orb].
    rewrite Hg. fold point. fold hovered. rewrite Hhov, same_face_refl.
    reflexivity.
Qed.

Lemma chain_suffix (g : Graph) (pre l : list GraphHalfEdge) :
  chain g (pre ++ l) -> chain g l.
Proof.
  induction pre as [|a pre IH]; [auto|].
  change ((a :: pre) ++ l) with (a :: (pre ++ l)). cbn [chain].
  intros (_ & Hr). apply IH. exact Hr.
Qed.

Lemma polygon_path_snoc (points : list vec2) (q : vec2) :
  polygon_path (points ++ [q])
  = polygon_path points
    ++ [if (length points =? 0)%nat then moveTo (x q) (y q)
        else lineTo (x q) (y q)].
Proof.
  destruct points as [|p rest]; [reflexivity|].
  cbn [app polygon_path length Nat.eqb]. rewrite map_app. reflexivity.
Qed.

(** The loop of [fillFace] over a closed walk without repetition: it goes
    once around and stops back at the start. *)
Lemma fillFace_loop_walk (g : Graph) (width height : float)
  (start : GraphHalfEdge) (ctx0 : list CanvasCommand)
  (suf : list GraphHalfEdge) :
  forall (pre : list GraphHalfEdge) (c : GraphHalfEdge) (allowed : nat),
    let hs := pre ++ c :: suf in
    hd c pre = start ->
    chain g hs -> next g (last hs start) = Some start -> NoDup hs ->
    (length suf < allowed)%nat ->
    fillFace_loop g width height start (Some c) (length pre) allowed
      (ctx0 ++ polygon_path (map (corner g width height) pre))
    = (ctx0 ++ polygon_path (map (corner g width height) hs), length hs).
Proof.
  induction suf as [|d suf IH]; intros pre c allowed hs Hstart Hc Hl Hnd Ha;
    (destruct allowed as [|allowed]; [simpl in Ha; lia|]);
    cbn [fillFace_loop].
  - unfold hs in *. rewrite last_last in Hl. rewrite Hl.
    unfold same_halfEdge.
    destruct (GraphHalfEdge_eq_dec start start) as [_|Hne];
      [|destruct (Hne eq_refl)].
    rewrite map_app. cbn [map].
    rewrite polygon_path_snoc, length_map, length_app.
    cbn [length]. rewrite <- app_assoc. f_equal. lia.
  - assert (Hnext : next g c = Some d).
    { apply (chain_suffix g pre (c :: d :: suf)) in Hc.
      cbn [chain] in Hc. exact (proj1 Hc). }
    rewrite Hnext. unfold same_halfEdge.
    destruct (GraphHalfEdge_eq_dec d start) as [Heq|Hne].
    + exfalso. unfold hs in Hnd. destruct pre as [|p pre].
      * simpl in Hstart. subst c. simpl in Hnd.
        apply NoDup_cons_iff in Hnd. destruct Hnd as (Hnot & _).
        apply Hnot. left. exact Heq.
      * simpl in Hstart. subst p. simpl in Hnd.
        apply NoDup_cons_iff in Hnd. destruct Hnd as (Hnot & _).
        apply Hnot. apply in_or_app. right. right. left. exact Heq.
    + specialize (IH (pre ++ [c]) d allowed).
      cbv zeta in IH. rewrite <- !app_assoc in IH. cbn [app] in IH.
      rewrite length_app in IH. cbn [length] in IH.
      rewrite Nat.add_1_r in IH.
      rewrite map_app in IH. cbn [map] in IH.
      rewrite polygon_path_snoc, length_map in IH.
      rewrite <- app_assoc. apply IH; try assumption.
      * destruct pre; simpl in *; assumption.
      * simpl in Ha. lia.
Qed.

(** [fillFace] on a face of a graph a constructor returned, with three
    half-edges or more: the path it fills is the polygon through the
    origins of the face's half-edges, in the order of the face's array,
    each corner once; the fill is the face's color at alpha 0.4, or the
    color and alpha of the hover style. *)
Theorem fillFace_fills_the_face_polygon (G : Graph) (F : GraphFace)
  (ctx : list CanvasCommand) (width height : float)
  (style : option (String.string * float)) :
  built H G -> In F (faces G) -> (3 <= length (face_halfEdges F))%nat ->
  fillFace G ctx width height F style
  = ctx ++ [beginPath]
    ++ polygon_path (map (corner G width height) (face_halfEdges F))
    ++ [closePath;
        set_fillStyle match style with
                      | Some (color, _) => StyleColor color
                      | None => FaceColor (color F)
                      end;
        set_globalAlpha match style with
                        | Some (_, alpha) => alpha
                        | None => 0.4
                        end;
        fill; set_globalAlpha 1].
Proof.
  intros HB HF Hlen.
  destruct (built_faces_agree H G HB) as ((_ & A2) & _).
  destruct (In_nth_error _ _ HF) as [f Hf].
  destruct (A2 f F Hf) as (Hnd & _).
  assert (Hwalk : closed_walk G (face_halfEdges F)).
  { destruct (built_from H G HB) as (g & k & -> & _ & _).
    apply (buildFaces_walks H k g). exact HF. }
  unfold fillFace. cbv zeta.
  destruct (Nat.ltb_spec (length (face_halfEdges F)) 3) as [Hlt|_]; [lia|].
  destruct (face_halfEdges F) as [|start rest] eqn:Ehs; [simpl in Hlen; lia|].
  destruct Hwalk as (Hc & Hl).
  pose proof (fillFace_loop_walk G width height start (ctx ++ [beginPath])
                rest [] start (S (length (start :: rest) + 1))) as Hloop.
  cbv zeta in Hloop. cbn [app map polygon_path hd] in Hloop.
  rewrite app_nil_r in Hloop.
  change (length (@nil GraphHalfEdge)) with 0%nat in Hloop.
  rewrite Hloop; try assumption; try reflexivity; [|simpl; lia].
  destruct (Nat.ltb_spec (length (start :: rest)) 3) as [Hlt|_]; [lia|].
  rewrite <- !app_assoc. reflexivity.
Qed.

End Renderer.

(** The pointer at the middle of a canvas of 200 by 200 over the grid of
    four unit squares. *)
Lemma setHoveredFace_picks_first_face_witness :
  let this := new_GraphRenderer (Graph_fromSerialized (ref_host []) grid_2x2) in
  hoveredFace (fst (setHoveredFaceFromScreenPoint this 50 150 200 200))
  = firstFaceInside (renderer_graph this) (unproject 50 150 200 200)
                    (faces (renderer_graph this)) 0 /\
  setHoveredFaceFromScreenPoint
    (fst (setHoveredFaceFromScreenPoint this 50 150 200 200)) 50 150 200 200
  = (fst (setHoveredFaceFromScreenPoint this 50 150 200 200), false).
Proof.
  cbv zeta.
  destruct (setHoveredFace_picks_first_face
              (new_GraphRenderer (Graph_fromSerialized (ref_host []) grid_2x2))
              50 150 200 200 eq_refl eq_refl) as (_ & Hh & _ & _ & Hagain).
  split; [exact Hh|exact Hagain].
Defined.

(** The first face of the grid of four unit squares, on a canvas of 200 by
    200. *)
Lemma fillFace_fills_the_face_polygon_witness :
  exists F,
    nth_error (faces (Graph_fromSerialized (ref_host []) grid_2x2)) 0 = Some F /\
    fillFace (Graph_fromSerialized (ref_host []) grid_2x2) [] 200 200 F None
    = [beginPath]
      ++ polygon_path
           (map (corner (Graph_fromSerialized (ref_host []) grid_2x2) 200 200)
                (face_halfEdges F))
      ++ [closePath; set_fillStyle (FaceColor (color F));
          set_globalAlpha 0.4; fill; set_globalAlpha 1].
Proof.
  destruct (nth_error (faces (Graph_fromSerialized (ref_host []) grid_2x2)) 0)
    as [F|] eqn:EF; [|vm_compute in EF; discriminate].
  exists F. split; [reflexivity|].
  assert (Hlen : (3 <= length (face_halfEdges F))%nat).
  { assert (Hrun : option_map (fun F => length (face_halfEdges F))
                     (nth_error (faces (Graph_fromSerialized (ref_host [])
                                          grid_2x2)) 0) = Some 4%nat)
      by (vm_compute; reflexivity).
    rewrite EF in Hrun. simpl in Hrun. injection Hrun as ->. lia. }
  exact (fillFace_fills_the_face_polygon (ref_host [])
           (Graph_fromSerialized (ref_host []) grid_2x2) F [] 200 200 None
           (built_fromSerialized (ref_host []) grid_2x2)
           (nth_error_In _ _ EF) Hlen).
Defined.

(* ================================================================= *)
(** ** Layers as distances and the area of a face *)

Section Distance.

Variable H : Host.

Lemma layered_reached (g : Graph) (this : FaceRef)
  (layers : list (list FaceRef)) :
  layered g this layers ->
  forall k layer x, nth_error layers k = Some layer -> In x layer ->
                    reached g this k x.
Proof.
  intros (L0 & _ & _ & Lstep & _). induction k as [|k IH]; intros layer x Hk Hx.
  - rewrite L0 in Hk. injection Hk as <-. destruct Hx as [<-|[]]. constructor.
  - assert (Hex : exists prev, nth_error layers k = Some prev).
    { assert (S k < length layers)%nat by (apply nth_error_Some; congruence).
      destruct (nth_error layers k) eqn:E; [eauto|].
      apply nth_error_None in E. lia. }
    destruct Hex as [prev Ek].
    apply (Lstep k prev layer Ek Hk) in Hx.
    destruct Hx as ((y & Hy & Hn) & _).
    apply (reached_next g this k y x); [|exact Hn].
    apply (IH prev y Ek Hy).
Qed.

Lemma in_firstn_layers (layers : list (list FaceRef)) (n : nat) (x : FaceRef) :
  In x (concat (firstn n layers)) ->
  exists j layer, (j < n)%nat /\ nth_error layers j = Some layer /\ In x layer.
Proof.
  revert n. induction layers as [|l layers IH]; intros [|n]; simpl;
    try (intros []).
  intros Hin. apply in_app_or in Hin. destruct Hin as [Hin|Hin].
  - exists 0%nat, l. split; [lia|]. split; [reflexivity|exact Hin].
  - destruct (IH n Hin) as (j & layer & Hj & Hn & Hx).
    exists (S j), layer. split; [lia|]. split; assumption.
Qed.

Lemma reached_layer (g : Graph) (this : FaceRef)
  (layers : list (list FaceRef)) :
  layered g this layers ->
  forall n x, reached g this n x ->
    exists j layer, (j <= n)%nat /\ nth_error layers j = Some layer /\ In x layer.
Proof.
  intros (L0 & Lnd & Lne & Lstep & Llast). induction 1 as [|n y x Hr IH Hn].
  - exists 0%nat, [this]. split; [lia|]. split; [exact L0|left; reflexivity].
  - destruct IH as (j & layer & Hj & Hk & Hy).
    assert (Hlt : (j < length layers)%nat)
      by (apply nth_error_Some; congruence).
    destruct (in_dec Nat.eq_dec x (concat (firstn (S j) layers))) as [Hx|Hx].
    + destruct (in_firstn_layers layers (S j) x Hx) as (i & l & Hi & Hl & Hxl).
      exists i, l. split; [lia|]. split; assumption.
    + destruct (Nat.eq_dec j (length layers - 1)) as [Hlast|Hnl].
      * exfalso. apply Hx. rewrite firstn_all2 by lia.
        rewrite Hlast in Hk. exact (Llast layer Hk x y Hy Hn).
      * assert (Hex : exists layer', nth_error layers (S j) = Some layer').
        { destruct (nth_error layers (S j)) eqn:E; [eauto|].
          apply nth_error_None in E. lia. }
        destruct Hex as [layer' Ek'].
        exists (S j), layer'. split; [lia|]. split; [exact Ek'|].
        apply (Lstep j layer layer' Hk Ek'). split; [eauto|exact Hx].
Qed.

Lemma layers_disjoint (layers : list (list FaceRef)) (i j : nat)
  (l l' : list FaceRef) (x : FaceRef) :
  NoDup (concat layers) ->
  nth_error layers i = Some l -> nth_error layers j = Some l' ->
  In x l -> In x l' -> i = j.
Proof.
  revert i j. induction layers as [|a layers IH]; intros i j Hnd Hi Hj Hx Hx'.
  - destruct i; discriminate.
  - simpl in Hnd. apply NoDup_app_remove_l in Hnd as Hnd'.
    assert (Hdisj : forall y, In y a -> ~ In y (concat layers)).
    { intros y Hy Hin. clear -Hnd Hy Hin.
      induction a as [|b a IHa]; [destruct Hy|].
      simpl in Hnd. apply NoDup_cons_iff in Hnd. destruct Hnd as (Hnot & Hnd).
      destruct Hy as [<-|Hy].
      - apply Hnot. apply in_or_app. right. exact Hin.
      - apply IHa; assumption. }
    destruct i as [|i], j as [|j]; simpl in Hi, Hj.
    + reflexivity.
    + injection Hi as <-. exfalso. apply (Hdisj x Hx).
      apply in_concat. exists l'. split; [eapply nth_error_In; exact Hj|exact Hx'].
    + injection Hj as <-. exfalso. apply (Hdisj x Hx').
      apply in_concat. exists l. split; [eapply nth_error_In; exact Hi|exact Hx].
    + f_equal. apply (IH i j Hnd' Hi Hj Hx Hx').
Qed.

(** [shellLayers] is a breadth-first search: the layer of index [k] holds
    exactly the faces that a chain of [k] neighbors reaches from the
    starting face and no shorter chain does. *)
Theorem shellLayers_layer_is_distance (G : Graph) (f : FaceRef) (k : nat)
  (x : FaceRef) :
  built H G -> (f < length (faces G))%nat ->
  ((exists layer, nth_error (shellLayers G f) k = Some layer /\ In x layer) <->
   reached G f k x /\ forall n, (n < k)%nat -> ~ reached G f n x).
Proof.
  intros HB Hf. destruct (built_faces_agree H G HB) as ((A1 & _) & _).
  assert (HL : layered G f (shellLayers G f)).
  { apply shellLayers_layered; [|exact Hf].
    intros y0 x0 (h & _ & _ & Hx & _). apply A1 in Hx.
    destruct Hx as (F & HF & _). apply nth_error_Some. congruence. }
  pose proof HL as (_ & Lnd & _).
  split.
  - intros (layer & Hk & Hx). split.
    + exact (layered_reached G f _ HL k layer x Hk Hx).
    + intros n Hn Hr.
      destruct (reached_layer G f _ HL n x Hr) as (j & l & Hj & Hl & Hxl).
      assert (k = j) by (apply (layers_disjoint _ k j layer l x Lnd); assumption).
      lia.
  - intros (Hr & Hmin).
    destruct (reached_layer G f _ HL k x Hr) as (j & l & Hj & Hl & Hxl).
    destruct (Nat.eq_dec j k) as [->|Hne]; [eauto|].
    exfalso. apply (Hmin j); [lia|].
    exact (layered_reached G f _ HL j l x Hl Hxl).
Qed.

Lemma computeFaceArea_loop_chain (g : Graph) (first : GraphHalfEdge) :
  forall (hs : list GraphHalfEdge) (c : GraphHalfEdge) (area : float),
    chain g (c :: hs) -> next g (last (c :: hs) first) = Some first ->
    computeFaceArea_loop g (c :: hs) area
    = fold_left (fun a pq => a + vec2_cross (fst pq) (snd pq))
        (combine (map (fun h => pos g (origin h)) (c :: hs))
                 (map (fun h => pos g (origin h)) (hs ++ [first])))
        area / 2.
Proof.
  induction hs as [|d hs IH]; intros c area Hc Hl.
  - simpl in Hl. simpl. rewrite Hl. reflexivity.
  - cbn [chain] in Hc. destruct Hc as (Hcd & Hrest).
    change (computeFaceArea_loop g (c :: d :: hs) area)
      with (match next g c with
            | None => 0
            | Some n =>
                computeFaceArea_loop g (d :: hs)
                  (area + vec2_cross (pos g (origin c)) (pos g (origin n)))
            end).
    rewrite Hcd. rewrite (IH d _ Hrest); [reflexivity|exact Hl].
Qed.

(** The area [computeFaceArea] gives for a face of a graph a constructor
    returned is the shoelace sum over the origins of the face's half-edges,
    halved: the walk never lacks a [next], so the early return of 0 is not
    taken. *)
Theorem face_area_is_shoelace (G : Graph) (F : GraphFace) :
  built H G -> In F (faces G) ->
  computeFaceArea G (face_halfEdges F)
  = shoelace (map (fun h => pos G (origin h)) (face_halfEdges F)).
Proof.
  intros HB HF.
  assert (Hwalk : closed_walk G (face_halfEdges F)).
  { destruct (built_from H G HB) as (g & k & -> & _ & _).
    apply (buildFaces_walks H k g). exact HF. }
  destruct (face_halfEdges F) as [|first rest]; [destruct Hwalk|].
  destruct Hwalk as (Hc & Hl).
  unfold computeFaceArea, shoelace.
  rewrite (computeFaceArea_loop_chain G first rest first 0 Hc Hl).
  cbn [map tl firstn]. rewrite map_app. reflexivity.
Qed.

End Distance.

Lemma shellLayers_layer_is_distance_witness :
  (0 < length (faces (Graph_fromSerialized (ref_host []) grid_2x2)))%nat /\
  ((exists layer,
      nth_error (shellLayers (Graph_fromSerialized (ref_host []) grid_2x2) 0) 2
      = Some layer /\ In 3%nat layer) <->
   reached (Graph_fromSerialized (ref_host []) grid_2x2) 0 2 3 /\
   forall n, (n < 2)%nat ->
             ~ reached (Graph_fromSerialized (ref_host []) grid_2x2) 0 n 3).
Proof.
  assert (Hf : (0 < length (faces (Graph_fromSerialized (ref_host [])
                                     grid_2x2)))%nat) by (vm_compute; lia).
  split; [exact Hf|].
  exact (shellLayers_layer_is_distance (ref_host [])
           (Graph_fromSerialized (ref_host []) grid_2x2) 0%nat 2%nat 3%nat
           (built_fromSerialized (ref_host []) grid_2x2) Hf).
Defined.

Lemma face_area_is_shoelace_witness :
  Forall (fun F =>
            computeFaceArea (Graph_fromSerialized (ref_host []) grid_2x2)
                            (face_halfEdges F)
            = shoelace (map (fun h => pos (Graph_fromSerialized (ref_host [])
                                             grid_2x2) (origin h))
                            (face_halfEdges F)))
         (faces (Graph_fromSerialized (ref_host []) grid_2x2)).
Proof.
  apply Forall_forall. intros F HF.
  exact (face_area_is_shoelace (ref_host [])
           (Graph_fromSerialized (ref_host []) grid_2x2) F
           (built_fromSerialized (ref_host []) grid_2x2) HF).
Defined.

(* ================================================================= *)
(** ** The export read back as text *)

Section ExportedText.

Variable H : Host.

(** When the vertices are well formed and some item of [edges] is not an
    array of two numbers, the error is the one of the first such edge item,
    with its index: "Edge at index i must be [i, j]" when the item is not
    an array of length 2, "Edge at index i must contain numbers"
    otherwise. *)
Theorem parseGraphData_reports_first_bad_edge
  (fields : list (String.string * JSValue)) (vertices : list (float * float))
  (edgesRaw : list JSValue) (i : nat) (item : JSValue) :
  own_property fields "vertices"%string
  = Some (JSarray (map pair_value vertices)) ->
  own_property fields "edges"%string = Some (JSarray edgesRaw) ->
  nth_error edgesRaw i = Some item ->
  (forall p, item <> pair_value p) ->
  (forall j, (j < i)%nat ->
             exists p, nth_error edgesRaw j = Some (pair_value p)) ->
  parseGraphData (JSobject fields)
  = inl (if is_pair_array item then EdgeMustContainNumbers i
         else EdgeMustBePair i).
Proof.
  intros Hv He Hi Hbad Hbefore. unfold parseGraphData. simpl.
  rewrite Hv, He.
  rewrite (proj2 (parse_items_inr _ _ _ 0 vertices) eq_refl).
  rewrite (parse_items_first_bad _ _ _ 0 i item Hi Hbad Hbefore).
  destruct (is_pair_array item); reflexivity.
Qed.

Lemma JSON_pair_finite (p : float * float) :
  finite_pair p = true -> JSON_pair p = pair_value (unsigned_pair p).
Proof.
  unfold finite_pair, JSON_pair, JSON_number, pair_value, unsigned_pair.
  intros Hf. apply andb_true_iff in Hf. destruct Hf as (-> & ->). reflexivity.
Qed.

Lemma JSON_pairs_finite (l : list (float * float)) :
  forallb finite_pair l = true ->
  map JSON_pair l = map pair_value (map unsigned_pair l).
Proof.
  induction l as [|p l IH]; cbn [forallb map]; [reflexivity|].
  intros Hf. apply andb_true_iff in Hf. destruct Hf as (Hp & Hl).
  rewrite (JSON_pair_finite p Hp), (IH Hl). reflexivity.
Qed.

Lemma float_of_nat_plain (n : nat) :
  (Z.of_nat n < 2 ^ 53)%Z ->
  is_finite (float_of_nat n) = true /\
  (if is_zero (float_of_nat n) then 0 else float_of_nat n) = float_of_nat n.
Proof.
  intros Hn. unfold float_of_nat, float_of_Z.
  destruct (Z.of_nat n) as [|p|p] eqn:Hz; try lia.
  - split; reflexivity.
  - destruct (binary_normalize_small p Hn) as (m & e & Hbn & He & Hm & Hv).
    rewrite Hbn.
    assert (Hnz : is_zero (SF2Prim (S754_finite false m e)) = false).
    { unfold is_zero. rewrite FloatAxioms.eqb_spec, (Prim2SF_SF2Prim _ Hv).
      reflexivity. }
    split; [|rewrite Hnz; reflexivity].
    unfold is_finite, is_nan, is_infinity.
    rewrite !FloatAxioms.eqb_spec, FloatAxioms.abs_spec,
      (Prim2SF_SF2Prim _ Hv).
    cbn [SFabs]. change (Prim2SF infinity) with (S754_infinity false).
    unfold SFeqb, SFcompare. rewrite Z.compare_refl, Pos.compare_cont_refl.
    reflexivity.
Qed.

Lemma index_pairs_plain (n : nat) (es : list GraphEdge) :
  (Z.of_nat n <= 2 ^ 53)%Z ->
  (forall e, In e es -> (vertex0 e < n)%nat /\ (vertex1 e < n)%nat) ->
  map JSON_pair (index_pairs es) = map pair_value (index_pairs es).
Proof.
  intros Hn Hin. unfold index_pairs. rewrite !map_map.
  apply map_ext_in. intros e He. destruct (Hin e He) as (B0 & B1).
  unfold JSON_pair, JSON_number, pair_value. cbn [fst snd].
  destruct (float_of_nat_plain (vertex0 e)) as (F0 & Z0); [lia|].
  destruct (float_of_nat_plain (vertex1 e)) as (F1 & Z1); [lia|].
  rewrite F0, F1, Z0, Z1. reflexivity.
Qed.

(** The export of the application read back by its import.  For a graph
    made by [fromSerialized] or by generation whose coordinates are all
    finite, [parseGraphData] accepts the text of the export,
    [JSON.parse(JSON.stringify(serialize()))], and returns the edges of the
    export as they are and its coordinates with -0 read as 0. *)
Theorem exported_text_is_accepted (G : Graph) :
  built H G -> (Z.of_nat (length (vertices G)) <= 2 ^ 53)%Z ->
  forallb finite_pair (data_vertices (serialize G)) = true ->
  parseGraphData (JSON_of_serialized (serialize G))
  = inr (mkGraphSerialized (map unsigned_pair (data_vertices (serialize G)))
                           (data_edges (serialize G))).
Proof.
  intros HB Hn Hv.
  pose proof (built_serializable H G HB Hn) as Hs.
  destruct (serialize_edges_in_range G Hs) as (es & E1 & _ & E3).
  remember (serialize G) as s eqn:Es. clear Es.
  unfold JSON_of_serialized, parseGraphData. simpl.
  rewrite (JSON_pairs_finite _ Hv), E1,
    (index_pairs_plain (length (vertices G)) es Hn E3).
  rewrite (proj2 (parse_items_inr _ _ _ 0 _) eq_refl).
  rewrite (proj2 (parse_items_inr _ _ _ 0 _) eq_refl).
  reflexivity.
Qed.

End ExportedText.

Lemma parseGraphData_reports_first_bad_edge_witness :
  parseGraphData
    (JSobject [("vertices"%string, JSarray [pair_value (0, 0); pair_value (1, 0)]);
               ("edges"%string,
                JSarray [pair_value (0, 1); JSarray [JSnumber 1; JSnull]])])
  = inl (EdgeMustContainNumbers 1).
Proof.
  apply (parseGraphData_reports_first_bad_edge
           [("vertices"%string, JSarray [pair_value (0, 0); pair_value (1, 0)]);
            ("edges"%string,
             JSarray [pair_value (0, 1); JSarray [JSnumber 1; JSnull]])]
           [(0, 0); (1, 0)]
           [pair_value (0, 1); JSarray [JSnumber 1; JSnull]] 1
           (JSarray [JSnumber 1; JSnull])).
  - reflexivity.
  - reflexivity.
  - reflexivity.
  - intros p. unfold pair_value. discriminate.
  - intros j Hj. assert (j = 0)%nat by lia. subst j.
    exists (0, 1). reflexivity.
Defined.

Lemma exported_text_is_accepted_witness :
  parseGraphData
    (JSON_of_serialized (serialize (Graph_fromSerialized (ref_host []) grid_2x2)))
  = inr (mkGraphSerialized
           (map unsigned_pair
              (data_vertices
                 (serialize (Graph_fromSerialized (ref_host []) grid_2x2))))
           (data_edges
              (serialize (Graph_fromSerialized (ref_host []) grid_2x2)))).
Proof.
  apply (exported_text_is_accepted (ref_host [])
           (Graph_fromSerialized (ref_host []) grid_2x2)
           (built_fromSerialized (ref_host []) grid_2x2)).
  - vm_compute. discriminate.
  - vm_compute. reflexivity.
Defined.
